(** * SDN controller: topology, shortest paths, ECMP and flow tables

    A shallow embedding of [sdn_controller.py]: the [Graph] class, the
    Dijkstra loop of [SDNController.compute_shortest_paths], the equal-cost
    next-hop filter, [install_flows], [remove_link_and_reconfigure] and
    [compute_path], followed by the properties the specification states
    about them. *)

From Stdlib Require Import List ZArith String Bool Lia Permutation Arith.
Import ListNotations.

Local Open Scope string_scope.
Local Open Scope list_scope.

(** ** Python values and exceptions *)

(** Node identifiers are Python strings. *)
Definition node := string.

(** The two exceptions the modelled code can raise. *)
Inductive exn : Type :=
| KeyError        (* d[k] or del d[k] on a missing key *)
| OverflowError.  (* an int too large to convert to float *)

(** Outcome of running a piece of the program: a value, a raised
    exception, or a loop that was still running when the fuel ran out. *)
Inductive res (A : Type) : Type :=
| Ok (a : A)
| Raise (e : exn)
| OutOfFuel.
Arguments Ok {A} a.
Arguments Raise {A} e.
Arguments OutOfFuel {A}.

Definition bind {A B} (c : res A) (k : A -> res B) : res B :=
  match c with
  | Ok a => k a
  | Raise e => Raise e
  | OutOfFuel => OutOfFuel
  end.

Notation "x <- c ;; k" := (bind c (fun x => k))
  (at level 61, c at next level, right associativity).
Notation "' p <- c ;; k" := (bind c (fun x => let p := x in k))
  (at level 61, p pattern, c at next level, right associativity).

(** ** Insertion-ordered dictionaries

    A Python [dict] keeps its keys in insertion order and the code iterates
    over them ([nodes()], [neighbors().items()]), so a dictionary is an
    association list: assigning to a key that is present keeps its position,
    assigning to a new key appends.  Keys of a Python dict are unique; the
    operations below keep them unique. *)
Definition dict (V : Type) := list (node * V).

Section Dict.
Context {V : Type}.

(** [d.get(k)] *)
Fixpoint dict_get (d : dict V) (k : node) : option V :=
  match d with
  | [] => None
  | (k', v) :: d' => if String.eqb k' k then Some v else dict_get d' k
  end.

(** [k in d] *)
Definition dict_mem (d : dict V) (k : node) : bool :=
  match dict_get d k with Some _ => true | None => false end.

(** [d.get(k, dflt)] *)
Definition dict_get_default (d : dict V) (k : node) (dflt : V) : V :=
  match dict_get d k with Some v => v | None => dflt end.

(** [d[k]] *)
Definition dict_lookup (d : dict V) (k : node) : res V :=
  match dict_get d k with Some v => Ok v | None => Raise KeyError end.

(** [d[k] = v] *)
Fixpoint dict_set (d : dict V) (k : node) (v : V) : dict V :=
  match d with
  | [] => [(k, v)]
  | (k', v') :: d' =>
      if String.eqb k' k then (k', v) :: d' else (k', v') :: dict_set d' k v
  end.

(** [d.setdefault(k, v)] (the returned value is not used by the code) *)
Definition dict_setdefault (d : dict V) (k : node) (v : V) : dict V :=
  if dict_mem d k then d else dict_set d k v.

(** [d.pop(k, None)]: the binding of [k] disappears, if there is one. *)
Fixpoint dict_pop (d : dict V) (k : node) : dict V :=
  match d with
  | [] => []
  | (k', v') :: d' =>
      if String.eqb k' k then dict_pop d' k else (k', v') :: dict_pop d' k
  end.

(** [del d[k]] *)
Definition dict_del (d : dict V) (k : node) : res (dict V) :=
  if dict_mem d k then Ok (dict_pop d k) else Raise KeyError.

(** [list(d.keys())] *)
Definition dict_keys (d : dict V) : list node := map fst d.
End Dict.

(** ** class Graph *)

Record Graph : Type := mkGraph { adj : dict (dict Z) }.

(** [Graph()] *)
Definition empty_graph : Graph := mkGraph [].

(** [adj[u][v]] read as a partial function. *)
Definition adj_get (g : Graph) (u v : node) : option Z :=
  match dict_get (adj g) u with
  | Some nb => dict_get nb v
  | None => None
  end.

Definition add_node (g : Graph) (n : node) : Graph :=
  mkGraph (dict_setdefault (adj g) n []).

(** [self.adj[u][v] = weight] *)
Definition set_weight (a : dict (dict Z)) (u v : node) (w : Z)
  : res (dict (dict Z)) :=
  nb <- dict_lookup a u ;;
  Ok (dict_set a u (dict_set nb v w)).

(** [del self.adj[nbr][node]] *)
Definition del_weight (a : dict (dict Z)) (nbr n : node)
  : res (dict (dict Z)) :=
  nb <- dict_lookup a nbr ;;
  nb' <- dict_del nb n ;;
  Ok (dict_set a nbr nb').

Fixpoint remove_node_loop (a : dict (dict Z)) (n : node) (nbrs : list node)
  : res (dict (dict Z)) :=
  match nbrs with
  | [] => Ok a
  | nbr :: rest => a' <- del_weight a nbr n ;; remove_node_loop a' n rest
  end.

Definition remove_node (g : Graph) (n : node) : res Graph :=
  match dict_get (adj g) n with
  | None => Ok g
  | Some nb =>
      a <- remove_node_loop (adj g) n (dict_keys nb) ;;
      a' <- dict_del a n ;;
      Ok (mkGraph a')
  end.

Definition add_link (g : Graph) (u v : node) (w : Z) : res Graph :=
  let g2 := add_node (add_node g u) v in
  a <- set_weight (adj g2) u v w ;;
  a' <- set_weight a v u w ;;
  Ok (mkGraph a').

(** [self.adj.get(u, {}).pop(v, None)] *)
Definition pop_weight (a : dict (dict Z)) (u v : node) : dict (dict Z) :=
  match dict_get a u with
  | Some nb => dict_set a u (dict_pop nb v)
  | None => a
  end.

Definition remove_link (g : Graph) (u v : node) : Graph :=
  mkGraph (pop_weight (pop_weight (adj g) u v) v u).

(** [neighbors(u)]: the items of [adj.get(u, {})]. *)
Definition neighbors (g : Graph) (u : node) : list (node * Z) :=
  dict_get_default (adj g) u [].

Definition nodes (g : Graph) : list node := dict_keys (adj g).

(** The four mutators as commands, and a run of a command sequence. *)
Inductive topo_op : Type :=
| OpAddNode (n : node)
| OpRemoveNode (n : node)
| OpAddLink (u v : node) (w : Z)
| OpRemoveLink (u v : node).

Definition apply_op (g : Graph) (o : topo_op) : res Graph :=
  match o with
  | OpAddNode n => Ok (add_node g n)
  | OpRemoveNode n => remove_node g n
  | OpAddLink u v w => add_link g u v w
  | OpRemoveLink u v => Ok (remove_link g u v)
  end.

Fixpoint run_ops (g : Graph) (ops : list topo_op) : res Graph :=
  match ops with
  | [] => Ok g
  | o :: rest => g' <- apply_op g o ;; run_ops g' rest
  end.

(** ** Distances: Python ints and [float('inf')] *)

Local Open Scope Z_scope.

Inductive dist_val : Type :=
| Fin (z : Z)   (* an int *)
| Inf.          (* float('inf') *)

(** [x == float('inf')] *)
Definition is_inf (x : dist_val) : bool :=
  match x with Inf => true | Fin _ => false end.

(** [d > x] for an int [d] *)
Definition int_gt (d : Z) (x : dist_val) : bool :=
  match x with Fin z => z <? d | Inf => false end.

(** [nd < x] for an int [nd] *)
Definition int_lt (nd : Z) (x : dist_val) : bool :=
  match x with Fin z => nd <? z | Inf => true end.

(** [x == y] *)
Definition dv_eqb (x y : dist_val) : bool :=
  match x, y with
  | Fin a, Fin b => a =? b
  | Inf, Inf => true
  | _, _ => false
  end.

(** An int converts to a float when it rounds to a finite double, that is
    when its magnitude is below [2^1024 - 2^970]. *)
Definition float_of_int_ok (w : Z) : bool := Z.abs w <? 2 ^ 1024 - 2 ^ 970.

(** [x + w] for an int [w]: exact on ints; [float('inf') + w] first converts
    [w] to a float, which raises OverflowError when [w] is too large. *)
Definition dv_add (x : dist_val) (w : Z) : res dist_val :=
  match x with
  | Fin z => Ok (Fin (z + w))
  | Inf => if float_of_int_ok w then Ok Inf else Raise OverflowError
  end.

(** ** The priority queue

    [heapq] keeps a binary heap of [(distance, node)] tuples in a list.  The
    code only pushes and pops the least tuple, so the queue is modelled by
    the bag of its elements: push adds one, pop extracts the least one in
    the order of Python tuples (distance first, then the node name). *)
Definition pq_item : Type := Z * node.

Definition item_lt (a b : pq_item) : bool :=
  (fst a <? fst b) || ((fst a =? fst b) && String.ltb (snd a) (snd b)).

Definition item_eqb (a b : pq_item) : bool :=
  (fst a =? fst b) && String.eqb (snd a) (snd b).

Fixpoint least (x : pq_item) (l : list pq_item) : pq_item :=
  match l with
  | [] => x
  | y :: l' => least (if item_lt y x then y else x) l'
  end.

Fixpoint remove_one (x : pq_item) (l : list pq_item) : list pq_item :=
  match l with
  | [] => []
  | y :: l' => if item_eqb y x then l' else y :: remove_one x l'
  end.

Definition heappush (pq : list pq_item) (x : pq_item) : list pq_item := x :: pq.

Definition heappop (pq : list pq_item) : option (pq_item * list pq_item) :=
  match pq with
  | [] => None
  | x :: l => let m := least x l in Some (m, remove_one m pq)
  end.

(** ** SDNController.compute_shortest_paths *)

Record sp_state : Type := mkSp {
  sp_dist : dict dist_val;
  sp_prev : dict (option node);
  sp_pq : list pq_item
}.

(** The [for v, w in self.topo.neighbors(u)] loop. *)
Fixpoint relax (u : node) (d : Z) (nbrs : list (node * Z)) (st : sp_state)
  : res sp_state :=
  match nbrs with
  | [] => Ok st
  | (v, w) :: rest =>
      let nd := d + w in
      dv <- dict_lookup (sp_dist st) v ;;
      if int_lt nd dv then
        relax u d rest
          (mkSp (dict_set (sp_dist st) v (Fin nd))
                (dict_set (sp_prev st) v (Some u))
                (heappush (sp_pq st) (nd, v)))
      else relax u d rest st
  end.

(** The [while pq] loop; one unit of fuel per iteration. *)
Fixpoint sp_loop (fuel : nat) (g : Graph) (st : sp_state)
  : res (dict dist_val * dict (option node)) :=
  match fuel with
  | O => OutOfFuel
  | S fuel' =>
      match heappop (sp_pq st) with
      | None => Ok (sp_dist st, sp_prev st)
      | Some ((d, u), pq') =>
          du <- dict_lookup (sp_dist st) u ;;
          if int_gt d du then
            sp_loop fuel' g (mkSp (sp_dist st) (sp_prev st) pq')
          else
            st' <- relax u d (neighbors g u)
                     (mkSp (sp_dist st) (sp_prev st) pq') ;;
            sp_loop fuel' g st'
      end
  end.

Definition init_dist (g : Graph) (src : node) : dict dist_val :=
  dict_set (map (fun n => (n, Inf)) (nodes g)) src (Fin 0).

Definition init_prev (g : Graph) : dict (option node) :=
  map (fun n => (n, @None node)) (nodes g).

Definition compute_shortest_paths (fuel : nat) (g : Graph) (src : node)
  : res (dict dist_val * dict (option node)) :=
  sp_loop fuel g (mkSp (init_dist g src) (init_prev g) [(0, src)]).

(** ** SDNController.compute_equal_cost_next_hops *)

Fixpoint ecmp_loop (nbrs : list (node * Z)) (dst : node)
  (dist : dict dist_val) (nxt : list node) : res (list node) :=
  match nbrs with
  | [] => Ok nxt
  | (v, w) :: rest =>
      s <- dv_add (dict_get_default dist v Inf) w ;;
      if dv_eqb s (dict_get_default dist dst Inf)
      then ecmp_loop rest dst dist (nxt ++ [v])
      else ecmp_loop rest dst dist nxt
  end.

Definition compute_equal_cost_next_hops (g : Graph) (sw dst : node)
  (dist : dict dist_val) : res (list node) :=
  ecmp_loop (neighbors g sw) dst dist [].

(** ** SDNController.compute_path *)

(** The [while cur is not None] loop; one unit of fuel per iteration. *)
Fixpoint walk_prev (fuel : nat) (prev : dict (option node))
  (cur : option node) (path : list node) : res (list node) :=
  match cur with
  | None => Ok path
  | Some c =>
      match fuel with
      | O => OutOfFuel
      | S fuel' =>
          nxt <- dict_lookup prev c ;;
          walk_prev fuel' prev nxt (path ++ [c])
      end
  end.

(** [Ok None] is the unreachable result, [Ok (Some p)] a path. *)
Definition compute_path (fuel : nat) (g : Graph) (src dst : node)
  : res (option (list node)) :=
  '(dist, prev) <- compute_shortest_paths fuel g src ;;
  dd <- dict_lookup dist dst ;;
  if is_inf dd then Ok None
  else
    path <- walk_prev fuel prev (Some dst) [] ;;
    Ok (Some (rev path)).

(** ** Flow tables *)

Inductive priority : Type := normal | high.

(** A flow-table entry; [backup = None] when the key is absent. *)
Record entry : Type := mkEntry {
  match_dst : node;
  action : list node;
  prio : priority;
  backup : option (list node)
}.

Definition flow : Type := node * node.

Definition flow_eqb (a b : flow) : bool :=
  String.eqb (fst a) (fst b) && String.eqb (snd a) (snd b).

(** [f in self.critical_flows] *)
Definition flow_in (f : flow) (s : list flow) : bool := existsb (flow_eqb f) s.

(** [for src, d in self.active_flows: if d == dst: entry['priority'] = 'high'] *)
Fixpoint set_priority (active : list flow) (dst : node) (e : entry) : entry :=
  match active with
  | [] => e
  | (_, d) :: rest =>
      set_priority rest dst
        (if String.eqb d dst
         then mkEntry (match_dst e) (action e) high (backup e)
         else e)
  end.

(** [for src, d in self.active_flows:
       if (src, d) in self.critical_flows and len(primaries) > 1:
           entry['backup'] = primaries[1:]] *)
Fixpoint set_backup (active critical : list flow) (primaries : list node)
  (e : entry) : entry :=
  match active with
  | [] => e
  | (src, d) :: rest =>
      set_backup rest critical primaries
        (if flow_in (src, d) critical && Nat.ltb 1 (List.length primaries)
         then mkEntry (match_dst e) (action e) (prio e) (Some (tl primaries))
         else e)
  end.

Record controller : Type := mkController {
  topo : Graph;
  flow_tables : dict (list entry);
  active_flows : list flow;
  critical_flows : list flow
}.

(** The first loop of [install_flows]: one shortest-path run per switch. *)
Fixpoint all_dists (fuel : nat) (g : Graph) (sws : list node)
  (all_dist : dict (dict dist_val)) : res (dict (dict dist_val)) :=
  match sws with
  | [] => Ok all_dist
  | sw :: rest =>
      '(dist, _) <- compute_shortest_paths fuel g sw ;;
      all_dists fuel g rest (dict_set all_dist sw dist)
  end.

Section Controller.
(** [random.shuffle] is the library's: a generator state goes in, the
    shuffled list and the next state come out. *)
Variable rng : Type.
Variable shuffle : rng -> list node -> list node * rng.

(** The [for dst in self.topo.nodes()] loop for one switch. *)
Fixpoint install_dsts (g : Graph) (active critical : list flow)
  (sw : node) (dist : dict dist_val) (dsts : list node)
  (ft : dict (list entry)) (r : rng) : res (dict (list entry) * rng) :=
  match dsts with
  | [] => Ok (ft, r)
  | dst :: rest =>
      if String.eqb dst sw
      then install_dsts g active critical sw dist rest ft r
      else
        dd <- dict_lookup dist dst ;;
        if is_inf dd
        then install_dsts g active critical sw dist rest ft r
        else
          nxt <- compute_equal_cost_next_hops g sw dst dist ;;
          let (primaries, r') := shuffle r nxt in
          let e0 := mkEntry dst primaries normal None in
          let e1 := set_priority active dst e0 in
          let e2 := set_backup active critical primaries e1 in
          tbl <- dict_lookup ft sw ;;
          install_dsts g active critical sw dist rest
            (dict_set ft sw (tbl ++ [e2])) r'
  end.

(** The [for sw in self.topo.nodes()] loop that fills the tables. *)
Fixpoint install_sws (g : Graph) (active critical : list flow)
  (all_dist : dict (dict dist_val)) (sws : list node)
  (ft : dict (list entry)) (r : rng) : res (dict (list entry) * rng) :=
  match sws with
  | [] => Ok (ft, r)
  | sw :: rest =>
      dist <- dict_lookup all_dist sw ;;
      '(ft', r') <- install_dsts g active critical sw dist (nodes g) ft r ;;
      install_sws g active critical all_dist rest ft' r'
  end.

Definition install_flows (fuel : nat) (c : controller) (r : rng)
  : res (controller * rng) :=
  let g := topo c in
  let ft0 := map (fun n => (n, @nil entry)) (nodes g) in
  all_dist <- all_dists fuel g (nodes g) [] ;;
  '(ft, r') <- install_sws g (active_flows c) (critical_flows c)
                 all_dist (nodes g) ft0 r ;;
  Ok (mkController g ft (active_flows c) (critical_flows c), r').

(** [SDNController(topology)] *)
Definition new_controller (fuel : nat) (g : Graph) (r : rng)
  : res (controller * rng) :=
  install_flows fuel (mkController g [] [] [("H2", "S4")%string]) r.

(** The timestamped [print] is not modelled. *)
Definition remove_link_and_reconfigure (fuel : nat) (c : controller)
  (u v : node) (r : rng) : res (controller * rng) :=
  install_flows fuel
    (mkController (remove_link (topo c) u v) (flow_tables c)
       (active_flows c) (critical_flows c)) r.

(** The CLI's [inject_flow]: append to the active flows, reinstall. *)
Definition inject_flow (fuel : nat) (c : controller) (src dst : node)
  (r : rng) : res (controller * rng) :=
  install_flows fuel
    (mkController (topo c) (flow_tables c)
       (active_flows c ++ [(src, dst)]) (critical_flows c)) r.
End Controller.

Arguments install_flows {rng} shuffle fuel c r.
Arguments install_sws {rng} shuffle g active critical all_dist sws ft r.
Arguments install_dsts {rng} shuffle g active critical sw dist dsts ft r.
Arguments new_controller {rng} shuffle fuel g r.
Arguments remove_link_and_reconfigure {rng} shuffle fuel c u v r.
Arguments inject_flow {rng} shuffle fuel c src dst r.


(** ** Specification vocabulary *)

(** [adj[u][v] = w] implies [adj[v][u] = w]. *)
Definition symmetric (g : Graph) : Prop :=
  forall u v w, adj_get g u v = Some w -> adj_get g v u = Some w.

(** Keys are unique, in the node table and in every neighbor table. *)
Definition unique_keys (a : dict (dict Z)) : Prop :=
  NoDup (dict_keys a) /\
  forall u nb, dict_get a u = Some nb -> NoDup (dict_keys nb).

(** What every [Graph] built by the four mutators satisfies. *)
Definition well_formed (g : Graph) : Prop :=
  unique_keys (adj g) /\ symmetric g.

Definition nonneg_weights (g : Graph) : Prop :=
  forall u v w, adj_get g u v = Some w -> 0 <= w.

(** Executable checks of the same conditions. *)
Definition mem_node (x : node) (l : list node) : bool :=
  existsb (String.eqb x) l.

Fixpoint nodupb (l : list node) : bool :=
  match l with
  | [] => true
  | x :: l' => negb (mem_node x l') && nodupb l'
  end.

Definition well_formedb (g : Graph) : bool :=
  nodupb (nodes g) &&
  forallb (fun '(u, nb) =>
             nodupb (dict_keys nb) &&
             forallb (fun '(v, w) =>
                        match adj_get g v u with
                        | Some w' => w =? w'
                        | None => false
                        end) nb)
          (adj g).

Definition nonneg_weightsb (g : Graph) : bool :=
  forallb (fun '(_, nb) => forallb (fun '(_, w) => 0 <=? w) nb) (adj g).

(** Distances compared as Python compares an int or [inf] with another. *)
Definition dv_le (x y : dist_val) : Prop :=
  match x, y with
  | Fin a, Fin b => a <= b
  | _, Inf => True
  | Inf, Fin _ => False
  end.

(** The mathematical sum [x + w] ([inf + w] is [inf]). *)
Definition dv_plus (x : dist_val) (w : Z) : dist_val :=
  match x with Fin z => Fin (z + w) | Inf => Inf end.

(** The total weight of a node sequence, defined when every consecutive
    pair is a link of the topology. *)
Fixpoint path_weight (g : Graph) (p : list node) : option Z :=
  match p with
  | [] => Some 0
  | a :: rest =>
      match rest with
      | [] => Some 0
      | b :: _ =>
          match adj_get g a b, path_weight g rest with
          | Some w, Some c => Some (w + c)
          | _, _ => None
          end
      end
  end.

(** [p] starts at [src] and ends at [dst]. *)
Definition connects (src dst : node) (p : list node) : Prop :=
  hd_error p = Some src /\ last p src = dst.

(** The number of link traversals of a node sequence. *)
Definition edge_count (p : list node) : nat := pred (List.length p).

(** Iterations that suffice for the loops on a topology with non-negative
    weights: every node is expanded at most once and every expansion pushes
    at most one queue item per neighbor. *)
Definition degree_sum (g : Graph) : nat :=
  list_sum (map (fun n => List.length (neighbors g n)) (nodes g)).

Definition fuel_bound (g : Graph) : nat :=
  (2 + List.length (nodes g) + degree_sum g)%nat.

(** The predecessor chain from [v] back to the source: the nodes visited by
    the [while cur is not None] loop and the weight of the links followed. *)
Inductive chain (g : Graph) (prev : dict (option node))
  : node -> list node -> Z -> Prop :=
| chain_root s :
    dict_get prev s = Some None -> chain g prev s [s] 0
| chain_step v u w l c :
    dict_get prev v = Some (Some u) ->
    adj_get g u v = Some w ->
    chain g prev u l c ->
    chain g prev v (v :: l) (c + w).

(** Degrees of the nodes that have not been expanded yet. *)
Definition remaining (g : Graph) (done : list node) : nat :=
  list_sum (map (fun x => if mem_node x done then O
                          else List.length (neighbors g x)) (nodes g)).

(** The loop invariant of [compute_shortest_paths].  [done] lists the nodes
    expanded so far, [cur] is the node being expanded and [todo] the
    neighbors of [cur] the inner loop has still to visit. *)
Record sp_inv (g : Graph) (src : node) (st : sp_state)
  (done : list node) (cur : node) (todo : list (node * Z)) : Prop := {
  inv_keys_dist : dict_keys (sp_dist st) = nodes g;
  inv_keys_prev : dict_keys (sp_prev st) = nodes g;
  inv_src : dict_get (sp_dist st) src = Some (Fin 0);
  inv_nonneg : forall v dv, dict_get (sp_dist st) v = Some (Fin dv) -> 0 <= dv;
  inv_pq_nodup : NoDup (sp_pq st);
  inv_pq : forall d v, In (d, v) (sp_pq st) ->
      exists dv, dict_get (sp_dist st) v = Some (Fin dv) /\ dv <= d;
  inv_done : forall u, In u done ->
      exists du, dict_get (sp_dist st) u = Some (Fin du) /\
        forall d v, In (d, v) (sp_pq st) -> du <= d /\ (v = u -> du < d);
  inv_relaxed : forall u v w, In u done -> In (v, w) (neighbors g u) ->
      (u = cur /\ In (v, w) todo) \/
      exists du dv, dict_get (sp_dist st) u = Some (Fin du) /\
                    dict_get (sp_dist st) v = Some (Fin dv) /\
                    dv <= du + w;
  inv_pending : forall v dv, dict_get (sp_dist st) v = Some (Fin dv) ->
      In v done \/ In (dv, v) (sp_pq st);
  inv_chain : forall v dv, dict_get (sp_dist st) v = Some (Fin dv) ->
      exists l, chain g (sp_prev st) v l dv /\ NoDup l /\
                incl (tl l) done /\ last l v = src
}.

(** What holds in addition while [cur] is being expanded with key [d]. *)
Record expanding (st : sp_state) (done : list node) (cur : node) (d : Z)
  : Prop := {
  exp_cur : In cur done;
  exp_dist : dict_get (sp_dist st) cur = Some (Fin d);
  exp_le : forall u, In u done ->
      exists du, dict_get (sp_dist st) u = Some (Fin du) /\ du <= d
}.

(** What the maps returned by [compute_shortest_paths] satisfy. *)
Record sp_result (g : Graph) (src : node) (dist : dict dist_val)
  (prev : dict (option node)) : Prop := {
  res_keys : dict_keys dist = nodes g;
  res_src : dict_get dist src = Some (Fin 0);
  res_relaxed : forall a b w da,
      adj_get g a b = Some w -> dict_get dist a = Some (Fin da) ->
      exists db, dict_get dist b = Some (Fin db) /\ db <= da + w;
  res_chain : forall v dv, dict_get dist v = Some (Fin dv) ->
      exists l, chain g prev v l dv /\ NoDup l /\
                incl l (nodes g) /\ last l v = src
}.

(** ** The topologies of the scenarios *)

Definition graph_of_ops (ops : list topo_op) : Graph :=
  match run_ops empty_graph ops with
  | Ok g => g
  | _ => empty_graph
  end.

(** S1-S2(1), S1-S3(1), S2-S4(1), S3-S4(1), S1-S4(5). *)
Definition switch_links : list topo_op :=
  [OpAddLink "S1" "S2" 1; OpAddLink "S1" "S3" 1; OpAddLink "S2" "S4" 1;
   OpAddLink "S3" "S4" 1; OpAddLink "S1" "S4" 5].

Definition switch_topo : Graph := Eval vm_compute in graph_of_ops switch_links.

(** The topology built by the command-line entry point: the switches,
    then hosts H1 and H2 attached to S1 and S2. *)
Definition main_topo : Graph :=
  Eval vm_compute in graph_of_ops
    (switch_links ++
     [OpAddNode "H1"; OpAddNode "H2";
      OpAddLink "H1" "S1" 1; OpAddLink "H2" "S2" 1]).

(** ** Flow-table vocabulary *)

(** [random.shuffle] permutes its argument. *)
Definition is_shuffle {rng : Type}
  (shuffle : rng -> list node -> list node * rng) : Prop :=
  forall r l, Permutation l (fst (shuffle r l)).

(** Two generators used to run the model: one leaves the list as it is,
    one reverses it. *)
Definition keep_order (r : unit) (l : list node) : list node * unit := (l, r).
Definition reverse_order (r : unit) (l : list node) : list node * unit :=
  (rev l, r).

(** Some active flow has destination [dst]. *)
Definition has_dst (active : list flow) (dst : node) : bool :=
  existsb (fun f => String.eqb (snd f) dst) active.

(** Some active flow is in the critical set. *)
Definition any_critical (active critical : list flow) : bool :=
  existsb (fun f => flow_in f critical) active.

(** The test of [compute_equal_cost_next_hops] on one neighbor:
    [dist[v] + w == dist[dst]], absent keys read as [inf]. *)
Definition hop_ok (dist : dict dist_val) (dst : node) (vw : node * Z) : bool :=
  dv_eqb (dv_plus (dict_get_default dist (fst vw) Inf) (snd vw))
         (dict_get_default dist dst Inf).

Definition ecmp_set (g : Graph) (sw dst : node) (dist : dict dist_val)
  : list node :=
  map fst (filter (hop_ok dist dst) (neighbors g sw)).

(** The destinations that get an entry in the table of [sw]. *)
Definition wanted (sw : node) (dist : dict dist_val) (dst : node) : bool :=
  negb (String.eqb dst sw) && negb (is_inf (dict_get_default dist dst Inf)).

(** What [install_flows] stores for destination [dst] at switch [sw]. *)
Definition entry_for (g : Graph) (active critical : list flow) (sw : node)
  (dist : dict dist_val) (dst : node) (e : entry) : Prop :=
  match_dst e = dst /\
  Permutation (ecmp_set g sw dst dist) (action e) /\
  prio e = (if has_dst active dst then high else normal) /\
  backup e = (if any_critical active critical
                 && Nat.ltb 1 (List.length (action e))
              then Some (tl (action e)) else None).

Definition table_for (g : Graph) (active critical : list flow) (sw : node)
  (dist : dict dist_val) (dsts : list node) (tbl : list entry) : Prop :=
  Forall2 (entry_for g active critical sw dist)
          (filter (wanted sw dist) dsts) tbl.

(** Two entries that agree up to the order of the next hops. *)
Definition same_route (e1 e2 : entry) : Prop :=
  match_dst e1 = match_dst e2 /\
  Permutation (action e1) (action e2) /\
  prio e1 = prio e2.

(** A topology with two components, A-B and C-D. *)
Definition split_topo : Graph :=
  Eval vm_compute in graph_of_ops [OpAddLink "A" "B" 1; OpAddLink "C" "D" 1].

(** A generator driven by a tape of coin flips: each call consumes one flip
    and reverses the list when it is heads; on an empty tape the list is
    left as it is. *)
Definition tape_order (tape : list bool) (l : list node)
  : list node * list bool :=
  match tape with
  | b :: rest => (if b then rev l else l, rest)
  | [] => (l, [])
  end.

(** ** Vocabulary for runs on arbitrary weights *)

(** Every read [dist[x]] the loop can make finds its key. *)
Record sp_keys (g : Graph) (st : sp_state) : Prop := {
  keys_nodes : forall y, In y (nodes g) -> dict_get (sp_dist st) y <> None;
  keys_pq : forall d x, In (d, x) (sp_pq st) -> dict_get (sp_dist st) x <> None
}.

(** [x] has its current distance in the queue whenever it is at finite
    distance and not farther than [o]. *)
Definition live (st : sp_state) (x o : node) : Prop :=
  forall dx, dict_get (sp_dist st) x = Some (Fin dx) ->
    (forall d', dict_get (sp_dist st) o = Some (Fin d') -> dx <= d') ->
    In (dx, x) (sp_pq st).

(** What the loop keeps when a link of negative weight joins [s] and [v]:
    the nearer of the two is always waiting in the queue. *)
Record neg_inv (s v : node) (st : sp_state) : Prop := {
  neg_src : exists ds, dict_get (sp_dist st) s = Some (Fin ds);
  neg_live_s : live st s v;
  neg_live_v : live st v s
}.

(** A topology whose only link has a negative weight, as the command
    [add_link A B -1] builds it. *)
Definition negative_topo : Graph :=
  Eval vm_compute in graph_of_ops [OpAddLink "A" "B" (-1)].

(** Nodes at infinite distance have no predecessor. *)
Definition prev_none_at_inf (st : sp_state) : Prop :=
  forall v, dict_get (sp_dist st) v = Some Inf ->
            dict_get (sp_prev st) v = Some None.

(** The neighbor on which [inf + w] cannot be computed: it is at infinite
    distance and its link weight does not convert to float. *)
Definition overflows (dist : dict dist_val) (vw : node * Z) : bool :=
  is_inf (dict_get_default dist (fst vw) Inf)
  && negb (float_of_int_ok (snd vw)).

(** A topology whose only link has a weight too large for a float. *)
Definition huge_topo : Graph :=
  Eval vm_compute in graph_of_ops [OpAddLink "A" "B" (2 ^ 1024)].

(** ** The utilisation count of [visualize]

    The part of [visualize] between the drawing calls: for each active flow
    its path is computed, the hops of the path are appended to [flow_edges]
    and counted in [util], a [defaultdict(int)] keyed by the sorted pair of
    end points.  The drawing itself is not modelled. *)

(** [(path[i], path[i+1])] for [i] in [range(len(path) - 1)] *)
Fixpoint path_edges (p : list node) : list (node * node) :=
  match p with
  | u :: ((v :: _) as rest) => (u, v) :: path_edges rest
  | _ => []
  end.

(** [tuple(sorted((u, v)))]; [sorted] is stable. *)
Definition sorted_pair (e : node * node) : node * node :=
  let (u, v) := e in if String.ltb v u then (v, u) else (u, v).

Definition pair_eqb (a b : node * node) : bool :=
  String.eqb (fst a) (fst b) && String.eqb (snd a) (snd b).

(** [util.get(k, 0)] *)
Fixpoint util_get (util : list ((node * node) * Z)) (k : node * node) : Z :=
  match util with
  | [] => 0
  | (k', n) :: rest => if pair_eqb k' k then n else util_get rest k
  end.

(** [util[k] += 1]: a missing key starts at [int()], which is 0. *)
Fixpoint util_incr (util : list ((node * node) * Z)) (k : node * node)
  : list ((node * node) * Z) :=
  match util with
  | [] => [(k, 1)]
  | (k', n) :: rest =>
      if pair_eqb k' k then (k', n + 1) :: rest
      else (k', n) :: util_incr rest k
  end.

(** The inner loop over the hops of one path. *)
Fixpoint record_edges (es : list (node * node))
  (flow_edges : list (node * node)) (util : list ((node * node) * Z))
  : list (node * node) * list ((node * node) * Z) :=
  match es with
  | [] => (flow_edges, util)
  | e :: rest =>
      record_edges rest (flow_edges ++ [e]) (util_incr util (sorted_pair e))
  end.

(** The outer loop over [self.active_flows]; [if path:] skips [None]. *)
Fixpoint utilisation_loop (fuel : nat) (g : Graph) (flows : list flow)
  (flow_edges : list (node * node)) (util : list ((node * node) * Z))
  : res (list (node * node) * list ((node * node) * Z)) :=
  match flows with
  | [] => Ok (flow_edges, util)
  | (src, dst) :: rest =>
      path <- compute_path fuel g src dst ;;
      match path with
      | Some ((_ :: _) as p) =>
          let (fe, ut) := record_edges (path_edges p) flow_edges util in
          utilisation_loop fuel g rest fe ut
      | _ => utilisation_loop fuel g rest flow_edges util
      end
  end.

Definition utilisation (fuel : nat) (c : controller)
  : res (list (node * node) * list ((node * node) * Z)) :=
  utilisation_loop fuel (topo c) (active_flows c) [] [].

(** How often the hop [k], in either direction, occurs in [es]. *)
Definition hop_count (es : list (node * node)) (k : node * node) : Z :=
  Z.of_nat (List.length (filter (fun e => pair_eqb (sorted_pair e) k) es)).

(** ** The CLI's [remove_node] command

    [topo.remove_node(n); ctrl.install_flows()]: the controller holds the
    very graph object that the command changes. *)
Definition cli_remove_node {rng : Type}
  (shuffle : rng -> list node -> list node * rng)
  (fuel : nat) (c : controller) (n : node) (r : rng)
  : res (controller * rng) :=
  g' <- remove_node (topo c) n ;;
  install_flows shuffle fuel
    (mkController g' (flow_tables c) (active_flows c) (critical_flows c)) r.

(** The state the two loops of [visualize] keep. *)
Record util_inv (g : Graph) (fe : list (node * node))
  (util : list ((node * node) * Z)) : Prop := {
  ui_links : forall e, In e fe ->
      exists w, adj_get g (fst e) (snd e) = Some w;
  ui_count : forall k, util_get util k = hop_count fe k;
  ui_nodup : NoDup (map fst util);
  ui_keys : forall k, In k (map fst util) ->
      exists e, In e fe /\ sorted_pair e = k
}.

(** * Properties *)

(** ** Dictionaries *)

Section DictFacts.
Context {V : Type}.
Implicit Types (d : dict V) (k : node) (v : V).

Lemma dict_get_set_eq d k v : dict_get (dict_set d k v) k = Some v.
Proof.
  induction d as [|[k' v'] d IH]; simpl.
  - now rewrite String.eqb_refl.
  - destruct (String.eqb k' k) eqn:E; simpl; rewrite E; auto.
Qed.

Lemma dict_get_set_neq d k k' v :
  k <> k' -> dict_get (dict_set d k v) k' = dict_get d k'.
Proof.
  intros Hne. induction d as [|[k0 v0] d IH]; simpl.
  - apply String.eqb_neq in Hne. now rewrite Hne.
  - destruct (String.eqb k0 k) eqn:E; simpl.
    + apply String.eqb_eq in E. subst k0.
      apply String.eqb_neq in Hne. now rewrite Hne.
    + now rewrite IH.
Qed.

Lemma dict_get_set d k k' v :
  dict_get (dict_set d k v) k' =
  if String.eqb k k' then Some v else dict_get d k'.
Proof.
  destruct (String.eqb_spec k k') as [->|Hne].
  - apply dict_get_set_eq.
  - now apply dict_get_set_neq.
Qed.

Lemma dict_get_pop d k k' :
  dict_get (dict_pop d k) k' =
  if String.eqb k k' then None else dict_get d k'.
Proof.
  induction d as [|[k0 v0] d IH]; simpl.
  - now destruct (String.eqb k k').
  - destruct (String.eqb_spec k0 k) as [->|Hne]; simpl.
    + rewrite IH. now destruct (String.eqb k k').
    + rewrite IH. destruct (String.eqb_spec k k') as [E|Hne'].
      * subst k'. apply String.eqb_neq in Hne. now rewrite Hne.
      * reflexivity.
Qed.

Lemma dict_get_In d k v : dict_get d k = Some v -> In (k, v) d.
Proof.
  induction d as [|[k0 v0] d IH]; simpl; [discriminate|].
  destruct (String.eqb_spec k0 k) as [->|Hne]; intros H.
  - injection H as ->. now left.
  - right. auto.
Qed.

Lemma dict_get_None d k : dict_get d k = None <-> ~ In k (dict_keys d).
Proof.
  induction d as [|[k0 v0] d IH]; simpl.
  - tauto.
  - destruct (String.eqb_spec k0 k) as [->|Hne].
    + split; [discriminate|]. intros H; exfalso; apply H; now left.
    + rewrite IH. tauto.
Qed.

Lemma dict_get_Some_key d k v : dict_get d k = Some v -> In k (dict_keys d).
Proof.
  intros H. apply dict_get_In in H. unfold dict_keys.
  now apply (in_map fst) in H.
Qed.

Lemma dict_key_get d k : In k (dict_keys d) -> exists v, dict_get d k = Some v.
Proof.
  intros H. destruct (dict_get d k) eqn:E; eauto.
  apply dict_get_None in E. contradiction.
Qed.

Lemma In_dict_get d k v :
  NoDup (dict_keys d) -> In (k, v) d -> dict_get d k = Some v.
Proof.
  induction d as [|[k0 v0] d IH]; simpl; [tauto|].
  intros Hnd [H|H].
  - injection H as -> ->. now rewrite String.eqb_refl.
  - inversion Hnd as [|? ? Hni Hnd']; subst.
    destruct (String.eqb_spec k0 k) as [->|Hne]; auto.
    exfalso. apply Hni. now apply (in_map fst) in H.
Qed.

Lemma dict_keys_set_mem d k v :
  In k (dict_keys d) -> dict_keys (dict_set d k v) = dict_keys d.
Proof.
  induction d as [|[k0 v0] d IH]; simpl; [tauto|].
  intros H. destruct (String.eqb_spec k0 k) as [->|Hne]; simpl; auto.
  f_equal. apply IH. destruct H; [contradiction|assumption].
Qed.

Lemma dict_keys_set_new d k v :
  ~ In k (dict_keys d) -> dict_keys (dict_set d k v) = dict_keys d ++ [k].
Proof.
  induction d as [|[k0 v0] d IH]; simpl; auto.
  intros H. destruct (String.eqb_spec k0 k) as [->|Hne]; simpl.
  - exfalso; apply H; now left.
  - f_equal. apply IH. tauto.
Qed.

Lemma dict_keys_set_NoDup d k v :
  NoDup (dict_keys d) -> NoDup (dict_keys (dict_set d k v)).
Proof.
  intros Hnd. destruct (in_dec string_dec k (dict_keys d)) as [Hin|Hni].
  - now rewrite dict_keys_set_mem.
  - rewrite dict_keys_set_new by assumption.
    apply NoDup_app; [assumption|repeat constructor; simpl; tauto|].
    intros x Hx [<-|[]]. contradiction.
Qed.

Lemma dict_keys_pop_In d k x :
  In x (dict_keys (dict_pop d k)) <-> In x (dict_keys d) /\ x <> k.
Proof.
  induction d as [|[k0 v0] d IH]; simpl; [tauto|].
  destruct (String.eqb_spec k0 k) as [->|Hne]; simpl; rewrite IH.
  - split; [tauto|]. intros [[<-|H] Hx]; tauto.
  - split; [|tauto]. intros [<-|H]; tauto.
Qed.

Lemma dict_keys_pop_NoDup d k :
  NoDup (dict_keys d) -> NoDup (dict_keys (dict_pop d k)).
Proof.
  induction d as [|[k0 v0] d IH]; simpl; auto.
  intros Hnd. inversion Hnd as [|? ? Hni Hnd']; subst.
  destruct (String.eqb k0 k); simpl; auto.
  constructor; auto. rewrite dict_keys_pop_In. tauto.
Qed.

Lemma dict_mem_true d k : dict_mem d k = true <-> In k (dict_keys d).
Proof.
  unfold dict_mem. destruct (dict_get d k) eqn:E.
  - split; auto. intros _. eapply dict_get_Some_key; eauto.
  - apply dict_get_None in E. split; [discriminate|contradiction].
Qed.

Lemma dict_get_setdefault d k k' v :
  dict_get (dict_setdefault d k v) k' =
  match dict_get d k' with
  | Some x => Some x
  | None => if String.eqb k k' then Some v else None
  end.
Proof.
  unfold dict_setdefault, dict_mem.
  destruct (dict_get d k) eqn:E.
  - destruct (dict_get d k') eqn:E'; auto.
    destruct (String.eqb_spec k k') as [->|]; congruence.
  - rewrite dict_get_set.
    destruct (String.eqb_spec k k') as [<-|]; [now rewrite E|].
    now destruct (dict_get d k').
Qed.

Lemma dict_keys_setdefault_NoDup d k v :
  NoDup (dict_keys d) -> NoDup (dict_keys (dict_setdefault d k v)).
Proof.
  unfold dict_setdefault. destruct (dict_mem d k); auto.
  apply dict_keys_set_NoDup.
Qed.
End DictFacts.

(** ** The topology model *)

Lemma adj_get_Some_inv g u v w :
  adj_get g u v = Some w ->
  exists nb, dict_get (adj g) u = Some nb /\ dict_get nb v = Some w.
Proof.
  unfold adj_get. destruct (dict_get (adj g) u) as [nb|]; [eauto|discriminate].
Qed.

Lemma adj_get_update a u nb' x y :
  adj_get (mkGraph (dict_set a u nb')) x y =
  if String.eqb u x then dict_get nb' y else adj_get (mkGraph a) x y.
Proof.
  unfold adj_get; simpl. rewrite dict_get_set.
  now destruct (String.eqb u x).
Qed.

Lemma unique_keys_update a u nb' :
  unique_keys a -> NoDup (dict_keys nb') -> unique_keys (dict_set a u nb').
Proof.
  intros [Hk Hin] Hnb. split.
  - now apply dict_keys_set_NoDup.
  - intros x nb. rewrite dict_get_set.
    destruct (String.eqb u x); [intros [= <-]; assumption|apply Hin].
Qed.

Lemma adj_get_add_node g n u v : adj_get (add_node g n) u v = adj_get g u v.
Proof.
  unfold adj_get, add_node; simpl. rewrite dict_get_setdefault.
  destruct (dict_get (adj g) u); auto.
  now destruct (String.eqb n u).
Qed.

Lemma unique_keys_add_node g n :
  unique_keys (adj g) -> unique_keys (adj (add_node g n)).
Proof.
  intros [Hk Hin]. split; simpl.
  - now apply dict_keys_setdefault_NoDup.
  - intros x nb. rewrite dict_get_setdefault.
    destruct (dict_get (adj g) x) eqn:E.
    + intros [= <-]. eauto.
    + destruct (String.eqb n x); [intros [= <-]; constructor|discriminate].
Qed.

Lemma add_node_In g n : In n (nodes (add_node g n)).
Proof.
  unfold nodes, add_node; simpl.
  destruct (dict_get (dict_setdefault (adj g) n []) n) as [nb|] eqn:E.
  - eapply dict_get_Some_key; eauto.
  - rewrite dict_get_setdefault in E.
    destruct (dict_get (adj g) n); [discriminate|].
    now rewrite String.eqb_refl in E.
Qed.

Lemma add_node_keeps g n x : In x (nodes g) -> In x (nodes (add_node g n)).
Proof.
  unfold nodes, add_node; simpl. intros H.
  apply dict_key_get in H as [nb H].
  eapply dict_get_Some_key. rewrite dict_get_setdefault, H. reflexivity.
Qed.

Lemma set_weight_spec a u v w :
  In u (dict_keys a) ->
  exists a', set_weight a u v w = Ok a' /\
    dict_keys a' = dict_keys a /\
    (unique_keys a -> unique_keys a') /\
    forall x y, adj_get (mkGraph a') x y =
                if String.eqb u x && String.eqb v y then Some w
                else adj_get (mkGraph a) x y.
Proof.
  intros Hu. destruct (dict_key_get _ _ Hu) as [nb Hnb].
  unfold set_weight, dict_lookup. rewrite Hnb. simpl.
  eexists; split; [reflexivity|]. split; [|split].
  - now apply dict_keys_set_mem.
  - intros Huk. apply unique_keys_update; auto.
    apply dict_keys_set_NoDup. destruct Huk as [_ H]. eauto.
  - intros x y. rewrite adj_get_update.
    destruct (String.eqb_spec u x) as [<-|Hne]; simpl; auto.
    rewrite dict_get_set. unfold adj_get; simpl. rewrite Hnb.
    reflexivity.
Qed.

Lemma add_link_spec g u v w :
  exists g', add_link g u v w = Ok g' /\
    (unique_keys (adj g) -> unique_keys (adj g')) /\
    forall x y, adj_get g' x y =
                if String.eqb v x && String.eqb u y then Some w
                else if String.eqb u x && String.eqb v y then Some w
                else adj_get g x y.
Proof.
  unfold add_link.
  destruct (set_weight_spec (adj (add_node (add_node g u) v)) u v w)
    as (a1 & E1 & K1 & U1 & G1).
  { apply add_node_keeps, add_node_In. }
  destruct (set_weight_spec a1 v u w) as (a2 & E2 & K2 & U2 & G2).
  { rewrite K1. apply add_node_In. }
  rewrite E1; simpl. rewrite E2; simpl.
  eexists; split; [reflexivity|]. split.
  - intros H. simpl. apply U2, U1. now do 2 apply unique_keys_add_node.
  - intros x y. rewrite G2, G1.
    change (mkGraph (adj (add_node (add_node g u) v)))
      with (add_node (add_node g u) v).
    now rewrite !adj_get_add_node.
Qed.

Lemma pop_weight_spec a u v :
  dict_keys (pop_weight a u v) = dict_keys a /\
  (unique_keys a -> unique_keys (pop_weight a u v)) /\
  forall x y, adj_get (mkGraph (pop_weight a u v)) x y =
              if String.eqb u x && String.eqb v y then None
              else adj_get (mkGraph a) x y.
Proof.
  unfold pop_weight. destruct (dict_get a u) as [nb|] eqn:E.
  - split; [|split].
    + apply dict_keys_set_mem. eapply dict_get_Some_key; eauto.
    + intros Huk. apply unique_keys_update; auto.
      apply dict_keys_pop_NoDup. destruct Huk as [_ H]. eauto.
    + intros x y. rewrite adj_get_update.
      destruct (String.eqb_spec u x) as [<-|Hne]; simpl; auto.
      rewrite dict_get_pop. unfold adj_get; simpl. rewrite E.
      reflexivity.
  - split; [reflexivity|]. split; [auto|].
    intros x y. destruct (String.eqb_spec u x) as [<-|Hne]; simpl; auto.
    destruct (String.eqb v y); auto.
    unfold adj_get; simpl. now rewrite E.
Qed.

Lemma remove_link_spec g u v x y :
  adj_get (remove_link g u v) x y =
  if String.eqb v x && String.eqb u y then None
  else if String.eqb u x && String.eqb v y then None
  else adj_get g x y.
Proof.
  unfold remove_link.
  destruct (pop_weight_spec (pop_weight (adj g) u v) v u) as (_ & _ & G2).
  destruct (pop_weight_spec (adj g) u v) as (_ & _ & G1).
  rewrite G2, G1. destruct g; reflexivity.
Qed.

Lemma remove_link_unique_keys g u v :
  unique_keys (adj g) -> unique_keys (adj (remove_link g u v)).
Proof.
  intros H. unfold remove_link; simpl.
  now apply pop_weight_spec, pop_weight_spec.
Qed.

Lemma remove_link_nodes g u v : nodes (remove_link g u v) = nodes g.
Proof.
  unfold nodes, remove_link; simpl.
  destruct (pop_weight_spec (pop_weight (adj g) u v) v u) as (K2 & _).
  destruct (pop_weight_spec (adj g) u v) as (K1 & _).
  now rewrite K2, K1.
Qed.

Lemma del_weight_spec a nbr n w :
  adj_get (mkGraph a) nbr n = Some w ->
  exists a', del_weight a nbr n = Ok a' /\
    dict_keys a' = dict_keys a /\
    (unique_keys a -> unique_keys a') /\
    forall x y, adj_get (mkGraph a') x y =
                if String.eqb nbr x && String.eqb n y then None
                else adj_get (mkGraph a) x y.
Proof.
  intros H. apply adj_get_Some_inv in H as (nb & Hnb & Hw). simpl in Hnb.
  unfold del_weight, dict_lookup, dict_del, dict_mem. rewrite Hnb; simpl.
  rewrite Hw; simpl. eexists; split; [reflexivity|]. split; [|split].
  - apply dict_keys_set_mem. eapply dict_get_Some_key; eauto.
  - intros Huk. apply unique_keys_update; auto.
    apply dict_keys_pop_NoDup. destruct Huk as [_ Hin]. eauto.
  - intros x y. rewrite adj_get_update.
    destruct (String.eqb_spec nbr x) as [<-|Hne]; simpl; auto.
    rewrite dict_get_pop. unfold adj_get; simpl. now rewrite Hnb.
Qed.

Lemma remove_node_loop_spec n nbrs : forall a,
  NoDup nbrs ->
  (forall x, In x nbrs -> exists w, adj_get (mkGraph a) x n = Some w) ->
  exists a', remove_node_loop a n nbrs = Ok a' /\
    dict_keys a' = dict_keys a /\
    (unique_keys a -> unique_keys a') /\
    (forall x, In x nbrs -> adj_get (mkGraph a') x n = None) /\
    (forall x y, ~ (In x nbrs /\ y = n) ->
                 adj_get (mkGraph a') x y = adj_get (mkGraph a) x y).
Proof.
  induction nbrs as [|nbr rest IH]; intros a Hnd Hall; simpl.
  - exists a. split; [reflexivity|]. split; [reflexivity|].
    split; [auto|]. split; [intros x []|auto].
  - inversion Hnd as [|? ? Hni Hnd']; subst.
    destruct (Hall nbr (or_introl eq_refl)) as [w Hw].
    destruct (del_weight_spec a nbr n w Hw) as (a1 & E1 & K1 & U1 & G1).
    rewrite E1; simpl.
    destruct (IH a1 Hnd') as (a2 & E2 & K2 & U2 & N2 & G2).
    { intros x Hx. destruct (Hall x (or_intror Hx)) as [wx Hwx].
      exists wx. rewrite G1.
      destruct (String.eqb_spec nbr x) as [->|_]; [contradiction|exact Hwx]. }
    exists a2. split; [exact E2|]. split; [congruence|]. split; [auto|]. split.
    + intros x [<-|Hx]; [|auto].
      rewrite G2 by tauto. rewrite G1. now rewrite !String.eqb_refl.
    + intros x y Hxy. rewrite G2 by tauto. rewrite G1.
      destruct (String.eqb_spec nbr x) as [->|_]; simpl; auto.
      destruct (String.eqb_spec n y) as [->|_]; auto.
      exfalso. apply Hxy. split; [now left|reflexivity].
Qed.

Lemma remove_node_spec g n :
  well_formed g ->
  exists g', remove_node g n = Ok g' /\
    well_formed g' /\
    ~ In n (nodes g') /\
    (forall x, In x (nodes g') <-> In x (nodes g) /\ x <> n) /\
    (forall x y, x = n \/ y = n -> adj_get g' x y = None) /\
    (forall x y, x <> n -> y <> n -> adj_get g' x y = adj_get g x y).
Proof.
  intros [Huk Hsym]. unfold remove_node.
  destruct (dict_get (adj g) n) as [nb|] eqn:En.
  - destruct (remove_node_loop_spec n (dict_keys nb) (adj g))
      as (a1 & E1 & K1 & U1 & N1 & G1).
    { destruct Huk as [_ H]. eauto. }
    { intros x Hx. apply dict_key_get in Hx as [w Hw]. exists w.
      destruct g as [a]. apply Hsym. unfold adj_get. now rewrite En. }
    rewrite E1; simpl.
    assert (Hn1 : In n (dict_keys a1)).
    { rewrite K1. eapply dict_get_Some_key; eauto. }
    unfold dict_del. apply dict_mem_true in Hn1. rewrite Hn1. simpl.
    assert (Hget : forall x y, adj_get (mkGraph (dict_pop a1 n)) x y =
                     if String.eqb n x then None else adj_get (mkGraph a1) x y).
    { intros x y. unfold adj_get; simpl. rewrite dict_get_pop.
      now destruct (String.eqb n x). }
    assert (Hcol : forall x, adj_get (mkGraph a1) x n = None).
    { intros x. destruct (in_dec string_dec x (dict_keys nb)) as [Hx|Hx]; auto.
      rewrite G1 by tauto.
      destruct (adj_get (mkGraph (adj g)) x n) as [w|] eqn:E; auto.
      exfalso. apply Hx. destruct g as [a]. apply Hsym in E.
      apply adj_get_Some_inv in E as (nb' & E' & Ew). simpl in *.
      rewrite En in E'. injection E' as <-.
      eapply dict_get_Some_key; eauto. }
    assert (Hkeep : forall x y, x <> n -> y <> n ->
               adj_get (mkGraph (dict_pop a1 n)) x y = adj_get g x y).
    { intros x y Hx Hy. rewrite Hget.
      destruct (String.eqb_spec n x) as [->|_]; [contradiction|].
      rewrite G1; [now destruct g|]. intros [_ ->]. contradiction. }
    assert (Hgone : forall x y, x = n \/ y = n ->
               adj_get (mkGraph (dict_pop a1 n)) x y = None).
    { intros x y Hxy. rewrite Hget.
      destruct (String.eqb_spec n x) as [->|Hne]; auto.
      destruct Hxy as [->| ->]; [contradiction|apply Hcol]. }
    eexists; split; [reflexivity|].
    split; [split; [split|]|split; [|split; [|split]]].
    + simpl. apply dict_keys_pop_NoDup. destruct (U1 Huk) as [H _]. exact H.
    + simpl. intros x nbx. rewrite dict_get_pop.
      destruct (String.eqb n x); [discriminate|]. apply (U1 Huk).
    + intros x y w Hxy.
      destruct (string_dec x n) as [->|Hx].
      { rewrite Hgone in Hxy by auto. discriminate. }
      destruct (string_dec y n) as [->|Hy].
      { rewrite Hgone in Hxy by auto. discriminate. }
      rewrite Hkeep in * by auto. auto.
    + unfold nodes; simpl. rewrite dict_keys_pop_In. tauto.
    + intros x. unfold nodes; simpl. rewrite dict_keys_pop_In, K1. tauto.
    + exact Hgone.
    + exact Hkeep.
  - assert (Hn : ~ In n (nodes g)) by now apply dict_get_None.
    exists g. split; [reflexivity|].
    split; [split; assumption|split; [|split; [|split]]]; auto.
    + intros x. split; [|tauto]. intros Hx. split; auto.
      intros ->. contradiction.
    + intros x y [->| ->].
      * unfold adj_get. now rewrite En.
      * destruct (adj_get g x n) as [w|] eqn:E; auto.
        apply Hsym in E. unfold adj_get in E. rewrite En in E. discriminate.
Qed.

Lemma add_node_well_formed g n : well_formed g -> well_formed (add_node g n).
Proof.
  intros [Huk Hsym]. split.
  - now apply unique_keys_add_node.
  - intros u v w. rewrite !adj_get_add_node. apply Hsym.
Qed.

Lemma add_link_well_formed g u v w :
  well_formed g -> exists g', add_link g u v w = Ok g' /\ well_formed g'.
Proof.
  intros [Huk Hsym].
  destruct (add_link_spec g u v w) as (g' & E & U & G).
  exists g'. split; [exact E|]. split; [auto|].
  intros x y z. rewrite !G.
  destruct (String.eqb_spec v x); destruct (String.eqb_spec u y);
    destruct (String.eqb_spec u x); destruct (String.eqb_spec v y);
    subst; simpl; auto; try congruence;
    repeat match goal with
      | |- context [String.eqb ?a ?b] =>
          destruct (String.eqb_spec a b); try congruence; simpl
      end; auto; congruence.
Qed.

Lemma remove_link_well_formed g u v :
  well_formed g -> well_formed (remove_link g u v).
Proof.
  intros [Huk Hsym]. split.
  - now apply remove_link_unique_keys.
  - intros x y z. rewrite !remove_link_spec.
    destruct (String.eqb_spec v x); destruct (String.eqb_spec u y);
    destruct (String.eqb_spec u x); destruct (String.eqb_spec v y);
    subst; simpl; auto; try congruence;
    repeat match goal with
      | |- context [String.eqb ?a ?b] =>
          destruct (String.eqb_spec a b); try congruence; simpl
      end; auto; congruence.
Qed.

Lemma empty_graph_well_formed : well_formed empty_graph.
Proof.
  split; [split|].
  - constructor.
  - intros u nb. discriminate.
  - intros u v w. discriminate.
Qed.

Lemma apply_op_well_formed g o :
  well_formed g -> exists g', apply_op g o = Ok g' /\ well_formed g'.
Proof.
  intros H. destruct o as [n|n|u v w|u v]; simpl.
  - eexists; split; [reflexivity|]. now apply add_node_well_formed.
  - destruct (remove_node_spec g n H) as (g' & E & W & _). eauto.
  - now apply add_link_well_formed.
  - eexists; split; [reflexivity|]. now apply remove_link_well_formed.
Qed.

Lemma run_ops_well_formed ops : forall g,
  well_formed g -> exists g', run_ops g ops = Ok g' /\ well_formed g'.
Proof.
  induction ops as [|o rest IH]; intros g H; simpl.
  - eauto.
  - destruct (apply_op_well_formed g o H) as (g1 & E1 & W1).
    rewrite E1; simpl. auto.
Qed.

(** C6: starting from [Graph()], every sequence of [add_node],
    [remove_node], [add_link] and [remove_link] calls runs without an
    exception and leaves the adjacency symmetric ([adj[u][v] = w] gives
    [adj[v][u] = w]); and a further [remove_node(n)] returns a graph in which
    [n] is not in [nodes()] and no neighbor table has the key [n]. *)
Theorem topology_symmetric_and_clean_removal :
  forall ops : list topo_op,
  exists g,
    run_ops empty_graph ops = Ok g /\
    symmetric g /\
    forall n, exists g',
      remove_node g n = Ok g' /\
      symmetric g' /\
      ~ In n (nodes g') /\
      forall m, ~ In n (dict_keys (neighbors g' m)).
Proof.
  intros ops.
  destruct (run_ops_well_formed ops empty_graph empty_graph_well_formed)
    as (g & E & W).
  exists g. split; [exact E|]. split; [apply W|].
  intros n. destruct (remove_node_spec g n W) as (g' & E' & W' & Hn & _ & Hgone & _).
  exists g'. split; [exact E'|]. split; [apply W'|]. split; [exact Hn|].
  intros m. apply dict_get_None.
  specialize (Hgone m n (or_intror eq_refl)).
  unfold adj_get in Hgone. unfold neighbors, dict_get_default.
  destruct (dict_get (adj g') m); [exact Hgone|reflexivity].
Qed.

(** ** The priority queue *)

Lemma item_eqb_eq a b : item_eqb a b = true <-> a = b.
Proof.
  destruct a as [d u], b as [d' u']. unfold item_eqb; simpl.
  rewrite andb_true_iff, Z.eqb_eq, String.eqb_eq.
  split; [intros [-> ->]; reflexivity|intros [= -> ->]; auto].
Qed.

Lemma least_In l : forall x, In (least x l) (x :: l).
Proof.
  induction l as [|y l IH]; intros x; simpl.
  - now left.
  - specialize (IH (if item_lt y x then y else x)).
    destruct IH as [H|H]; [|now right; right].
    rewrite <- H. destruct (item_lt y x); [right; now left|now left].
Qed.

Lemma item_lt_fst y x : item_lt y x = true -> fst y <= fst x.
Proof.
  unfold item_lt. rewrite orb_true_iff, andb_true_iff, Z.ltb_lt, Z.eqb_eq.
  intros [H|[H _]]; lia.
Qed.

Lemma least_le l : forall x y, In y (x :: l) -> fst (least x l) <= fst y.
Proof.
  induction l as [|z l IH]; intros x y Hy; simpl.
  - destruct Hy as [<-|[]]. lia.
  - destruct (item_lt z x) eqn:E.
    + apply item_lt_fst in E.
      destruct Hy as [<-|[<-|Hy]].
      * etransitivity; [apply (IH z z); now left|exact E].
      * apply IH; now left.
      * apply IH; now right.
    + destruct Hy as [<-|[<-|Hy]].
      * apply IH; now left.
      * assert (fst x <= fst z).
        { unfold item_lt in E. apply orb_false_iff in E as [E1 E2].
          apply Z.ltb_ge in E1. exact E1. }
        etransitivity; [apply (IH x x); now left|assumption].
      * apply IH; now right.
Qed.

Lemma remove_one_spec m l :
  NoDup l -> In m l ->
  NoDup (remove_one m l) /\ ~ In m (remove_one m l) /\
  (forall x, In x l <-> x = m \/ In x (remove_one m l)) /\
  List.length l = S (List.length (remove_one m l)).
Proof.
  induction l as [|y l IH]; simpl; [tauto|].
  intros Hnd Hin. inversion Hnd as [|? ? Hni Hnd']; subst.
  destruct (item_eqb y m) eqn:E.
  - apply item_eqb_eq in E. subst y.
    repeat split; auto; intros; intuition congruence.
  - assert (Hne : y <> m).
    { intros ->. assert (item_eqb m m = true) by now apply item_eqb_eq.
      congruence. }
    destruct Hin as [Hin|Hin]; [contradiction|].
    destruct (IH Hnd' Hin) as (N & M & I & L).
    split; [|split; [|split]].
    + constructor; auto. intros Hy. apply Hni. apply I. now right.
    + simpl. intros [H|H]; auto.
    + intros x. simpl. rewrite I. intuition congruence.
    + simpl. now rewrite L.
Qed.

Lemma heappop_None pq : heappop pq = None -> pq = [].
Proof. destruct pq; [reflexivity|discriminate]. Qed.

Lemma heappop_Some pq d u pq' :
  NoDup pq -> heappop pq = Some ((d, u), pq') ->
  In (d, u) pq /\ NoDup pq' /\ ~ In (d, u) pq' /\
  (forall x, In x pq <-> x = (d, u) \/ In x pq') /\
  (forall d' v, In (d', v) pq -> d <= d') /\
  List.length pq = S (List.length pq').
Proof.
  intros Hnd H. destruct pq as [|x l]; [discriminate|].
  unfold heappop in H. cbv zeta in H.
  assert (Hm : least x l = (d, u)) by congruence.
  rewrite Hm in H.
  assert (Hr : remove_one (d, u) (x :: l) = pq') by congruence.
  pose proof (least_In l x) as Hin. rewrite Hm in Hin.
  destruct (remove_one_spec (d, u) (x :: l) Hnd Hin) as (N & M & I & L).
  rewrite Hr in N, M, I, L. repeat split; auto; try apply I.
  intros d' v Hv. pose proof (least_le l x (d', v) Hv) as Hle.
  rewrite Hm in Hle. exact Hle.
Qed.

(** ** Predecessor chains and paths *)

Lemma chain_head g prev v l c : chain g prev v l c -> exists t, l = v :: t.
Proof. intros H. inversion H; subst; eauto. Qed.

Lemma chain_ext g prev prev' v l c :
  chain g prev v l c ->
  (forall x, In x l -> dict_get prev' x = dict_get prev x) ->
  chain g prev' v l c.
Proof.
  induction 1 as [s Hs|v u w l c Hv Hw Hc IH]; intros Heq.
  - apply chain_root. rewrite Heq; [assumption|now left].
  - apply chain_step with (u := u); auto.
    + rewrite Heq; [assumption|now left].
    + apply IH. intros x Hx. apply Heq. now right.
Qed.

Lemma walk_prev_chain g prev v l c :
  chain g prev v l c ->
  forall fuel acc, (List.length l <= fuel)%nat ->
    walk_prev fuel prev (Some v) acc = Ok (acc ++ l).
Proof.
  induction 1 as [s Hs|v u w l c Hv Hw Hc IH]; intros fuel acc Hf; simpl in Hf.
  - destruct fuel as [|fuel]; [lia|]. simpl.
    unfold dict_lookup. rewrite Hs. simpl. now destruct fuel.
  - destruct fuel as [|fuel]; [lia|]. simpl.
    unfold dict_lookup. rewrite Hv. simpl.
    rewrite IH by lia. now rewrite <- app_assoc.
Qed.

Lemma path_weight_snoc g p : forall u v w c,
  last p u = u -> p <> [] ->
  path_weight g p = Some c -> adj_get g u v = Some w ->
  path_weight g (p ++ [v]) = Some (c + w).
Proof.
  induction p as [|a [|b p'] IH]; intros u v w c Hl Hne Hp Hw.
  - contradiction.
  - simpl in *. subst a. rewrite Hw. injection Hp as <-. f_equal. lia.
  - change ((a :: b :: p') ++ [v]) with (a :: (b :: p') ++ [v]).
    change (path_weight g (a :: (b :: p') ++ [v]))
      with (match adj_get g a b, path_weight g ((b :: p') ++ [v]) with
            | Some w0, Some c0 => Some (w0 + c0)
            | _, _ => None
            end).
    change (path_weight g (a :: b :: p'))
      with (match adj_get g a b, path_weight g (b :: p') with
            | Some w0, Some c0 => Some (w0 + c0)
            | _, _ => None
            end) in Hp.
    destruct (adj_get g a b) as [w0|]; [|discriminate].
    destruct (path_weight g (b :: p')) as [c0|] eqn:E; [|discriminate].
    injection Hp as <-.
    rewrite (IH u v w c0); auto; [f_equal; lia|discriminate].
Qed.

Lemma last_default {A} (l : list A) (a b : A) :
  l <> [] -> last l a = last l b.
Proof.
  induction l as [|x [|y l'] IH]; intros H; [contradiction|reflexivity|].
  change (last (y :: l') a = last (y :: l') b). apply IH. discriminate.
Qed.

Lemma chain_path g prev v l c :
  chain g prev v l c ->
  path_weight g (rev l) = Some c /\
  last (rev l) v = v /\
  hd_error (rev l) = Some (last l v).
Proof.
  induction 1 as [s Hs|v u w l c Hv Hw Hc IH].
  - simpl. auto.
  - destruct IH as (Hp & Hl & Hh).
    destruct (chain_head _ _ _ _ _ Hc) as [t ->].
    assert (Hne : rev (u :: t) <> []).
    { simpl. intros E. now destruct (rev t). }
    split; [|split].
    + change (rev (v :: u :: t)) with (rev (u :: t) ++ [v]).
      apply path_weight_snoc with (u := u); auto.
    + change (rev (v :: u :: t)) with (rev (u :: t) ++ [v]).
      now rewrite last_last.
    + change (rev (v :: u :: t)) with (rev (u :: t) ++ [v]).
      change (last (v :: u :: t) v) with (last (u :: t) v).
      rewrite (last_default (u :: t) v u) by discriminate.
      destruct (rev (u :: t)) eqn:E; [contradiction|].
      exact Hh.
Qed.

(** ** The Dijkstra loop keeps its invariant *)

Section ShortestPaths.
Variable g : Graph.
Variable src : node.
Hypothesis Hwf : well_formed g.
Hypothesis Hnn : nonneg_weights g.
Hypothesis Hsrc : In src (nodes g).

Lemma neighbors_adj u v w :
  In (v, w) (neighbors g u) -> adj_get g u v = Some w.
Proof.
  unfold neighbors, dict_get_default, adj_get.
  destruct (dict_get (adj g) u) as [nb|] eqn:E; [|intros []].
  intros H. apply In_dict_get; auto.
  destruct Hwf as [[_ Hin] _]. eauto.
Qed.

Lemma adj_neighbors u v w :
  adj_get g u v = Some w -> In (v, w) (neighbors g u).
Proof.
  unfold neighbors, dict_get_default, adj_get.
  destruct (dict_get (adj g) u) as [nb|]; [|discriminate].
  apply dict_get_In.
Qed.

Lemma adj_node_l u v w : adj_get g u v = Some w -> In u (nodes g).
Proof.
  intros H. apply adj_get_Some_inv in H as (nb & H & _).
  eapply dict_get_Some_key; eauto.
Qed.

Lemma adj_node_r u v w : adj_get g u v = Some w -> In v (nodes g).
Proof. intros H. apply Hwf in H. eapply adj_node_l; eauto. Qed.

Lemma relax_step_keep st done u d v w rest dv0 :
  sp_inv g src st done u ((v, w) :: rest) ->
  expanding st done u d ->
  dict_get (sp_dist st) v = Some (Fin dv0) -> dv0 <= d + w ->
  sp_inv g src st done u rest.
Proof.
  intros [K1 K2 S0 NN ND PQ DN RX PD CH] [Ec Ed El] Hv Hle.
  split; auto.
  intros u' v' w' Hu' Hin'.
  destruct (RX u' v' w' Hu' Hin') as [[-> [Heq|Hin]]|H]; auto.
  injection Heq as <- <-. right. exists d, dv0. auto.
Qed.

Lemma relax_step_update st done u d v w rest dv :
  sp_inv g src st done u ((v, w) :: rest) ->
  expanding st done u d ->
  In (v, w) (neighbors g u) ->
  dict_get (sp_dist st) v = Some dv -> int_lt (d + w) dv = true ->
  let st1 := mkSp (dict_set (sp_dist st) v (Fin (d + w)))
                  (dict_set (sp_prev st) v (Some u))
                  (heappush (sp_pq st) (d + w, v)) in
  sp_inv g src st1 done u rest /\ expanding st1 done u d.
Proof.
  intros [K1 K2 S0 NN ND PQ DN RX PD CH] [Ec Ed El] Hvw Hv Hlt st1.
  pose proof (neighbors_adj _ _ _ Hvw) as Hadj.
  pose proof (Hnn _ _ _ Hadj) as Hw0.
  pose proof (adj_node_r _ _ _ Hadj) as Hvn.
  pose proof (NN _ _ Ed) as Hd0.
  assert (Hlt' : forall z, dv = Fin z -> d + w < z).
  { intros z ->. simpl in Hlt. now apply Z.ltb_lt in Hlt. }
  assert (Hvd : ~ In v done).
  { intros Hin. destruct (El v Hin) as (dv' & Hdv' & Hle).
    rewrite Hv in Hdv'. injection Hdv' as ->.
    specialize (Hlt' _ eq_refl). lia. }
  assert (Hvu : v <> u) by (intros ->; contradiction).
  assert (Hne : forall y, In y done -> v <> y) by (intros y Hy ->; contradiction).
  split; [split|split]; simpl.
  - rewrite dict_keys_set_mem; [exact K1|now rewrite K1].
  - rewrite dict_keys_set_mem; [exact K2|now rewrite K2].
  - rewrite dict_get_set. destruct (String.eqb_spec v src) as [->|_]; auto.
    rewrite S0 in Hv. injection Hv as <-.
    specialize (Hlt' _ eq_refl). lia.
  - intros x dx. rewrite dict_get_set.
    destruct (String.eqb v x); [intros [= <-]; lia|apply NN].
  - unfold heappush. constructor; auto.
    intros Hin. destruct (PQ _ _ Hin) as (dv0 & Hdv0 & Hle).
    rewrite Hv in Hdv0. injection Hdv0 as ->.
    specialize (Hlt' _ eq_refl). lia.
  - intros d' x [Heq|Hin].
    + injection Heq as <- <-. exists (d + w).
      rewrite dict_get_set_eq. split; [reflexivity|lia].
    + destruct (PQ _ _ Hin) as (dvx & Hdvx & Hle).
      rewrite dict_get_set. destruct (String.eqb_spec v x) as [<-|_].
      * exists (d + w). split; auto.
        rewrite Hv in Hdvx. injection Hdvx as ->.
        specialize (Hlt' _ eq_refl). lia.
      * exists dvx. auto.
  - intros u' Hu'. destruct (DN u' Hu') as (du & Hdu & Hall).
    exists du. split.
    + rewrite dict_get_set_neq; auto.
    + intros d' x [Heq|Hin]; [|auto].
      injection Heq as <- <-.
      destruct (El u' Hu') as (du' & Hdu' & Hle).
      rewrite Hdu in Hdu'. injection Hdu' as <-.
      split; [lia|]. intros ->. contradiction.
  - intros u' v' w' Hu' Hin'.
    destruct (RX u' v' w' Hu' Hin') as [[-> [Heq|Hin]]|(du & dv' & Hdu & Hdv' & Hle)].
    + injection Heq as <- <-. right. exists d, (d + w).
      rewrite dict_get_set_neq by auto. rewrite dict_get_set_eq.
      repeat split; auto. lia.
    + left. auto.
    + right. rewrite (dict_get_set_neq _ v u') by auto.
      rewrite dict_get_set. destruct (String.eqb_spec v v') as [<-|_].
      * exists du, (d + w). repeat split; auto.
        rewrite Hv in Hdv'. injection Hdv' as ->.
        specialize (Hlt' _ eq_refl). lia.
      * exists du, dv'. auto.
  - intros x dx. rewrite dict_get_set.
    destruct (String.eqb_spec v x) as [<-|_].
    + intros [= <-]. right. now left.
    + intros H. destruct (PD _ _ H); [now left|right; now right].
  - intros x dx. rewrite dict_get_set.
    destruct (String.eqb_spec v x) as [<-|Hvx].
    + intros [= <-].
      destruct (CH _ _ Ed) as (l & Hc & Hnd & Hincl & Hlast).
      destruct (chain_head _ _ _ _ _ Hc) as [t ->]. simpl in Hincl.
      assert (Hin_l : forall y, In y (u :: t) -> v <> y).
      { intros y [<-|Hy]; auto. }
      exists (v :: u :: t). split; [|split; [|split]].
      * apply chain_step with (u := u); auto.
        -- apply dict_get_set_eq.
        -- eapply chain_ext; [exact Hc|].
           intros y Hy. apply dict_get_set_neq. auto.
      * constructor; auto. intros Hy. now apply (Hin_l v Hy).
      * simpl. intros y [<-|Hy]; auto.
      * change (last (v :: u :: t) v) with (last (u :: t) v).
        rewrite (last_default (u :: t) v u) by discriminate. exact Hlast.
    + intros H. destruct (CH _ _ H) as (l & Hc & Hnd & Hincl & Hlast).
      destruct (chain_head _ _ _ _ _ Hc) as [t ->]. simpl in Hincl.
      exists (x :: t). split; [|auto].
      eapply chain_ext; [exact Hc|].
      intros y [<-|Hy]; apply dict_get_set_neq; auto.
  - exact Ec.
  - rewrite dict_get_set_neq; auto.
  - intros u' Hu'. rewrite dict_get_set_neq; auto.
Qed.

Lemma relax_inv done u d : forall todo st,
  sp_inv g src st done u todo ->
  expanding st done u d ->
  (forall v w, In (v, w) todo -> In (v, w) (neighbors g u)) ->
  exists st', relax u d todo st = Ok st' /\
    sp_inv g src st' done u [] /\
    (List.length (sp_pq st') <= List.length (sp_pq st) + List.length todo)%nat.
Proof.
  induction todo as [|[v w] rest IH]; intros st Hinv Hexp Hsub.
  - exists st. split; [reflexivity|]. split; [exact Hinv|simpl; lia].
  - assert (Hvw := Hsub v w (or_introl eq_refl)).
    assert (Hvn : In v (dict_keys (sp_dist st))).
    { rewrite (inv_keys_dist _ _ _ _ _ _ Hinv).
      eapply adj_node_r, neighbors_adj; eauto. }
    destruct (dict_key_get _ _ Hvn) as [dv Hdv].
    cbn [relax]. unfold dict_lookup. rewrite Hdv. cbn [bind].
    destruct (int_lt (d + w) dv) eqn:Elt.
    + destruct (relax_step_update _ _ _ _ _ _ _ _ Hinv Hexp Hvw Hdv Elt)
        as [Hinv1 Hexp1].
      destruct (IH _ Hinv1 Hexp1) as (st' & E & I & L).
      { intros v' w' H. apply Hsub. now right. }
      exists st'. split; [exact E|]. split; [exact I|].
      simpl in L |- *. lia.
    + destruct dv as [dv0|]; [|discriminate]. simpl in Elt.
      apply Z.ltb_ge in Elt.
      pose proof (relax_step_keep _ _ _ _ _ _ _ _ Hinv Hexp Hdv Elt) as Hinv1.
      destruct (IH _ Hinv1 Hexp) as (st' & E & I & L).
      { intros v' w' H. apply Hsub. now right. }
      exists st'. split; [exact E|]. split; [exact I|].
      simpl. lia.
Qed.

Lemma mem_node_In x l : mem_node x l = true <-> In x l.
Proof.
  unfold mem_node. rewrite existsb_exists. split.
  - intros (y & Hy & E). apply String.eqb_eq in E. now subst.
  - intros H. exists x. split; auto. apply String.eqb_refl.
Qed.

Lemma remaining_mono (f : node -> nat) done u L :
  (list_sum (map (fun x => if mem_node x (u :: done) then O else f x) L)
   <= list_sum (map (fun x => if mem_node x done then O else f x) L))%nat.
Proof.
  unfold mem_node in *. induction L as [|a L IH]; simpl in *; [lia|].
  destruct (String.eqb a u); destruct (existsb (String.eqb a) done);
    simpl; lia.
Qed.

Lemma remaining_take (f : node -> nat) done u L :
  In u L -> ~ In u done ->
  (list_sum (map (fun x => if mem_node x (u :: done) then O else f x) L) + f u
   <= list_sum (map (fun x => if mem_node x done then O else f x) L))%nat.
Proof.
  intros Hin Hnd. induction L as [|a L IH]; [contradiction|].
  cbn [map list_sum]. change (mem_node a (u :: done))
    with (String.eqb a u || mem_node a done).
  destruct (String.eqb_spec a u) as [->|Hne]; cbn [orb].
  - destruct (mem_node u done) eqn:E; [apply mem_node_In in E; contradiction|].
    pose proof (remaining_mono f done u L).
    unfold list_sum in *. cbn [fold_right]. lia.
  - destruct Hin as [->|Hin]; [contradiction|].
    specialize (IH Hin). unfold list_sum in *. cbn [fold_right].
    destruct (mem_node a done); lia.
Qed.

Lemma remaining_cons done u :
  In u (nodes g) -> ~ In u done ->
  (remaining g (u :: done) + List.length (neighbors g u)
   <= remaining g done)%nat.
Proof.
  intros. unfold remaining.
  apply (remaining_take (fun x => List.length (neighbors g x))); auto.
Qed.

Lemma sp_inv_stale dist prev pq pq' done cur d u du :
  sp_inv g src (mkSp dist prev pq) done cur [] ->
  (forall x, In x pq <-> x = (d, u) \/ In x pq') ->
  NoDup pq' ->
  dict_get dist u = Some (Fin du) -> du < d ->
  sp_inv g src (mkSp dist prev pq') done cur [].
Proof.
  intros [K1 K2 S0 NN ND PQ DN RX PD CH] I Hnd Hu Hlt.
  simpl in *. split; simpl; auto.
  - intros d' v Hin. apply PQ, I. now right.
  - intros u' Hu'. destruct (DN u' Hu') as (du' & Hdu' & Hall).
    exists du'. split; auto. intros d' v Hin. apply Hall, I. now right.
  - intros v dv H. destruct (PD v dv H) as [Hd|Hin]; [now left|].
    apply I in Hin as [Heq|Hin]; [|now right].
    injection Heq as <- <-. rewrite Hu in H. injection H as <-. lia.
Qed.

Lemma sp_inv_expand dist prev pq pq' done cur d u :
  sp_inv g src (mkSp dist prev pq) done cur [] ->
  In (d, u) pq -> ~ In (d, u) pq' ->
  (forall x, In x pq <-> x = (d, u) \/ In x pq') ->
  (forall d' v, In (d', v) pq -> d <= d') ->
  NoDup pq' ->
  dict_get dist u = Some (Fin d) ->
  ~ In u done /\
  sp_inv g src (mkSp dist prev pq') (u :: done) u (neighbors g u) /\
  expanding (mkSp dist prev pq') (u :: done) u d.
Proof.
  intros [K1 K2 S0 NN ND PQ DN RX PD CH] Hin Hnin I Hmin Hnd Hu.
  simpl in *.
  assert (Hud : ~ In u done).
  { intros Hd. destruct (DN u Hd) as (du & Hdu & Hall).
    rewrite Hu in Hdu. injection Hdu as <-.
    destruct (Hall d u Hin) as [_ H]. specialize (H eq_refl). lia. }
  split; [exact Hud|]. split; split; simpl; auto.
  - intros d' v Hv. apply PQ, I. now right.
  - intros u' [<-|Hu'].
    + exists d. split; auto. intros d' v Hv.
      assert (Hv' : In (d', v) pq) by (apply I; now right).
      split; [eapply Hmin; eauto|].
      intros ->. pose proof (Hmin _ _ Hv').
      assert (d' <> d) by (intros ->; contradiction). lia.
    + destruct (DN u' Hu') as (du' & Hdu' & Hall).
      exists du'. split; auto. intros d' v Hv. apply Hall, I. now right.
  - intros u' v w [<-|Hu'] Hvw; [left; auto|].
    destruct (RX u' v w Hu' Hvw) as [[_ []]|H]. now right.
  - intros v dv H. destruct (PD v dv H) as [Hd|Hv]; [left; now right|].
    apply I in Hv as [Heq|Hv]; [|now right].
    injection Heq as <- <-. left. now left.
  - intros v dv H. destruct (CH v dv H) as (l & Hc & Hn & Hi & Hl).
    exists l. repeat split; auto. intros y Hy. right. auto.
  - intros u' [<-|Hu'].
    + exists d. split; auto. lia.
    + destruct (DN u' Hu') as (du' & Hdu' & Hall).
      exists du'. split; auto. apply (Hall d u Hin).
Qed.

Lemma sp_loop_inv : forall fuel st done cur,
  sp_inv g src st done cur [] ->
  (List.length (sp_pq st) + remaining g done < fuel)%nat ->
  exists dist prev done' cur',
    sp_loop fuel g st = Ok (dist, prev) /\
    sp_inv g src (mkSp dist prev []) done' cur' [].
Proof.
  induction fuel as [|fuel IH]; intros [dist prev pq] done cur Hinv Hfuel;
    [lia|].
  cbn [sp_loop sp_dist sp_prev sp_pq] in *.
  destruct (heappop pq) as [[[d u] pq']|] eqn:Epop.
  - destruct (heappop_Some _ _ _ _ (inv_pq_nodup _ _ _ _ _ _ Hinv) Epop)
      as (Hin & Hnd' & Hnin & I & Hmin & Hlen).
    cbn [sp_pq] in Hin, I, Hmin, Hlen.
    destruct (inv_pq _ _ _ _ _ _ Hinv d u Hin) as (du & Hdu & Hle).
    simpl in Hdu. unfold dict_lookup. rewrite Hdu. cbn [bind int_gt].
    destruct (du <? d) eqn:Elt.
    + apply Z.ltb_lt in Elt.
      apply (IH _ done cur).
      * eapply sp_inv_stale; eauto.
      * cbn [sp_pq]. lia.
    + apply Z.ltb_ge in Elt. assert (du = d) by lia. subst du.
      destruct (sp_inv_expand _ _ _ _ _ _ _ _ Hinv Hin Hnin I Hmin Hnd' Hdu)
        as (Hud & Hinv1 & Hexp1).
      destruct (relax_inv _ _ _ _ _ Hinv1 Hexp1) as (st' & E & Hinv' & L);
        [auto|].
      rewrite E. cbn [bind].
      apply (IH _ (u :: done) u); auto.
      assert (Hun : In u (nodes g)).
      { rewrite <- (inv_keys_dist _ _ _ _ _ _ Hinv).
        eapply dict_get_Some_key; eauto. }
      pose proof (remaining_cons done u Hun Hud). cbn [sp_pq] in L. lia.
  - apply heappop_None in Epop. subst pq.
    exists dist, prev, done, cur. auto.
Qed.

Lemma dict_keys_const {V} (x : V) (L : list node) :
  dict_keys (map (fun n => (n, x)) L) = L.
Proof.
  unfold dict_keys. rewrite map_map. simpl. apply map_id.
Qed.

Lemma dict_get_const {V} (x : V) (L : list node) k :
  dict_get (map (fun n => (n, x)) L) k = if mem_node k L then Some x else None.
Proof.
  induction L as [|a L IH]; simpl; auto.
  rewrite (String.eqb_sym k a). destruct (String.eqb a k); auto.
Qed.

Lemma init_inv :
  sp_inv g src (mkSp (init_dist g src) (init_prev g) [(0, src)]) [] src [].
Proof.
  assert (Hget : forall v dv, dict_get (init_dist g src) v = Some (Fin dv) ->
                              v = src /\ dv = 0).
  { intros v dv. unfold init_dist. rewrite dict_get_set.
    destruct (String.eqb_spec src v) as [->|_]; [intros [= <-]; auto|].
    rewrite dict_get_const. destruct (mem_node v (nodes g)); discriminate. }
  assert (Hs : dict_get (init_dist g src) src = Some (Fin 0)).
  { unfold init_dist. apply dict_get_set_eq. }
  split; simpl.
  - unfold init_dist. rewrite dict_keys_set_mem; rewrite dict_keys_const; auto.
  - apply dict_keys_const.
  - exact Hs.
  - intros v dv H. apply Hget in H as [_ ->]. lia.
  - repeat constructor. simpl. tauto.
  - intros d v [[= <- <-]|[]]. exists 0. split; [exact Hs|lia].
  - intros u [].
  - intros u v w [].
  - intros v dv H. apply Hget in H as [-> ->]. right. now left.
  - intros v dv H. apply Hget in H as [-> ->].
    exists [src]. split; [|split; [|split]].
    + apply chain_root. unfold init_prev. rewrite dict_get_const.
      apply mem_node_In in Hsrc. now rewrite Hsrc.
    + repeat constructor. simpl. tauto.
    + simpl. intros x [].
    + reflexivity.
Qed.

Lemma compute_shortest_paths_ok fuel :
  (fuel_bound g <= fuel)%nat ->
  exists dist prev,
    compute_shortest_paths fuel g src = Ok (dist, prev) /\
    sp_result g src dist prev.
Proof.
  intros Hfuel. unfold compute_shortest_paths.
  destruct (sp_loop_inv fuel _ [] src init_inv)
    as (dist & prev & done & cur & E & [K1 K2 S0 NN ND PQ DN RX PD CH]).
  { cbn [sp_pq]. unfold fuel_bound in Hfuel.
    change (remaining g []) with (degree_sum g). simpl. lia. }
  simpl in *. exists dist, prev. split; [exact E|].
  assert (Hdone : forall v dv, dict_get dist v = Some (Fin dv) -> In v done).
  { intros v dv H. destruct (PD v dv H) as [?|[]]. assumption. }
  assert (Hnodes : forall v, In v done -> In v (nodes g)).
  { intros v Hv. destruct (DN v Hv) as (dv & Hdv & _).
    rewrite <- K1. eapply dict_get_Some_key; eauto. }
  split; auto.
  - intros a b w da Hab Ha.
    destruct (RX a b w (Hdone _ _ Ha) (adj_neighbors _ _ _ Hab))
      as [[_ []]|(du & dv & Hu & Hv & Hle)].
    rewrite Ha in Hu. injection Hu as <-. eauto.
  - intros v dv H. destruct (CH v dv H) as (l & Hc & Hn & Hi & Hl).
    exists l. repeat split; auto.
    destruct (chain_head _ _ _ _ _ Hc) as [t ->]. simpl in Hi.
    intros y [<-|Hy]; [eapply Hnodes, Hdone; eauto|auto].
Qed.

End ShortestPaths.

(** ** The executable checks are sound *)

Lemma nodupb_sound l : nodupb l = true -> NoDup l.
Proof.
  induction l as [|x l IH]; simpl; [constructor|].
  rewrite andb_true_iff, negb_true_iff. intros [Hx Hl].
  constructor; auto. intros Hin. apply mem_node_In in Hin. congruence.
Qed.

Lemma well_formedb_sound g : well_formedb g = true -> well_formed g.
Proof.
  unfold well_formedb. rewrite andb_true_iff, forallb_forall.
  intros [Hk Hall]. split; [split|].
  - now apply nodupb_sound.
  - intros u nb Hu. apply dict_get_In in Hu. specialize (Hall _ Hu).
    simpl in Hall. apply andb_true_iff in Hall as [H _].
    now apply nodupb_sound.
  - intros u v w Huv.
    apply adj_get_Some_inv in Huv as (nb & Hu & Hv).
    apply dict_get_In in Hu, Hv. specialize (Hall _ Hu). simpl in Hall.
    apply andb_true_iff in Hall as [_ H]. rewrite forallb_forall in H.
    specialize (H _ Hv). simpl in H.
    destruct (adj_get g v u) as [w'|]; [|discriminate].
    apply Z.eqb_eq in H. now subst.
Qed.

Lemma nonneg_weightsb_sound g : nonneg_weightsb g = true -> nonneg_weights g.
Proof.
  unfold nonneg_weightsb. rewrite forallb_forall. intros Hall u v w Huv.
  apply adj_get_Some_inv in Huv as (nb & Hu & Hv).
  apply dict_get_In in Hu, Hv. specialize (Hall _ Hu). simpl in Hall.
  rewrite forallb_forall in Hall. specialize (Hall _ Hv). simpl in Hall.
  now apply Z.leb_le.
Qed.

(** ** Shortest distances *)

(** C7: on a well-formed topology with non-negative weights and with
    enough fuel, [compute_shortest_paths(s)] returns, and its distance map
    satisfies, for every link [(a, b)] of weight [w], both
    [dist[b] <= dist[a] + w] and [dist[a] <= dist[b] + w]. *)
Theorem shortest_paths_fixpoint :
  forall (g : Graph) (s : node) (fuel : nat),
    well_formed g -> nonneg_weights g -> In s (nodes g) ->
    (fuel_bound g <= fuel)%nat ->
    exists dist prev,
      compute_shortest_paths fuel g s = Ok (dist, prev) /\
      forall a b w, adj_get g a b = Some w ->
        exists da db,
          dict_get dist a = Some da /\ dict_get dist b = Some db /\
          dv_le db (dv_plus da w) /\ dv_le da (dv_plus db w).
Proof.
  intros g s fuel Hwf Hnn Hs Hfuel.
  destruct (compute_shortest_paths_ok g s Hwf Hnn Hs fuel Hfuel)
    as (dist & prev & E & [K S0 RX CH]).
  exists dist, prev. split; [exact E|].
  intros a b w Hab.
  assert (Hba : adj_get g b a = Some w) by now apply Hwf.
  destruct (dict_key_get dist a) as [da Ha].
  { rewrite K. eapply adj_node_l; eauto. }
  destruct (dict_key_get dist b) as [db Hb].
  { rewrite K. eapply adj_node_l; eauto. }
  exists da, db. split; [exact Ha|]. split; [exact Hb|].
  destruct da as [za|], db as [zb|]; simpl; auto.
  - destruct (RX _ _ _ _ Hab Ha) as (zb' & Hb' & Hle).
    destruct (RX _ _ _ _ Hba Hb) as (za' & Ha' & Hle').
    rewrite Hb in Hb'. rewrite Ha in Ha'.
    injection Hb' as <-. injection Ha' as <-. lia.
  - destruct (RX _ _ _ _ Hab Ha) as (zb' & Hb' & _). congruence.
  - destruct (RX _ _ _ _ Hba Hb) as (za' & Ha' & _). congruence.
Qed.

Lemma shortest_paths_fixpoint_witness :
  exists dist prev,
    compute_shortest_paths 16 switch_topo "S1" = Ok (dist, prev) /\
    forall a b w, adj_get switch_topo a b = Some w ->
      exists da db,
        dict_get dist a = Some da /\ dict_get dist b = Some db /\
        dv_le db (dv_plus da w) /\ dv_le da (dv_plus db w).
Proof.
  apply (shortest_paths_fixpoint switch_topo "S1" 16).
  - apply well_formedb_sound. reflexivity.
  - apply nonneg_weightsb_sound. reflexivity.
  - simpl. tauto.
  - vm_compute. lia.
Defined.

(** ** Path reconstruction *)

Lemma relaxed_path_bound g dist :
  (forall a b w da,
      adj_get g a b = Some w -> dict_get dist a = Some (Fin da) ->
      exists db, dict_get dist b = Some (Fin db) /\ db <= da + w) ->
  forall p a da c,
    hd_error p = Some a -> dict_get dist a = Some (Fin da) ->
    path_weight g p = Some c ->
    exists dz, dict_get dist (last p a) = Some (Fin dz) /\ dz <= da + c.
Proof.
  intros RX. induction p as [|x [|b p'] IH]; intros a da c Hh Ha Hp.
  - discriminate.
  - simpl in *. injection Hh as ->. injection Hp as <-.
    exists da. split; [assumption|lia].
  - injection Hh as ->.
    change (path_weight g (a :: b :: p'))
      with (match adj_get g a b, path_weight g (b :: p') with
            | Some w0, Some c0 => Some (w0 + c0)
            | _, _ => None
            end) in Hp.
    destruct (adj_get g a b) as [w|] eqn:Hab; [|discriminate].
    destruct (path_weight g (b :: p')) as [c'|] eqn:Hp'; [|discriminate].
    injection Hp as <-.
    destruct (RX _ _ _ _ Hab Ha) as (db & Hb & Hle).
    destruct (IH b db c' eq_refl Hb eq_refl) as (dz & Hz & Hle').
    change (last (a :: b :: p') a) with (last (b :: p') a).
    rewrite (last_default (b :: p') a b) by discriminate.
    exists dz. split; [assumption|lia].
Qed.

(** C4: on a well-formed topology with non-negative weights, for nodes
    [src] and [dst] and with enough fuel, [compute_path(src, dst)] returns.
    It returns the unreachable result exactly when [dist[dst]] is infinite;
    otherwise it returns a node sequence from [src] to [dst] whose
    consecutive pairs are links and whose link weights sum to [dist[dst]].
    [dist[dst]] is the shortest distance: no node sequence from [src] to
    [dst] along links weighs less. *)
Theorem compute_path_valid :
  forall (g : Graph) (src dst : node) (fuel : nat),
    well_formed g -> nonneg_weights g ->
    In src (nodes g) -> In dst (nodes g) ->
    (fuel_bound g <= fuel)%nat ->
    exists dist prev dd,
      compute_shortest_paths fuel g src = Ok (dist, prev) /\
      dict_get dist dst = Some dd /\
      (forall p c, connects src dst p -> path_weight g p = Some c ->
                   dv_le dd (Fin c)) /\
      (compute_path fuel g src dst = Ok None <-> dd = Inf) /\
      match dd with
      | Inf => compute_path fuel g src dst = Ok None
      | Fin d =>
          exists p, compute_path fuel g src dst = Ok (Some p) /\
                    connects src dst p /\ path_weight g p = Some d
      end.
Proof.
  intros g src dst fuel Hwf Hnn Hs Hd Hfuel.
  destruct (compute_shortest_paths_ok g src Hwf Hnn Hs fuel Hfuel)
    as (dist & prev & E & [K S0 RX CH]).
  destruct (dict_key_get dist dst) as [dd Hdd]; [now rewrite K|].
  exists dist, prev, dd. split; [exact E|]. split; [exact Hdd|].
  assert (Hcp : match dd with
                | Inf => compute_path fuel g src dst = Ok None
                | Fin d =>
                    exists p, compute_path fuel g src dst = Ok (Some p) /\
                              connects src dst p /\ path_weight g p = Some d
                end).
  { unfold compute_path. rewrite E. cbn [bind]. unfold dict_lookup.
    rewrite Hdd. cbn [bind]. destruct dd as [d|]; [|reflexivity].
    cbn [is_inf].
    destruct (CH dst d Hdd) as (l & Hc & Hnd & Hincl & Hlast).
    assert (Hlen : (List.length l <= fuel)%nat).
    { pose proof (NoDup_incl_length Hnd Hincl). unfold fuel_bound in Hfuel.
      lia. }
    rewrite (walk_prev_chain _ _ _ _ _ Hc fuel [] Hlen). cbn [bind app].
    destruct (chain_path _ _ _ _ _ Hc) as (Hp & Hl & Hh).
    exists (rev l). split; [reflexivity|]. split; [split|]; auto.
    - now rewrite Hh, Hlast.
    - rewrite (last_default (rev l) src dst); auto.
      destruct (chain_head _ _ _ _ _ Hc) as [t ->]. simpl.
      intros H. now destruct (rev t). }
  split; [|split; [|exact Hcp]].
  - intros p c [Hh Hl] Hp.
    destruct (relaxed_path_bound g dist RX p src 0 c Hh S0 Hp)
      as (dz & Hz & Hle).
    rewrite Hl, Hdd in Hz. injection Hz as ->. simpl. lia.
  - destruct dd as [d|].
    + destruct Hcp as (p & Ep & _). rewrite Ep.
      split; discriminate.
    + tauto.
Qed.

Lemma compute_path_valid_witness :
  exists dist prev dd,
    compute_shortest_paths 16 switch_topo "S1" = Ok (dist, prev) /\
    dict_get dist "S4" = Some dd /\
    (forall p c, connects "S1" "S4" p -> path_weight switch_topo p = Some c ->
                 dv_le dd (Fin c)) /\
    (compute_path 16 switch_topo "S1" "S4" = Ok None <-> dd = Inf) /\
    match dd with
    | Inf => compute_path 16 switch_topo "S1" "S4" = Ok None
    | Fin d =>
        exists p, compute_path 16 switch_topo "S1" "S4" = Ok (Some p) /\
                  connects "S1" "S4" p /\ path_weight switch_topo p = Some d
    end.
Proof.
  apply (compute_path_valid switch_topo "S1" "S4" 16).
  - apply well_formedb_sound. reflexivity.
  - apply nonneg_weightsb_sound. reflexivity.
  - simpl. tauto.
  - simpl. tauto.
  - vm_compute. lia.
Defined.

(** ** Equal-cost next hops *)

Lemma dv_add_plus x w :
  (x = Inf -> float_of_int_ok w = true) -> dv_add x w = Ok (dv_plus x w).
Proof.
  destruct x as [z|]; simpl; auto. intros H. now rewrite H.
Qed.

Lemma ecmp_loop_spec dst dist : forall nbrs acc,
  (forall v w, In (v, w) nbrs -> dict_get_default dist v Inf = Inf ->
               float_of_int_ok w = true) ->
  ecmp_loop nbrs dst dist acc
  = Ok (acc ++ map fst (filter (hop_ok dist dst) nbrs)).
Proof.
  induction nbrs as [|[v w] rest IH]; intros acc Hok; simpl.
  - now rewrite app_nil_r.
  - rewrite dv_add_plus by (apply Hok; now left). cbn [bind].
    unfold hop_ok at 1. simpl.
    destruct (dv_eqb _ _);
      rewrite IH
        by (intros v' w' ? ?; apply (Hok v' w'); [right; assumption|assumption]).
    + simpl. now rewrite <- app_assoc.
    + reflexivity.
Qed.

Lemma ecmp_spec g sw dst dist :
  (forall v w, In (v, w) (neighbors g sw) ->
               dict_get_default dist v Inf = Inf ->
               float_of_int_ok w = true) ->
  compute_equal_cost_next_hops g sw dst dist = Ok (ecmp_set g sw dst dist).
Proof.
  intros H. unfold compute_equal_cost_next_hops, ecmp_set.
  now rewrite ecmp_loop_spec.
Qed.

(** ** Priority and backup of one entry *)

Lemma set_priority_spec active dst : forall e,
  match_dst (set_priority active dst e) = match_dst e /\
  action (set_priority active dst e) = action e /\
  backup (set_priority active dst e) = backup e /\
  prio (set_priority active dst e)
  = if has_dst active dst then high else prio e.
Proof.
  induction active as [|[s d] rest IH]; intros e; [simpl; auto|].
  cbn [set_priority]. unfold has_dst in *. cbn [existsb snd].
  destruct (String.eqb d dst); cbn [orb].
  - destruct (IH (mkEntry (match_dst e) (action e) high (backup e)))
      as (H1 & H2 & H3 & H4).
    rewrite H1, H2, H3, H4. cbn [match_dst action prio backup].
    repeat split; auto.
    match goal with |- context [existsb ?f rest] => now destruct (existsb f rest) end.
  - apply IH.
Qed.

Lemma set_backup_spec active critical primaries : forall e,
  match_dst (set_backup active critical primaries e) = match_dst e /\
  action (set_backup active critical primaries e) = action e /\
  prio (set_backup active critical primaries e) = prio e /\
  backup (set_backup active critical primaries e)
  = if any_critical active critical && Nat.ltb 1 (List.length primaries)
    then Some (tl primaries) else backup e.
Proof.
  induction active as [|[s d] rest IH]; intros e; [simpl; auto|].
  cbn [set_backup]. unfold any_critical in *. cbn [existsb].
  destruct (flow_in (s, d) critical); cbn [orb andb]; [|apply IH].
  destruct (Nat.ltb 1 (List.length primaries)) eqn:E.
  2:{ specialize (IH e). rewrite andb_false_r in IH. exact IH. }
  destruct (IH (mkEntry (match_dst e) (action e) (prio e) (Some (tl primaries))))
    as (H1 & H2 & H3 & H4).
  rewrite H1, H2, H3, H4. cbn [match_dst action prio backup].
  repeat split; auto. rewrite andb_true_r.
  match goal with |- context [existsb ?f rest] => now destruct (existsb f rest) end.
Qed.

Lemma has_dst_true active dst :
  has_dst active dst = true <-> exists src, In (src, dst) active.
Proof.
  unfold has_dst. rewrite existsb_exists. split.
  - intros ([s d] & Hin & E). simpl in E. apply String.eqb_eq in E.
    subst. eauto.
  - intros (s & Hin). exists (s, dst). split; auto. apply String.eqb_refl.
Qed.

Lemma flow_in_true f critical : flow_in f critical = true <-> In f critical.
Proof.
  unfold flow_in. rewrite existsb_exists. split.
  - intros ([s d] & Hin & E). unfold flow_eqb in E. simpl in E.
    apply andb_true_iff in E as [E1 E2].
    apply String.eqb_eq in E1, E2. destruct f; simpl in *. now subst.
  - intros Hin. exists f. split; auto. unfold flow_eqb.
    now rewrite !String.eqb_refl.
Qed.

Lemma any_critical_true active critical :
  any_critical active critical = true <->
  exists f, In f active /\ In f critical.
Proof.
  unfold any_critical. rewrite existsb_exists.
  split; intros (f & H1 & H2); exists f; split; auto;
    now apply flow_in_true.
Qed.

(** ** install_flows builds the tables entry by entry *)

Section InstallFlows.
Context {rng : Type}.
Variable shuffle : rng -> list node -> list node * rng.
Hypothesis Hshuffle : is_shuffle shuffle.
Variable g : Graph.
Variables active critical : list flow.

Lemma install_dsts_spec sw dist :
  (forall v w, In (v, w) (neighbors g sw) ->
               dict_get_default dist v Inf = Inf ->
               float_of_int_ok w = true) ->
  forall dsts ft r tbl,
    (forall dst, In dst dsts -> In dst (dict_keys dist)) ->
    dict_get ft sw = Some tbl ->
    exists ft' r' new,
      install_dsts shuffle g active critical sw dist dsts ft r = Ok (ft', r') /\
      dict_keys ft' = dict_keys ft /\
      dict_get ft' sw = Some (tbl ++ new) /\
      (forall x, x <> sw -> dict_get ft' x = dict_get ft x) /\
      table_for g active critical sw dist dsts new.
Proof.
  intros Hflt. unfold table_for.
  induction dsts as [|dst rest IH]; intros ft r tbl Hkeys Hsw.
  - exists ft, r, []. simpl. rewrite app_nil_r. repeat split; auto.
  - cbn [install_dsts filter]. unfold wanted at 1.
    destruct (String.eqb dst sw) eqn:Esw; cbn [negb andb].
    { apply IH; auto. intros; apply Hkeys; now right. }
    destruct (dict_key_get dist dst (Hkeys dst (or_introl eq_refl)))
      as [dd Hdd].
    unfold dict_lookup at 1. unfold dict_get_default at 1.
    rewrite Hdd. cbn [bind].
    destruct (is_inf dd) eqn:Einf; cbn [negb].
    { apply IH; auto. intros; apply Hkeys; now right. }
    rewrite (ecmp_spec g sw dst dist Hflt). cbn [bind].
    pose proof (Hshuffle r (ecmp_set g sw dst dist)) as Hperm.
    destruct (shuffle r (ecmp_set g sw dst dist)) as [primaries r1].
    simpl in Hperm.
    unfold dict_lookup. rewrite Hsw. cbn [bind].
    set (e := set_backup active critical primaries
                (set_priority active dst (mkEntry dst primaries normal None))).
    destruct (IH (dict_set ft sw (tbl ++ [e])) r1 (tbl ++ [e]))
      as (ft' & r' & new & E & K & G & O & T).
    { intros; apply Hkeys; now right. }
    { apply dict_get_set_eq. }
    exists ft', r', (e :: new). split; [exact E|]. split; [|split; [|split]].
    + rewrite K. apply dict_keys_set_mem. eapply dict_get_Some_key; eauto.
    + rewrite G, <- app_assoc. reflexivity.
    + intros x Hx. rewrite O by assumption. apply dict_get_set_neq. auto.
    + constructor; [|exact T].
      destruct (set_backup_spec active critical primaries
                  (set_priority active dst (mkEntry dst primaries normal None)))
        as (B1 & B2 & B3 & B4).
      destruct (set_priority_spec active dst (mkEntry dst primaries normal None))
        as (P1 & P2 & P3 & P4).
      unfold entry_for. fold e in B1, B2, B3, B4.
      rewrite B1, B2, B3, B4, P1, P2, P3, P4. simpl. auto.
Qed.

Variable fuel : nat.
Hypothesis Hwf : well_formed g.
Hypothesis Hnn : nonneg_weights g.
Hypothesis Hfuel : (fuel_bound g <= fuel)%nat.

Lemma all_dists_spec : forall sws acc,
  (forall sw, In sw sws -> In sw (nodes g)) ->
  exists ad,
    all_dists fuel g sws acc = Ok ad /\
    (forall sw, In sw sws ->
       exists dist prev,
         dict_get ad sw = Some dist /\
         compute_shortest_paths fuel g sw = Ok (dist, prev) /\
         sp_result g sw dist prev) /\
    (forall x, ~ In x sws -> dict_get ad x = dict_get acc x).
Proof.
  induction sws as [|sw rest IH]; intros acc Hin.
  - exists acc. simpl. repeat split; auto. intros sw [].
  - destruct (compute_shortest_paths_ok g sw Hwf Hnn
                (Hin sw (or_introl eq_refl)) fuel Hfuel)
      as (dist & prev & E & R).
    cbn [all_dists]. rewrite E. cbn [bind].
    destruct (IH (dict_set acc sw dist)) as (ad & E' & A & O).
    { intros; apply Hin; now right. }
    exists ad. split; [exact E'|]. split.
    + intros x [<-|Hx]; [|now apply A].
      destruct (in_dec string_dec sw rest) as [Hr|Hr]; [now apply A|].
      exists dist, prev. rewrite O by assumption.
      rewrite dict_get_set_eq. auto.
    + intros x Hx. rewrite O by (simpl in Hx; tauto).
      apply dict_get_set_neq. simpl in Hx. intros ->. tauto.
Qed.

Lemma neighbors_finite sw dist prev :
  sp_result g sw dist prev ->
  forall v w, In (v, w) (neighbors g sw) ->
              dict_get_default dist v Inf = Inf ->
              float_of_int_ok w = true.
Proof.
  intros [K S0 RX CH] v w Hvw Hinf.
  destruct (RX sw v w 0 (neighbors_adj g Hwf _ _ _ Hvw) S0) as (db & Hb & _).
  unfold dict_get_default in Hinf. rewrite Hb in Hinf. discriminate.
Qed.

Lemma install_sws_spec ad : forall sws ft r,
  NoDup sws ->
  (forall sw, In sw sws ->
     exists dist prev,
       dict_get ad sw = Some dist /\
       compute_shortest_paths fuel g sw = Ok (dist, prev) /\
       sp_result g sw dist prev) ->
  (forall sw, In sw sws -> dict_get ft sw = Some []) ->
  exists ft' r',
    install_sws shuffle g active critical ad sws ft r = Ok (ft', r') /\
    dict_keys ft' = dict_keys ft /\
    (forall sw, In sw sws ->
       exists dist prev tbl,
         compute_shortest_paths fuel g sw = Ok (dist, prev) /\
         sp_result g sw dist prev /\
         dict_get ft' sw = Some tbl /\
         table_for g active critical sw dist (nodes g) tbl) /\
    (forall x, ~ In x sws -> dict_get ft' x = dict_get ft x).
Proof.
  induction sws as [|sw rest IH]; intros ft r Hnd Had Hft.
  - exists ft, r. simpl. repeat split; auto. intros sw [].
  - inversion Hnd as [|? ? Hni Hnd']; subst.
    destruct (Had sw (or_introl eq_refl)) as (dist & prev & Hd & E & R).
    cbn [install_sws]. unfold dict_lookup. rewrite Hd. cbn [bind].
    destruct (install_dsts_spec sw dist (neighbors_finite sw dist prev R)
                (nodes g) ft r [])
      as (ft1 & r1 & new & E1 & K1 & G1 & O1 & T1).
    { intros dst Hdst. now rewrite (res_keys _ _ _ _ R). }
    { apply Hft. now left. }
    rewrite E1. cbn [bind].
    destruct (IH ft1 r1 Hnd') as (ft' & r' & E' & K' & A' & O').
    { intros; apply Had; now right. }
    { intros x Hx. rewrite O1 by (intros ->; contradiction).
      apply Hft. now right. }
    exists ft', r'. split; [exact E'|]. split; [congruence|]. split.
    + intros x [<-|Hx]; [|now apply A'].
      exists dist, prev, new. split; [exact E|]. split; [exact R|].
      split; [|exact T1]. rewrite O' by assumption. exact G1.
    + intros x Hx. simpl in Hx. rewrite O' by tauto.
      apply O1. intros ->. tauto.
Qed.

End InstallFlows.

Lemma Forall2_In_l {A B} (R : A -> B -> Prop) l l' x :
  Forall2 R l l' -> In x l -> exists y, In y l' /\ R x y.
Proof.
  induction 1 as [|a b l l' Hab H IH]; [intros []|].
  intros [->|Hin]; [exists b; split; [now left|assumption]|].
  destruct (IH Hin) as (y & Hy & Hxy). exists y. split; [now right|auto].
Qed.

Lemma Forall2_In_r {A B} (R : A -> B -> Prop) l l' y :
  Forall2 R l l' -> In y l' -> exists x, In x l /\ R x y.
Proof.
  induction 1 as [|a b l l' Hab H IH]; [intros []|].
  intros [->|Hin]; [exists a; split; [now left|assumption]|].
  destruct (IH Hin) as (x & Hx & Hxy). exists x. split; [now right|auto].
Qed.

Lemma table_for_entries g active critical sw dist dsts tbl :
  table_for g active critical sw dist dsts tbl ->
  (forall dst, In dst dsts -> wanted sw dist dst = true ->
     exists e, In e tbl /\ entry_for g active critical sw dist dst e) /\
  (forall e, In e tbl ->
     In (match_dst e) dsts /\ wanted sw dist (match_dst e) = true /\
     entry_for g active critical sw dist (match_dst e) e).
Proof.
  unfold table_for. intros H. split.
  - intros dst Hd Hw. eapply Forall2_In_l; [exact H|].
    apply filter_In. auto.
  - intros e He. destruct (Forall2_In_r _ _ _ _ H He) as (d & Hd & Hent).
    apply filter_In in Hd as [Hd Hw].
    assert (Hm : match_dst e = d) by apply Hent.
    rewrite Hm. auto.
Qed.

(** What [install_flows] returns: the topology and the flow state are
    untouched and every switch gets the table of its wanted destinations. *)
Lemma install_flows_spec {rng} (shuffle : rng -> list node -> list node * rng)
  (fuel : nat) (c : controller) (r : rng) :
  is_shuffle shuffle ->
  well_formed (topo c) -> nonneg_weights (topo c) ->
  (fuel_bound (topo c) <= fuel)%nat ->
  exists c' r',
    install_flows shuffle fuel c r = Ok (c', r') /\
    topo c' = topo c /\
    active_flows c' = active_flows c /\
    critical_flows c' = critical_flows c /\
    forall sw, In sw (nodes (topo c)) ->
      exists dist prev tbl,
        compute_shortest_paths fuel (topo c) sw = Ok (dist, prev) /\
        sp_result (topo c) sw dist prev /\
        dict_get (flow_tables c') sw = Some tbl /\
        table_for (topo c) (active_flows c) (critical_flows c) sw dist
          (nodes (topo c)) tbl.
Proof.
  intros Hsh Hwf Hnn Hfuel. unfold install_flows.
  destruct (all_dists_spec (topo c) fuel Hwf Hnn Hfuel (nodes (topo c)) [])
    as (ad & E & A & _); [auto|].
  rewrite E. cbn [bind].
  destruct (install_sws_spec shuffle Hsh (topo c) (active_flows c)
              (critical_flows c) fuel Hwf ad (nodes (topo c))
              (map (fun n => (n, [])) (nodes (topo c))) r)
    as (ft & r' & E' & K & T & _).
  { apply Hwf. }
  { exact A. }
  { intros sw Hsw. rewrite dict_get_const.
    apply mem_node_In in Hsw. now rewrite Hsw. }
  rewrite E'. cbn [bind].
  eexists _, r'. split; [reflexivity|]. simpl. auto.
Qed.

(** ** More fuel does not change a result *)

Lemma sp_loop_fuel_mono g : forall fuel st r,
  sp_loop fuel g st = Ok r ->
  forall fuel', (fuel <= fuel')%nat -> sp_loop fuel' g st = Ok r.
Proof.
  induction fuel as [|fuel IH]; intros st r H fuel' Hle; [discriminate|].
  destruct fuel' as [|fuel']; [lia|].
  cbn [sp_loop] in *.
  destruct (heappop (sp_pq st)) as [[[d u] pq']|]; [|exact H].
  destruct (dict_lookup (sp_dist st) u) as [du| |]; cbn [bind] in *;
    try discriminate.
  destruct (int_gt d du).
  - apply IH with (fuel' := fuel') in H; [exact H|lia].
  - destruct (relax u d (neighbors g u) _) as [st'| |]; cbn [bind] in *;
      try discriminate.
    apply IH with (fuel' := fuel') in H; [exact H|lia].
Qed.

Lemma walk_prev_fuel_mono prev : forall fuel cur acc r,
  walk_prev fuel prev cur acc = Ok r ->
  forall fuel', (fuel <= fuel')%nat -> walk_prev fuel' prev cur acc = Ok r.
Proof.
  induction fuel as [|fuel IH]; intros cur acc r H fuel' Hle.
  - destruct cur; [discriminate|]. destruct fuel'; exact H.
  - destruct fuel' as [|fuel']; [lia|].
    destruct cur as [c|]; [|exact H]. cbn [walk_prev] in *.
    destruct (dict_lookup prev c) as [nxt| |]; cbn [bind] in *;
      try discriminate.
    apply IH with (fuel' := fuel') in H; [exact H|lia].
Qed.

Lemma compute_shortest_paths_fuel_mono g src fuel r :
  compute_shortest_paths fuel g src = Ok r ->
  forall fuel', (fuel <= fuel')%nat -> compute_shortest_paths fuel' g src = Ok r.
Proof. unfold compute_shortest_paths. apply sp_loop_fuel_mono. Qed.

Lemma compute_path_fuel_mono g src dst fuel r :
  compute_path fuel g src dst = Ok r ->
  forall fuel', (fuel <= fuel')%nat -> compute_path fuel' g src dst = Ok r.
Proof.
  unfold compute_path. intros H fuel' Hle.
  destruct (compute_shortest_paths fuel g src) as [[dist prev]| |] eqn:E;
    cbn [bind] in H; try discriminate.
  rewrite (compute_shortest_paths_fuel_mono _ _ _ _ E fuel' Hle). cbn [bind].
  destruct (dict_lookup dist dst) as [dd| |]; cbn [bind] in *;
    try discriminate.
  destruct (is_inf dd); [exact H|].
  destruct (walk_prev fuel prev (Some dst) []) as [path| |] eqn:Ew;
    cbn [bind] in H; try discriminate.
  rewrite (walk_prev_fuel_mono _ _ _ _ _ Ew fuel' Hle). exact H.
Qed.

(** ** Flow-table entries *)

Lemma dv_eqb_eq x y : dv_eqb x y = true <-> x = y.
Proof.
  destruct x as [a|], y as [b|]; simpl; try (split; congruence).
  rewrite Z.eqb_eq. split; congruence.
Qed.

Lemma wanted_true g sw dist dst :
  dict_keys dist = nodes g -> In dst (nodes g) ->
  (wanted sw dist dst = true <->
   dst <> sw /\ exists d, dict_get dist dst = Some (Fin d)).
Proof.
  intros K Hd. unfold wanted, dict_get_default.
  rewrite andb_true_iff, !negb_true_iff, String.eqb_neq.
  destruct (dict_key_get dist dst) as [dd Hdd]; [now rewrite K|].
  rewrite Hdd. destruct dd as [d|]; simpl.
  - split; intros [H _]; split; eauto.
  - split; [intros [_ H]; discriminate|intros [_ [d H]]; discriminate].
Qed.

Lemma ecmp_set_In g sw dst dist v :
  In v (ecmp_set g sw dst dist) <->
  exists w, In (v, w) (neighbors g sw) /\
            dv_plus (dict_get_default dist v Inf) w
            = dict_get_default dist dst Inf.
Proof.
  unfold ecmp_set. rewrite in_map_iff. split.
  - intros ([v' w] & <- & H). apply filter_In in H as [H1 H2].
    exists w. split; auto. now apply dv_eqb_eq.
  - intros (w & H1 & H2). exists (v, w). split; auto.
    apply filter_In. split; auto. now apply dv_eqb_eq.
Qed.

(** C3: after [install_flows], for every switch [sw] and every destination
    [dst <> sw] at finite distance [dd] from [sw], the table of [sw] has an
    entry for [dst], and the action list of every such entry contains
    exactly the neighbors [v] of [sw] with [dist[v] + weight(sw, v) == dd],
    where [dist] is the distance map computed with source [sw]. *)
Theorem action_is_equal_cost_set :
  forall (rng : Type) (shuffle : rng -> list node -> list node * rng)
         (fuel : nat) (c : controller) (r : rng),
    is_shuffle shuffle ->
    well_formed (topo c) -> nonneg_weights (topo c) ->
    (fuel_bound (topo c) <= fuel)%nat ->
    exists c' r',
      install_flows shuffle fuel c r = Ok (c', r') /\
      forall sw dst dist prev dd,
        In sw (nodes (topo c)) -> In dst (nodes (topo c)) -> dst <> sw ->
        compute_shortest_paths fuel (topo c) sw = Ok (dist, prev) ->
        dict_get dist dst = Some (Fin dd) ->
        exists tbl,
          dict_get (flow_tables c') sw = Some tbl /\
          (exists e, In e tbl /\ match_dst e = dst) /\
          forall e, In e tbl -> match_dst e = dst ->
            forall v, In v (action e) <->
              exists w dv, adj_get (topo c) sw v = Some w /\
                           dict_get dist v = Some (Fin dv) /\
                           dv + w = dd.
Proof.
  intros rng shuffle fuel c r Hsh Hwf Hnn Hfuel.
  destruct (install_flows_spec shuffle fuel c r Hsh Hwf Hnn Hfuel)
    as (c' & r' & E & _ & _ & _ & T).
  exists c', r'. split; [exact E|].
  intros sw dst dist prev dd Hsw Hdst Hne Hsp Hdd.
  destruct (T sw Hsw) as (dist' & prev' & tbl & Hsp' & R & Htbl & Htf).
  rewrite Hsp in Hsp'. injection Hsp' as <- <-.
  destruct (table_for_entries _ _ _ _ _ _ _ Htf) as [Hex Hall].
  exists tbl. split; [exact Htbl|]. split.
  - destruct (Hex dst Hdst) as (e & He & Hent).
    { apply (wanted_true (topo c)); eauto. apply R. }
    exists e. split; [exact He|apply Hent].
  - intros e He Hm v. destruct (Hall e He) as (_ & _ & Hent).
    rewrite Hm in Hent. destruct Hent as (_ & Hperm & _).
    split.
    + intros Hv. apply (Permutation_in _ (Permutation_sym Hperm)) in Hv.
      apply ecmp_set_In in Hv as (w & Hvw & Heq).
      pose proof (neighbors_adj _ Hwf _ _ _ Hvw) as Hadj.
      unfold dict_get_default in Heq. rewrite Hdd in Heq.
      destruct (dict_get dist v) as [[dv|]|]; simpl in Heq; try discriminate.
      injection Heq as <-. exists w, dv. auto.
    + intros (w & dv & Hadj & Hv & Heq).
      apply (Permutation_in _ Hperm). apply ecmp_set_In.
      exists w. split; [now apply adj_neighbors|].
      unfold dict_get_default. rewrite Hv, Hdd. simpl. now subst.
Qed.

Lemma keep_order_is_shuffle : is_shuffle keep_order.
Proof. intros r l. simpl. apply Permutation_refl. Qed.

Lemma reverse_order_is_shuffle : is_shuffle reverse_order.
Proof. intros r l. simpl. apply Permutation_rev. Qed.

Lemma action_is_equal_cost_set_witness :
  exists c' tbl e,
    install_flows reverse_order 16
      (mkController switch_topo [] [] [("H2", "S4")]) tt = Ok (c', tt) /\
    dict_get (flow_tables c') "S1" = Some tbl /\ In e tbl /\
    match_dst e = "S4" /\
    forall v, In v (action e) <->
      exists w dv, adj_get switch_topo "S1" v = Some w /\
                   dict_get [("S1", Fin 0); ("S2", Fin 1); ("S3", Fin 1);
                             ("S4", Fin 2)] v = Some (Fin dv) /\
                   dv + w = 2.
Proof.
  destruct (action_is_equal_cost_set unit reverse_order 16
              (mkController switch_topo [] [] [("H2", "S4")]) tt)
    as (c' & r' & E & H).
  - exact reverse_order_is_shuffle.
  - apply well_formedb_sound. reflexivity.
  - apply nonneg_weightsb_sound. reflexivity.
  - vm_compute. lia.
  - destruct r'.
    destruct (H "S1" "S4"
                [("S1", Fin 0); ("S2", Fin 1); ("S3", Fin 1); ("S4", Fin 2)]
                [("S1", None); ("S2", Some "S1"); ("S3", Some "S1");
                 ("S4", Some "S2")] 2)
      as (tbl & Ht & (e & He & Hm) & Hall).
    + simpl. tauto.
    + simpl. tauto.
    + discriminate.
    + reflexivity.
    + reflexivity.
    + exists c', tbl, e. repeat split; auto; apply (Hall e He Hm).
Defined.

(** The test measures [dist[v]] from [sw] itself, so a neighbor [v] passes
    for [dst] when [dist[v] + weight(sw, v) = dist[dst]]: the entry of S1
    for its direct neighbor S2 has no next hop. *)
Example direct_neighbor_entry :
  exists c' tbl,
    install_flows keep_order 16
      (mkController switch_topo [] [] [("H2", "S4")]) tt = Ok (c', tt) /\
    dict_get (flow_tables c') "S1" = Some tbl /\
    map (fun e => (match_dst e, action e)) tbl
    = [("S2", []); ("S3", []); ("S4", ["S2"; "S3"])].
Proof.
  do 2 eexists. split; [vm_compute; reflexivity|].
  split; vm_compute; reflexivity.
Qed.

Lemma install_flows_entry {rng} (shuffle : rng -> list node -> list node * rng)
  (fuel : nat) (c : controller) (r : rng) :
  is_shuffle shuffle ->
  well_formed (topo c) -> nonneg_weights (topo c) ->
  (fuel_bound (topo c) <= fuel)%nat ->
  exists c' r',
    install_flows shuffle fuel c r = Ok (c', r') /\
    topo c' = topo c /\
    active_flows c' = active_flows c /\
    critical_flows c' = critical_flows c /\
    forall sw dst dist prev dd,
      In sw (nodes (topo c)) -> In dst (nodes (topo c)) -> dst <> sw ->
      compute_shortest_paths fuel (topo c) sw = Ok (dist, prev) ->
      dict_get dist dst = Some (Fin dd) ->
      exists tbl,
        dict_get (flow_tables c') sw = Some tbl /\
        (exists e, In e tbl /\ match_dst e = dst) /\
        forall e, In e tbl -> match_dst e = dst ->
          entry_for (topo c) (active_flows c) (critical_flows c) sw dist dst e.
Proof.
  intros Hsh Hwf Hnn Hfuel.
  destruct (install_flows_spec shuffle fuel c r Hsh Hwf Hnn Hfuel)
    as (c' & r' & E & Ht & Ha & Hc & T).
  exists c', r'. split; [exact E|]. split; [exact Ht|].
  split; [exact Ha|]. split; [exact Hc|].
  intros sw dst dist prev dd Hsw Hdst Hne Hsp Hdd.
  destruct (T sw Hsw) as (dist' & prev' & tbl & Hsp' & R & Htbl & Htf).
  rewrite Hsp in Hsp'. injection Hsp' as <- <-.
  destruct (table_for_entries _ _ _ _ _ _ _ Htf) as [Hex Hall].
  exists tbl. split; [exact Htbl|]. split.
  - destruct (Hex dst Hdst) as (e & He & Hent).
    { apply (wanted_true (topo c)); eauto. apply R. }
    exists e. split; [exact He|apply Hent].
  - intros e He Hm. destruct (Hall e He) as (_ & _ & Hent).
    now rewrite Hm in Hent.
Qed.

(** C2: after [install_flows], for every switch [sw] and every reachable
    destination [dst <> sw], the table of [sw] has an entry for [dst], and
    every such entry has priority [high] if and only if some active flow has
    destination [dst]; otherwise its priority is [normal]. *)
Theorem priority_high_iff_active_destination :
  forall (rng : Type) (shuffle : rng -> list node -> list node * rng)
         (fuel : nat) (c : controller) (r : rng),
    is_shuffle shuffle ->
    well_formed (topo c) -> nonneg_weights (topo c) ->
    (fuel_bound (topo c) <= fuel)%nat ->
    exists c' r',
      install_flows shuffle fuel c r = Ok (c', r') /\
      forall sw dst dist prev dd,
        In sw (nodes (topo c)) -> In dst (nodes (topo c)) -> dst <> sw ->
        compute_shortest_paths fuel (topo c) sw = Ok (dist, prev) ->
        dict_get dist dst = Some (Fin dd) ->
        exists tbl,
          dict_get (flow_tables c') sw = Some tbl /\
          (exists e, In e tbl /\ match_dst e = dst) /\
          forall e, In e tbl -> match_dst e = dst ->
            (prio e = high <-> exists src, In (src, dst) (active_flows c)) /\
            (~ (exists src, In (src, dst) (active_flows c)) ->
             prio e = normal).
Proof.
  intros rng shuffle fuel c r Hsh Hwf Hnn Hfuel.
  destruct (install_flows_entry shuffle fuel c r Hsh Hwf Hnn Hfuel)
    as (c' & r' & E & _ & _ & _ & T).
  exists c', r'. split; [exact E|].
  intros sw dst dist prev dd Hsw Hdst Hne Hsp Hdd.
  destruct (T sw dst dist prev dd Hsw Hdst Hne Hsp Hdd)
    as (tbl & Htbl & Hex & Hall).
  exists tbl. split; [exact Htbl|]. split; [exact Hex|].
  intros e He Hm. destruct (Hall e He Hm) as (_ & _ & Hp & _).
  rewrite Hp. rewrite <- has_dst_true.
  destruct (has_dst (active_flows c) dst).
  - split; [tauto|]. intros H. now contradiction H.
  - split; [|reflexivity]. split; discriminate.
Qed.

Lemma priority_high_iff_active_destination_witness :
  exists c' tbl e,
    install_flows keep_order 22
      (mkController main_topo [] [("H1", "H2")] [("H2", "S4")]) tt
    = Ok (c', tt) /\
    dict_get (flow_tables c') "S3" = Some tbl /\ In e tbl /\
    match_dst e = "H2" /\ prio e = high.
Proof.
  destruct (priority_high_iff_active_destination unit keep_order 22
              (mkController main_topo [] [("H1", "H2")] [("H2", "S4")]) tt)
    as (c' & r' & E & H).
  - exact keep_order_is_shuffle.
  - apply well_formedb_sound. vm_compute. reflexivity.
  - apply nonneg_weightsb_sound. vm_compute. reflexivity.
  - vm_compute. lia.
  - destruct r'.
    eassert (Esp : compute_shortest_paths 22 main_topo "S3" = Ok (_, _))
      by (vm_compute; reflexivity).
    destruct (H "S3" "H2" _ _ 3 ltac:(vm_compute; tauto)
                ltac:(vm_compute; tauto) ltac:(discriminate) Esp
                ltac:(reflexivity))
      as (tbl & Ht & (e & He & Hm) & Hall).
    exists c', tbl, e. repeat split; auto.
    apply (Hall e He Hm). exists "H1". simpl. tauto.
Defined.

(** ** Rebuilding the tables *)

Lemma tape_order_is_shuffle : is_shuffle tape_order.
Proof.
  intros [|[|] tape] l; simpl;
    [apply Permutation_refl|apply Permutation_rev|apply Permutation_refl].
Qed.

Lemma entry_for_same_route g active critical sw dist dst e1 e2 :
  entry_for g active critical sw dist dst e1 ->
  entry_for g active critical sw dist dst e2 ->
  same_route e1 e2.
Proof.
  intros (M1 & P1 & Q1 & _) (M2 & P2 & Q2 & _). split; [congruence|].
  split; [|congruence].
  eapply Permutation_trans; [apply Permutation_sym; exact P1|exact P2].
Qed.

Lemma tables_same_route g active critical sw dist : forall dsts t1 t2,
  Forall2 (entry_for g active critical sw dist) dsts t1 ->
  Forall2 (entry_for g active critical sw dist) dsts t2 ->
  Forall2 same_route t1 t2.
Proof.
  induction dsts as [|d dsts IH]; intros t1 t2 H1 H2;
    inversion H1; inversion H2; subst; constructor.
  - eapply entry_for_same_route; eauto.
  - apply IH; assumption.
Qed.

(** C9: two successive [install_flows] calls on the same topology and flow
    state both return, and for every switch the two tables have the same
    destinations in the same positions, with the same priority and with
    action lists that are permutations of each other. *)
Theorem reinstall_same_routes :
  forall (rng : Type) (shuffle : rng -> list node -> list node * rng)
         (fuel : nat) (c : controller) (r : rng),
    is_shuffle shuffle ->
    well_formed (topo c) -> nonneg_weights (topo c) ->
    (fuel_bound (topo c) <= fuel)%nat ->
    exists c1 r1 c2 r2,
      install_flows shuffle fuel c r = Ok (c1, r1) /\
      install_flows shuffle fuel c1 r1 = Ok (c2, r2) /\
      forall sw, In sw (nodes (topo c)) ->
        exists t1 t2,
          dict_get (flow_tables c1) sw = Some t1 /\
          dict_get (flow_tables c2) sw = Some t2 /\
          Forall2 same_route t1 t2.
Proof.
  intros rng shuffle fuel c r Hsh Hwf Hnn Hfuel.
  destruct (install_flows_spec shuffle fuel c r Hsh Hwf Hnn Hfuel)
    as (c1 & r1 & E1 & Ht & Ha & Hc & T1).
  assert (Hwf1 : well_formed (topo c1)) by now rewrite Ht.
  assert (Hnn1 : nonneg_weights (topo c1)) by now rewrite Ht.
  assert (Hfuel1 : (fuel_bound (topo c1) <= fuel)%nat) by now rewrite Ht.
  destruct (install_flows_spec shuffle fuel c1 r1 Hsh Hwf1 Hnn1 Hfuel1)
    as (c2 & r2 & E2 & _ & _ & _ & T2).
  rewrite Ht, Ha, Hc in T2.
  exists c1, r1, c2, r2. split; [exact E1|]. split; [exact E2|].
  intros sw Hsw.
  destruct (T1 sw Hsw) as (dist & prev & t1 & Hsp & _ & G1 & F1).
  destruct (T2 sw Hsw) as (dist' & prev' & t2 & Hsp' & _ & G2 & F2).
  rewrite Hsp in Hsp'. injection Hsp' as <- <-.
  exists t1, t2. split; [exact G1|]. split; [exact G2|].
  eapply tables_same_route; eauto.
Qed.

Lemma reinstall_same_routes_witness :
  exists c1 r1 c2 r2,
    install_flows tape_order 16
      (mkController switch_topo [] [] [("H2", "S4")]) (repeat true 12)
    = Ok (c1, r1) /\
    install_flows tape_order 16 c1 r1 = Ok (c2, r2) /\
    forall sw, In sw (nodes switch_topo) ->
      exists t1 t2,
        dict_get (flow_tables c1) sw = Some t1 /\
        dict_get (flow_tables c2) sw = Some t2 /\
        Forall2 same_route t1 t2.
Proof.
  apply (reinstall_same_routes (list bool) tape_order 16
           (mkController switch_topo [] [] [("H2", "S4")]) (repeat true 12)).
  - exact tape_order_is_shuffle.
  - apply well_formedb_sound. vm_compute. reflexivity.
  - apply nonneg_weightsb_sound. vm_compute. reflexivity.
  - vm_compute. lia.
Defined.

(** The order inside an action list does change between two rebuilds when
    the generator says so: on a tape of twelve heads the first rebuild
    reverses every list and the second none, so the entry of S1 for S4 lists
    S3 before S2 after the first call and S2 before S3 after the second. *)
Example reinstall_order_differs :
  exists c1 r1 c2 r2 t1 t2,
    install_flows tape_order 16
      (mkController switch_topo [] [] [("H2", "S4")]) (repeat true 12)
    = Ok (c1, r1) /\
    install_flows tape_order 16 c1 r1 = Ok (c2, r2) /\
    dict_get (flow_tables c1) "S1" = Some t1 /\
    dict_get (flow_tables c2) "S1" = Some t2 /\
    map action t1 = [[]; []; ["S3"; "S2"]] /\
    map action t2 = [[]; []; ["S2"; "S3"]].
Proof.
  do 6 eexists.
  split; [vm_compute; reflexivity|].
  split; [vm_compute; reflexivity|].
  split; [vm_compute; reflexivity|].
  split; [vm_compute; reflexivity|].
  split; vm_compute; reflexivity.
Qed.

(** ** Backup next hops *)

(** What the backup loop does: an entry gets a backup exactly when some
    active flow, of any destination, is critical and the entry has more than
    one next hop; the backup is then the action list without its head. *)
Lemma entry_backup_spec g active critical sw dist dst e :
  entry_for g active critical sw dist dst e ->
  (backup e <> None <->
   (exists f, In f active /\ In f critical) /\
   (1 < List.length (action e))%nat) /\
  (forall b, backup e = Some b -> b = tl (action e)).
Proof.
  intros (_ & _ & _ & Hb). rewrite Hb. rewrite <- any_critical_true.
  destruct (any_critical active critical); simpl.
  - destruct (Nat.ltb_spec 1 (List.length (action e))); split.
    + split; [auto|discriminate].
    + intros b [= <-]. reflexivity.
    + split; [congruence|]. intros [_ H']. lia.
    + discriminate.
  - split; [|discriminate]. split; [congruence|]. intros [H' _]. discriminate.
Qed.

(** C1, at the topology of the command-line entry point after
    [inject_flow H2 S4], the critical flow: the entry of switch S4 for
    destination S1 carries a backup, the action list without its head,
    although no active flow has destination S1. *)
Theorem backup_on_other_destination :
  forall (rng : Type) (shuffle : rng -> list node -> list node * rng)
         (fuel : nat) (r : rng),
    is_shuffle shuffle -> (22 <= fuel)%nat ->
    exists c0 r0 c' r' tbl e,
      new_controller shuffle fuel main_topo r = Ok (c0, r0) /\
      inject_flow shuffle fuel c0 "H2" "S4" r0 = Ok (c', r') /\
      dict_get (flow_tables c') "S4" = Some tbl /\
      In e tbl /\ match_dst e = "S1" /\
      backup e = Some (tl (action e)) /\
      (forall f, In f (active_flows c') -> snd f <> "S1").
Proof.
  intros rng shuffle fuel r Hsh Hfuel.
  assert (Hwf : well_formed main_topo)
    by (apply well_formedb_sound; vm_compute; reflexivity).
  assert (Hnn : nonneg_weights main_topo)
    by (apply nonneg_weightsb_sound; vm_compute; reflexivity).
  assert (Hfb : (fuel_bound main_topo <= fuel)%nat)
    by (eapply Nat.le_trans; [|exact Hfuel]; vm_compute; lia).
  unfold new_controller.
  destruct (install_flows_spec shuffle fuel
              (mkController main_topo [] [] [("H2", "S4")]) r Hsh Hwf Hnn Hfb)
    as (c0 & r0 & E0 & Ht0 & Ha0 & Hc0 & _).
  cbn [topo active_flows critical_flows] in Ht0, Ha0, Hc0.
  assert (Hinj : forall x,
             inject_flow shuffle fuel c0 "H2" "S4" r0 = x <->
             install_flows shuffle fuel
               (mkController main_topo (flow_tables c0) [("H2", "S4")]
                  [("H2", "S4")]) r0 = x).
  { intros x. unfold inject_flow. rewrite Ht0, Ha0, Hc0. reflexivity. }
  destruct (install_flows_entry shuffle fuel
              (mkController main_topo (flow_tables c0) [("H2", "S4")]
                 [("H2", "S4")]) r0 Hsh Hwf Hnn Hfb)
    as (c' & r' & E & _ & Ha & _ & T).
  cbn [topo active_flows critical_flows] in *.
  eassert (Esp : compute_shortest_paths 22 main_topo "S4" = Ok (_, _))
    by (vm_compute; reflexivity).
  apply compute_shortest_paths_fuel_mono with (fuel' := fuel) in Esp;
    [|exact Hfuel].
  destruct (T "S4" "S1" _ _ 2 ltac:(vm_compute; tauto)
              ltac:(vm_compute; tauto) ltac:(discriminate) Esp
              ltac:(reflexivity))
    as (tbl & Ht & (e & He & Hm) & Hall).
  exists c0, r0, c', r', tbl, e. split; [exact E0|].
  split; [apply Hinj; exact E|].
  split; [exact Ht|]. split; [exact He|]. split; [exact Hm|]. split.
  - destruct (Hall e He Hm) as (_ & Hperm & _ & Hb).
    assert (Hlen : List.length (action e) = 2%nat).
    { rewrite <- (Permutation_length Hperm). vm_compute. reflexivity. }
    rewrite Hb, Hlen. reflexivity.
  - rewrite Ha. intros f [<-|[]]. discriminate.
Qed.

Lemma backup_on_other_destination_witness :
  exists c0 c' tbl e,
    new_controller keep_order 22 main_topo tt = Ok (c0, tt) /\
    inject_flow keep_order 22 c0 "H2" "S4" tt = Ok (c', tt) /\
    dict_get (flow_tables c') "S4" = Some tbl /\
    In e tbl /\ match_dst e = "S1" /\
    backup e = Some (tl (action e)).
Proof.
  destruct (backup_on_other_destination unit keep_order 22 tt
              keep_order_is_shuffle (Nat.le_refl 22))
    as (c0 & r0 & c' & r' & tbl & e & E0 & E & Ht & He & Hm & Hb & _).
  destruct r0, r'. exists c0, c', tbl, e. auto 7.
Defined.

(** ** Queries about unknown nodes *)

(** C5, for a destination that is not a node: on a well-formed topology
    with non-negative weights and a source that is a node,
    [compute_path(src, dst)] raises KeyError at [dist[dst]]. *)
Theorem compute_path_unknown_destination :
  forall (g : Graph) (src dst : node) (fuel : nat),
    well_formed g -> nonneg_weights g ->
    In src (nodes g) -> ~ In dst (nodes g) ->
    (fuel_bound g <= fuel)%nat ->
    compute_path fuel g src dst = Raise KeyError.
Proof.
  intros g src dst fuel Hwf Hnn Hs Hd Hfuel.
  destruct (compute_shortest_paths_ok g src Hwf Hnn Hs fuel Hfuel)
    as (dist & prev & E & R).
  unfold compute_path. rewrite E. cbn [bind]. unfold dict_lookup.
  assert (Hnone : dict_get dist dst = None).
  { apply dict_get_None. now rewrite (res_keys _ _ _ _ R). }
  now rewrite Hnone.
Qed.

Lemma compute_path_unknown_destination_witness :
  compute_path 22 main_topo "S1" "S9" = Raise KeyError.
Proof.
  apply (compute_path_unknown_destination main_topo "S1" "S9" 22).
  - apply well_formedb_sound. vm_compute. reflexivity.
  - apply nonneg_weightsb_sound. vm_compute. reflexivity.
  - vm_compute. tauto.
  - vm_compute. intuition discriminate.
  - vm_compute. lia.
Defined.

(** The same exception when source and destination are one unknown name:
    [dist[dst]] is 0 but [prev] has no such key. *)
Example compute_path_unknown_source_and_destination :
  compute_path 22 main_topo "X" "X" = Raise KeyError.
Proof. vm_compute. reflexivity. Qed.

(** An unknown source with a known destination gives the unreachable
    result. *)
Example compute_path_unknown_source :
  compute_path 22 main_topo "X" "S1" = Ok None.
Proof. vm_compute. reflexivity. Qed.

(** ** Reconfiguration after a link removal *)

Lemma entry_next_hop_is_neighbor g active critical sw dist dst e v :
  entry_for g active critical sw dist dst e ->
  In v (action e) -> exists w, In (v, w) (neighbors g sw).
Proof.
  intros (_ & Hperm & _) Hv.
  apply (Permutation_in _ (Permutation_sym Hperm)) in Hv.
  apply ecmp_set_In in Hv as (w & Hvw & _). eauto.
Qed.

Lemma entry_backup_in_action g active critical sw dist dst e b v :
  entry_for g active critical sw dist dst e ->
  backup e = Some b -> In v b -> In v (action e).
Proof.
  intros Hent Hb Hv.
  destruct (entry_backup_spec _ _ _ _ _ _ _ Hent) as [_ H].
  rewrite (H b Hb) in Hv. destruct (action e); [destruct Hv|now right].
Qed.

(** C8, on the five-link switch topology: after
    [remove_link_and_reconfigure(S2, S4)] the link is gone and
    [compute_path(S1, S4)] returns S1, S3, S4, the path through S3, which
    has two edges.  Yet, whatever the shuffle, the entry of S1 for
    destination S4 lists S2 beside S3 among its next hops, because the
    next-hop test reads the distance of S2 measured from S1; and the entry
    of S2 for S4 has no next hop, so what S1 hands to S2 for S4 goes
    nowhere. *)
Theorem reconfigure_path_and_removed_link :
  forall (rng : Type) (shuffle : rng -> list node -> list node * rng)
         (fuel : nat) (c : controller) (r : rng),
    is_shuffle shuffle -> topo c = switch_topo -> (16 <= fuel)%nat ->
    exists c' r' tbl1 tbl2,
      remove_link_and_reconfigure shuffle fuel c "S2" "S4" r = Ok (c', r') /\
      adj_get (topo c') "S2" "S4" = None /\
      adj_get (topo c') "S4" "S2" = None /\
      compute_path fuel (topo c') "S1" "S4" = Ok (Some ["S1"; "S3"; "S4"]) /\
      edge_count ["S1"; "S3"; "S4"] = 2%nat /\
      dict_get (flow_tables c') "S1" = Some tbl1 /\
      (exists e, In e tbl1 /\ match_dst e = "S4") /\
      (forall e, In e tbl1 -> match_dst e = "S4" ->
         Permutation ["S2"; "S3"] (action e) /\ In "S2" (action e)) /\
      dict_get (flow_tables c') "S2" = Some tbl2 /\
      (exists e, In e tbl2 /\ match_dst e = "S4") /\
      (forall e, In e tbl2 -> match_dst e = "S4" -> action e = []).
Proof.
  intros rng shuffle fuel [g ft act crit] r Hsh Hg Hfuel.
  cbn [topo] in Hg. subst g.
  unfold remove_link_and_reconfigure.
  cbn [topo flow_tables active_flows critical_flows].
  set (g' := remove_link switch_topo "S2" "S4").
  assert (Hwf : well_formed g')
    by (apply well_formedb_sound; vm_compute; reflexivity).
  assert (Hnn : nonneg_weights g')
    by (apply nonneg_weightsb_sound; vm_compute; reflexivity).
  assert (Hfb : (fuel_bound g' <= fuel)%nat)
    by (eapply Nat.le_trans; [|exact Hfuel]; vm_compute; lia).
  destruct (install_flows_entry shuffle fuel (mkController g' ft act crit) r
              Hsh Hwf Hnn Hfb)
    as (c' & r' & E & Ht & _ & _ & T).
  cbn [topo active_flows critical_flows] in *.
  eassert (Esp1 : compute_shortest_paths 16 g' "S1" = Ok (_, _))
    by (vm_compute; reflexivity).
  apply compute_shortest_paths_fuel_mono with (fuel' := fuel) in Esp1;
    [|exact Hfuel].
  eassert (Esp2 : compute_shortest_paths 16 g' "S2" = Ok (_, _))
    by (vm_compute; reflexivity).
  apply compute_shortest_paths_fuel_mono with (fuel' := fuel) in Esp2;
    [|exact Hfuel].
  destruct (T "S1" "S4" _ _ 2 ltac:(vm_compute; tauto)
              ltac:(vm_compute; tauto) ltac:(discriminate) Esp1
              ltac:(reflexivity))
    as (tbl1 & Ht1 & Hex1 & Hall1).
  destruct (T "S2" "S4" _ _ 3 ltac:(vm_compute; tauto)
              ltac:(vm_compute; tauto) ltac:(discriminate) Esp2
              ltac:(reflexivity))
    as (tbl2 & Ht2 & Hex2 & Hall2).
  exists c', r', tbl1, tbl2. split; [exact E|].
  split; [rewrite Ht; vm_compute; reflexivity|].
  split; [rewrite Ht; vm_compute; reflexivity|].
  split.
  { rewrite Ht. apply compute_path_fuel_mono with (fuel := 16%nat);
      [vm_compute; reflexivity|exact Hfuel]. }
  split; [reflexivity|]. split; [exact Ht1|]. split; [exact Hex1|]. split.
  { intros e He Hm. destruct (Hall1 e He Hm) as (_ & Hperm & _).
    assert (Hs : Permutation ["S2"; "S3"] (action e)) by exact Hperm.
    split; [exact Hs|]. apply (Permutation_in _ Hs). now left. }
  split; [exact Ht2|]. split; [exact Hex2|].
  intros e He Hm. destruct (Hall2 e He Hm) as (_ & Hperm & _).
  assert (Hs : Permutation [] (action e)) by exact Hperm.
  now apply Permutation_nil in Hs.
Qed.

Lemma reconfigure_path_and_removed_link_witness :
  exists c0 c' tbl e,
    new_controller keep_order 16 switch_topo tt = Ok (c0, tt) /\
    remove_link_and_reconfigure keep_order 16 c0 "S2" "S4" tt = Ok (c', tt) /\
    compute_path 16 (topo c') "S1" "S4" = Ok (Some ["S1"; "S3"; "S4"]) /\
    dict_get (flow_tables c') "S1" = Some tbl /\
    In e tbl /\ match_dst e = "S4" /\ In "S2" (action e).
Proof.
  eassert (E0 : new_controller keep_order 16 switch_topo tt = Ok (_, tt))
    by (vm_compute; reflexivity).
  match type of E0 with
  | _ = Ok (?c0, _) =>
      destruct (reconfigure_path_and_removed_link unit keep_order 16 c0 tt
                  keep_order_is_shuffle eq_refl (Nat.le_refl 16))
        as (c' & r' & tbl1 & tbl2 & E & _ & _ & Hp & _ & Ht1 & (e & He & Hm)
            & Hall & _);
      destruct r'; exists c0, c', tbl1, e
  end.
  split; [exact E0|]. split; [exact E|]. split; [exact Hp|].
  split; [exact Ht1|]. split; [exact He|]. split; [exact Hm|].
  exact (proj2 (Hall e He Hm)).
Defined.

(** * Further properties of the topology model *)

Section DictAlgebra.
Context {V : Type}.
Implicit Types (d : dict V) (k : node) (v : V).

Lemma dict_set_same d k v : dict_get d k = Some v -> dict_set d k v = d.
Proof.
  induction d as [|[k0 v0] d IH]; simpl; [discriminate|].
  destruct (String.eqb k0 k); [intros [= ->]; reflexivity|].
  intros H. now rewrite IH.
Qed.

Lemma dict_set_set d k v v' : dict_set (dict_set d k v) k v' = dict_set d k v'.
Proof.
  induction d as [|[k0 v0] d IH]; simpl.
  - now rewrite String.eqb_refl.
  - destruct (String.eqb k0 k) eqn:E; simpl; rewrite E; [reflexivity|].
    now rewrite IH.
Qed.

Lemma dict_set_comm d k1 k2 v1 v2 :
  k1 <> k2 -> In k1 (dict_keys d) -> In k2 (dict_keys d) ->
  dict_set (dict_set d k1 v1) k2 v2 = dict_set (dict_set d k2 v2) k1 v1.
Proof.
  intros Hne. induction d as [|[k0 v0] d IH]; simpl; [tauto|].
  intros H1 H2.
  destruct (String.eqb_spec k0 k1) as [E1|N1];
    destruct (String.eqb_spec k0 k2) as [E2|N2]; simpl.
  - congruence.
  - apply String.eqb_neq in N2. apply String.eqb_eq in E1.
    now rewrite N2, E1.
  - apply String.eqb_neq in N1. apply String.eqb_eq in E2.
    now rewrite N1, E2.
  - apply String.eqb_neq in N1 as N1'. apply String.eqb_neq in N2 as N2'.
    rewrite N1', N2'. f_equal. apply IH; tauto.
Qed.

Lemma dict_pop_absent d k : dict_get d k = None -> dict_pop d k = d.
Proof.
  induction d as [|[k0 v0] d IH]; simpl; [reflexivity|].
  destruct (String.eqb k0 k); [discriminate|]. intros H. now rewrite IH.
Qed.

Lemma dict_set_new d k v :
  dict_get d k = None -> dict_set d k v = d ++ [(k, v)].
Proof.
  induction d as [|[k0 v0] d IH]; simpl; [reflexivity|].
  destruct (String.eqb k0 k); [discriminate|]. intros H. now rewrite IH.
Qed.

Lemma dict_pop_set_new d k v :
  dict_get d k = None -> dict_pop (dict_set d k v) k = d.
Proof.
  intros H. rewrite dict_set_new by assumption.
  induction d as [|[k0 v0] d IH]; simpl.
  - now rewrite String.eqb_refl.
  - simpl in H. destruct (String.eqb k0 k); [discriminate|].
    now rewrite IH.
Qed.

Lemma dict_keys_pop d k :
  dict_keys (dict_pop d k)
  = filter (fun x => negb (String.eqb x k)) (dict_keys d).
Proof.
  induction d as [|[k0 v0] d IH]; simpl; [reflexivity|].
  destruct (String.eqb k0 k); simpl; now rewrite IH.
Qed.
End DictAlgebra.

Lemma graph_eta g : mkGraph (adj g) = g.
Proof. now destruct g. Qed.

Lemma add_node_present g n : In n (nodes g) -> add_node g n = g.
Proof.
  intros H. unfold add_node, dict_setdefault.
  apply dict_mem_true in H. rewrite H. apply graph_eta.
Qed.

(** X1: [add_node(n)] leaves a graph that has [n] unchanged; otherwise it
    appends [n] to [nodes()], with no neighbor.  It never changes a link and
    calling it twice is the same as calling it once. *)
Theorem add_node_idempotent_and_link_free :
  forall (g : Graph) (n : node),
    (In n (nodes g) -> add_node g n = g) /\
    (~ In n (nodes g) ->
       nodes (add_node g n) = nodes g ++ [n] /\
       neighbors (add_node g n) n = []) /\
    (forall u v, adj_get (add_node g n) u v = adj_get g u v) /\
    add_node (add_node g n) n = add_node g n.
Proof.
  intros g n. split; [apply add_node_present|]. split; [|split].
  - intros Hn. apply dict_get_None in Hn.
    unfold add_node, dict_setdefault, dict_mem, nodes, neighbors,
      dict_get_default. rewrite Hn. simpl.
    rewrite dict_get_set_eq, dict_set_new by assumption.
    unfold dict_keys. rewrite map_app. auto.
  - intros u v. apply adj_get_add_node.
  - apply add_node_present, add_node_In.
Qed.

(** X2: [add_link(u, v, w)] never raises, whatever the graph: afterwards
    [adj[u][v]] and [adj[v][u]] are both [w], every other link is as before,
    and the node list is the one [add_node(u); add_node(v)] gives. *)
Theorem add_link_total_and_symmetric :
  forall (g : Graph) (u v : node) (w : Z),
    exists g',
      add_link g u v w = Ok g' /\
      adj_get g' u v = Some w /\ adj_get g' v u = Some w /\
      (forall x y, ~ (x = u /\ y = v) -> ~ (x = v /\ y = u) ->
                   adj_get g' x y = adj_get g x y) /\
      nodes g' = nodes (add_node (add_node g u) v).
Proof.
  intros g u v w. unfold add_link.
  destruct (set_weight_spec (adj (add_node (add_node g u) v)) u v w)
    as (a1 & E1 & K1 & _ & G1).
  { apply add_node_keeps, add_node_In. }
  destruct (set_weight_spec a1 v u w) as (a2 & E2 & K2 & _ & G2).
  { rewrite K1. apply add_node_In. }
  rewrite E1; cbn [bind]. rewrite E2; cbn [bind].
  assert (G : forall x y, adj_get (mkGraph a2) x y =
                if String.eqb v x && String.eqb u y then Some w
                else if String.eqb u x && String.eqb v y then Some w
                else adj_get g x y).
  { intros x y. rewrite G2, G1.
    change (mkGraph (adj (add_node (add_node g u) v)))
      with (add_node (add_node g u) v).
    now rewrite !adj_get_add_node. }
  exists (mkGraph a2). split; [reflexivity|]. split; [|split; [|split]].
  - rewrite G, !String.eqb_refl. simpl. now destruct (_ && _).
  - rewrite G, !String.eqb_refl. reflexivity.
  - intros x y H1 H2. rewrite G.
    destruct (String.eqb_spec v x); destruct (String.eqb_spec u y);
      destruct (String.eqb_spec u x); destruct (String.eqb_spec v y);
      simpl; try reflexivity; exfalso; subst; tauto.
  - unfold nodes. cbn [adj]. now rewrite K2, K1.
Qed.

(** X4: [remove_link(u, v)] keeps the node list, leaves neither
    [adj[u][v]] nor [adj[v][u]], and touches no other link; when the link
    is absent in both directions the graph is unchanged. *)
Theorem remove_link_only_that_link :
  forall (g : Graph) (u v : node),
    nodes (remove_link g u v) = nodes g /\
    adj_get (remove_link g u v) u v = None /\
    adj_get (remove_link g u v) v u = None /\
    (forall x y, ~ (x = u /\ y = v) -> ~ (x = v /\ y = u) ->
                 adj_get (remove_link g u v) x y = adj_get g x y) /\
    (adj_get g u v = None -> adj_get g v u = None -> remove_link g u v = g).
Proof.
  intros g u v. split; [apply remove_link_nodes|]. split; [|split; [|split]].
  - rewrite remove_link_spec, !String.eqb_refl. simpl. now destruct (_ && _).
  - rewrite remove_link_spec, !String.eqb_refl. reflexivity.
  - intros x y H1 H2. rewrite remove_link_spec.
    destruct (String.eqb_spec v x); destruct (String.eqb_spec u y);
      destruct (String.eqb_spec u x); destruct (String.eqb_spec v y);
      simpl; try reflexivity; exfalso; subst; tauto.
  - assert (Hpop : forall a x y,
               adj_get (mkGraph a) x y = None -> pop_weight a x y = a).
    { intros a x y H. unfold pop_weight, adj_get in *. simpl in H.
      destruct (dict_get a x) as [nb|] eqn:E; [|reflexivity].
      rewrite dict_pop_absent by assumption. now apply dict_set_same. }
    intros H1 H2. unfold remove_link.
    rewrite (Hpop (adj g) u v) by now rewrite graph_eta.
    rewrite (Hpop (adj g) v u) by now rewrite graph_eta.
    apply graph_eta.
Qed.

Lemma set_weight_explicit a u v w nb :
  dict_get a u = Some nb ->
  set_weight a u v w = Ok (dict_set a u (dict_set nb v w)).
Proof. intros H. unfold set_weight, dict_lookup. now rewrite H. Qed.

Lemma add_link_explicit g u v w nbu nbv :
  dict_get (adj g) u = Some nbu -> dict_get (adj g) v = Some nbv ->
  add_link g u v w
  = Ok (mkGraph
          (if String.eqb u v
           then dict_set (adj g) u (dict_set nbu u w)
           else dict_set (dict_set (adj g) u (dict_set nbu v w))
                         v (dict_set nbv u w))).
Proof.
  intros Hu Hv. unfold add_link.
  rewrite (add_node_present g u)
    by (unfold nodes; eapply dict_get_Some_key; eauto).
  rewrite (add_node_present g v)
    by (unfold nodes; eapply dict_get_Some_key; eauto).
  rewrite (set_weight_explicit _ _ _ _ _ Hu). cbn [bind].
  destruct (String.eqb_spec u v) as [<-|Hne].
  - erewrite set_weight_explicit by apply dict_get_set_eq. cbn [bind].
    now rewrite !dict_set_set.
  - erewrite set_weight_explicit
      by (rewrite dict_get_set_neq by assumption; exact Hv).
    reflexivity.
Qed.

(** X3: adding a link that is already there only replaces its weight: the
    second [add_link(u, v, w2)] returns exactly the graph that a single
    [add_link(u, v, w2)] on the original graph returns, so neither the node
    order nor the neighbor order changes. *)
Theorem add_link_overwrites_weight :
  forall (g : Graph) (u v : node) (w1 w2 : Z),
    exists g1 g2,
      add_link g u v w1 = Ok g1 /\
      add_link g1 u v w2 = Ok g2 /\
      add_link g u v w2 = Ok g2.
Proof.
  intros g u v w1 w2.
  set (g0 := add_node (add_node g u) v).
  assert (Hu0 : In u (nodes g0)) by apply add_node_keeps, add_node_In.
  assert (Hv0 : In v (nodes g0)) by apply add_node_In.
  destruct (dict_key_get _ _ Hu0) as [nbu Hu].
  destruct (dict_key_get _ _ Hv0) as [nbv Hv].
  assert (Hsame : forall w, add_link g u v w = add_link g0 u v w).
  { intros w. unfold add_link. fold g0.
    rewrite (add_node_present g0 u) by assumption.
    now rewrite (add_node_present g0 v) by assumption. }
  rewrite !Hsame.
  rewrite !(add_link_explicit g0 u v _ nbu nbv Hu Hv).
  destruct (String.eqb_spec u v) as [<-|Hne].
  - eexists _, _. split; [reflexivity|]. split; [|reflexivity].
    erewrite add_link_explicit; cbn [adj]; try apply dict_get_set_eq.
    rewrite String.eqb_refl. now rewrite !dict_set_set.
  - eexists _, _. split; [reflexivity|]. split; [|reflexivity].
    erewrite add_link_explicit; cbn [adj].
    2:{ rewrite dict_get_set_neq by congruence. apply dict_get_set_eq. }
    2:{ apply dict_get_set_eq. }
    apply String.eqb_neq in Hne as Hne'. rewrite Hne'.
    do 2 f_equal. rewrite !dict_set_set.
    rewrite (dict_set_comm (dict_set (adj g0) u (dict_set nbu v w1)) v u)
      by (try congruence;
          rewrite dict_keys_set_mem; assumption).
    now rewrite !dict_set_set.
Qed.

(** X5: removing a node that is not in the graph returns the graph
    unchanged, and [remove_node(n)] right after [add_node(n)] of a new node
    gives back exactly the original graph. *)
Theorem remove_node_undoes_add_node :
  forall (g : Graph) (n : node),
    ~ In n (nodes g) ->
    remove_node g n = Ok g /\ remove_node (add_node g n) n = Ok g.
Proof.
  intros g n Hn. apply dict_get_None in Hn. split.
  - unfold remove_node. now rewrite Hn.
  - unfold remove_node, add_node, dict_setdefault, dict_mem. rewrite Hn.
    cbn [adj]. rewrite dict_get_set_eq. cbn [dict_keys map remove_node_loop bind].
    unfold dict_del, dict_mem. rewrite dict_get_set_eq. cbn [bind].
    rewrite dict_pop_set_new by assumption. now rewrite graph_eta.
Qed.

Lemma remove_node_undoes_add_node_witness :
  remove_node switch_topo "H9" = Ok switch_topo /\
  remove_node (add_node switch_topo "H9") "H9" = Ok switch_topo.
Proof.
  apply (remove_node_undoes_add_node switch_topo "H9").
  vm_compute. intuition discriminate.
Defined.

Lemma filter_absent (n : node) (l : list node) :
  ~ In n l -> filter (fun x => negb (String.eqb x n)) l = l.
Proof.
  induction l as [|a l IH]; simpl; [reflexivity|]. intros H.
  destruct (String.eqb_spec a n) as [->|_]; [tauto|].
  simpl. rewrite IH; tauto.
Qed.

(** X6: on a graph built by the mutators, [remove_node(n)] returns a graph
    whose node list is the old one without [n], in the same order, and in
    which every link between two other nodes is as before. *)
Theorem remove_node_keeps_other_links :
  forall (g : Graph) (n : node),
    well_formed g ->
    exists g',
      remove_node g n = Ok g' /\
      nodes g' = filter (fun x => negb (String.eqb x n)) (nodes g) /\
      forall x y, x <> n -> y <> n -> adj_get g' x y = adj_get g x y.
Proof.
  intros g n Hwf.
  destruct (remove_node_spec g n Hwf) as (g' & E & _ & Hn & _ & _ & Hkeep).
  exists g'. split; [exact E|]. split; [|exact Hkeep].
  unfold remove_node in E.
  destruct (dict_get (adj g) n) as [nb|] eqn:En.
  - destruct (remove_node_loop_spec n (dict_keys nb) (adj g))
      as (a1 & E1 & K1 & _).
    { destruct Hwf as [[_ H] _]. eauto. }
    { intros x Hx. apply dict_key_get in Hx as [w Hw]. exists w.
      destruct Hwf as [_ Hsym]. rewrite graph_eta. apply Hsym.
      unfold adj_get. now rewrite En. }
    rewrite E1 in E. cbn [bind] in E. unfold dict_del in E.
    destruct (dict_mem a1 n); cbn [bind] in E; [|discriminate].
    injection E as <-. unfold nodes. cbn [adj].
    now rewrite dict_keys_pop, K1.
  - injection E as <-. symmetry. apply filter_absent.
    now apply dict_get_None.
Qed.

Lemma remove_node_keeps_other_links_witness :
  exists g',
    remove_node switch_topo "S2" = Ok g' /\
    nodes g' = ["S1"; "S3"; "S4"] /\
    adj_get g' "S3" "S4" = Some 1.
Proof.
  destruct (remove_node_keeps_other_links switch_topo "S2")
    as (g' & E & Hn & Hk).
  - apply well_formedb_sound. vm_compute. reflexivity.
  - exists g'. split; [exact E|]. split; [exact Hn|].
    rewrite Hk by discriminate. reflexivity.
Defined.

(** X7: between two nodes of the graph that are not linked,
    [add_link(u, v, w)] followed by [remove_link(u, v)] gives back exactly
    the original graph. *)
Theorem remove_link_undoes_add_link :
  forall (g : Graph) (u v : node) (w : Z),
    In u (nodes g) -> In v (nodes g) ->
    adj_get g u v = None -> adj_get g v u = None ->
    exists g1, add_link g u v w = Ok g1 /\ remove_link g1 u v = g.
Proof.
  intros g u v w Hu Hv Huv Hvu.
  destruct (dict_key_get _ _ Hu) as [nbu Enu].
  destruct (dict_key_get _ _ Hv) as [nbv Env].
  assert (Hnu : dict_get nbu v = None)
    by (unfold adj_get in Huv; now rewrite Enu in Huv).
  assert (Hnv : dict_get nbv u = None)
    by (unfold adj_get in Hvu; now rewrite Env in Hvu).
  rewrite (add_link_explicit g u v w nbu nbv Enu Env).
  eexists. split; [reflexivity|].
  unfold remove_link, pop_weight. cbn [adj].
  destruct (String.eqb_spec u v) as [<-|Hne].
  - rewrite dict_get_set_eq, dict_pop_set_new by assumption.
    rewrite dict_set_set, (dict_set_same _ _ _ Enu), Enu.
    rewrite (dict_pop_absent _ _ Hnu), (dict_set_same _ _ _ Enu).
    apply graph_eta.
  - rewrite (dict_get_set_neq _ v u) by congruence.
    rewrite dict_get_set_eq, dict_pop_set_new by assumption.
    rewrite (dict_set_comm (dict_set (adj g) u (dict_set nbu v w)) v u)
      by (try congruence; rewrite dict_keys_set_mem; assumption).
    rewrite dict_set_set, (dict_set_same _ _ _ Enu).
    rewrite dict_get_set_eq, dict_pop_set_new by assumption.
    rewrite dict_set_set, (dict_set_same _ _ _ Env).
    apply graph_eta.
Qed.

Lemma remove_link_undoes_add_link_witness :
  exists g1,
    add_link switch_topo "S2" "S3" 7 = Ok g1 /\
    remove_link g1 "S2" "S3" = switch_topo.
Proof.
  apply (remove_link_undoes_add_link switch_topo "S2" "S3" 7).
  - vm_compute. tauto.
  - vm_compute. tauto.
  - reflexivity.
  - reflexivity.
Defined.

(** * Further properties of the shortest-path engine *)

Lemma heappop_single x : heappop [x] = Some (x, []).
Proof.
  unfold heappop. cbn [least remove_one].
  assert (H : item_eqb x x = true) by now apply item_eqb_eq.
  now rewrite H.
Qed.

Lemma mem_node_false x l : ~ In x l -> mem_node x l = false.
Proof.
  intros H. destruct (mem_node x l) eqn:E; [|reflexivity].
  apply mem_node_In in E. contradiction.
Qed.

Lemma unknown_source_dist g src :
  ~ In src (nodes g) ->
  init_dist g src = map (fun n => (n, Inf)) (nodes g) ++ [(src, Fin 0)] /\
  dict_get (init_dist g src) src = Some (Fin 0) /\
  (forall x, x <> src ->
     dict_get (init_dist g src) x
     = if mem_node x (nodes g) then Some Inf else None).
Proof.
  intros Hs. unfold init_dist. split; [|split].
  - apply dict_set_new. rewrite dict_get_const. now rewrite mem_node_false.
  - apply dict_get_set_eq.
  - intros x Hx. rewrite dict_get_set_neq by congruence. apply dict_get_const.
Qed.

Lemma unknown_source_loop g src fuel :
  ~ In src (nodes g) -> (2 <= fuel)%nat ->
  sp_loop fuel g (mkSp (init_dist g src) (init_prev g) [(0, src)])
  = Ok (init_dist g src, init_prev g).
Proof.
  intros Hs Hfuel. destruct fuel as [|[|fuel]]; try lia.
  destruct (unknown_source_dist g src Hs) as (_ & Hget & _).
  cbn [sp_loop sp_pq sp_dist sp_prev]. rewrite heappop_single.
  unfold dict_lookup. rewrite Hget. cbn [bind int_gt].
  rewrite Z.ltb_irrefl.
  assert (Hnb : neighbors g src = []).
  { unfold neighbors, dict_get_default.
    apply dict_get_None in Hs. now rewrite Hs. }
  rewrite Hnb. cbn [relax bind]. destruct fuel; reflexivity.
Qed.

(** X8: for a source that is not a node, on any graph and whatever the
    weights, [compute_shortest_paths(src)] returns after one iteration: every
    node is at distance [inf] with predecessor [None], and [dist] (not
    [prev]) gets the extra key [src] with distance 0 at its end. *)
Theorem shortest_paths_unknown_source :
  forall (g : Graph) (src : node) (fuel : nat),
    ~ In src (nodes g) -> (2 <= fuel)%nat ->
    compute_shortest_paths fuel g src
    = Ok (map (fun n => (n, Inf)) (nodes g) ++ [(src, Fin 0)],
          map (fun n => (n, @None node)) (nodes g)).
Proof.
  intros g src fuel Hs Hfuel. unfold compute_shortest_paths.
  rewrite (unknown_source_loop g src fuel Hs Hfuel).
  destruct (unknown_source_dist g src Hs) as (-> & _). reflexivity.
Qed.

Lemma shortest_paths_unknown_source_witness :
  compute_shortest_paths 2 split_topo "X"
  = Ok ([("A", Inf); ("B", Inf); ("C", Inf); ("D", Inf); ("X", Fin 0)],
        [("A", None); ("B", None); ("C", None); ("D", None)]).
Proof.
  apply (shortest_paths_unknown_source split_topo "X" 2).
  - vm_compute. intuition discriminate.
  - lia.
Defined.

(** X9: [compute_path(src, dst)] with a source that is not a node returns
    the unreachable result when [dst] is a node and raises KeyError when
    [dst] is not a node, [dst = src] included; this holds on any graph and
    whatever the weights. *)
Theorem compute_path_unknown_source_cases :
  forall (g : Graph) (src dst : node) (fuel : nat),
    ~ In src (nodes g) -> (2 <= fuel)%nat ->
    (In dst (nodes g) -> compute_path fuel g src dst = Ok None) /\
    (~ In dst (nodes g) -> compute_path fuel g src dst = Raise KeyError).
Proof.
  intros g src dst fuel Hs Hfuel. unfold compute_path, compute_shortest_paths.
  rewrite (unknown_source_loop g src fuel Hs Hfuel). cbn [bind].
  destruct (unknown_source_dist g src Hs) as (_ & Hsrc & Hoth).
  split; intros Hd.
  - assert (dst <> src) by (intros ->; contradiction).
    unfold dict_lookup. rewrite Hoth by assumption.
    apply mem_node_In in Hd. now rewrite Hd.
  - unfold dict_lookup. destruct (string_dec dst src) as [->|Hne].
    + rewrite Hsrc. cbn [bind is_inf].
      destruct fuel as [|fuel]; [lia|]. cbn [walk_prev].
      unfold dict_lookup, init_prev. rewrite dict_get_const.
      now rewrite mem_node_false.
    + rewrite Hoth by assumption. now rewrite mem_node_false.
Qed.

Lemma compute_path_unknown_source_cases_witness :
  compute_path 2 split_topo "X" "A" = Ok None /\
  compute_path 2 split_topo "X" "Y" = Raise KeyError.
Proof.
  assert (Hx : ~ In "X" (nodes split_topo))
    by (vm_compute; intuition discriminate).
  split.
  - apply (compute_path_unknown_source_cases split_topo "X" "A" 2 Hx);
      [lia|vm_compute; tauto].
  - apply (compute_path_unknown_source_cases split_topo "X" "Y" 2 Hx);
      [lia|vm_compute; intuition discriminate].
Defined.

(** ** Runs on arbitrary weights *)

Lemma remove_one_In m l e : In e (remove_one m l) -> In e l.
Proof.
  induction l as [|y l IH]; simpl; [tauto|].
  destruct (item_eqb y m); [tauto|]. intros [H|H]; auto.
Qed.

Lemma remove_one_keeps m l e : In e l -> e = m \/ In e (remove_one m l).
Proof.
  induction l as [|y l IH]; simpl; [tauto|].
  destruct (item_eqb y m) eqn:E.
  - apply item_eqb_eq in E. subst y. intros [H|H]; auto.
  - intros [H|H]; [right; now left|].
    destruct (IH H); [now left|right; now right].
Qed.

Lemma heappop_bag pq m pq' :
  heappop pq = Some (m, pq') ->
  In m pq /\
  (forall e, In e pq' -> In e pq) /\
  (forall e, In e pq -> e = m \/ In e pq').
Proof.
  destruct pq as [|x l]; [discriminate|]. unfold heappop. cbv zeta.
  intros H. assert (Hm : least x l = m) by congruence. rewrite Hm in H.
  assert (Hr : remove_one m (x :: l) = pq') by congruence. subst pq'.
  split; [rewrite <- Hm; apply least_In|]. split.
  - apply remove_one_In.
  - apply remove_one_keeps.
Qed.

Lemma relax_effect u d : forall nbrs st,
  (forall y w, In (y, w) nbrs -> dict_get (sp_dist st) y <> None) ->
  exists st',
    relax u d nbrs st = Ok st' /\
    (forall x, dict_get (sp_dist st') x = dict_get (sp_dist st) x \/
               exists nd, dict_get (sp_dist st') x = Some (Fin nd) /\
                          In (nd, x) (sp_pq st')) /\
    (forall e, In e (sp_pq st) -> In e (sp_pq st')) /\
    (forall x dx, dict_get (sp_dist st) x = Some (Fin dx) ->
       exists dx', dict_get (sp_dist st') x = Some (Fin dx') /\ dx' <= dx) /\
    (forall y w, In (y, w) nbrs ->
       exists dy, dict_get (sp_dist st') y = Some (Fin dy) /\ dy <= d + w) /\
    (forall x, dict_get (sp_dist st) x <> None ->
               dict_get (sp_dist st') x <> None) /\
    (forall d' x, In (d', x) (sp_pq st') ->
       In (d', x) (sp_pq st) \/ dict_get (sp_dist st') x <> None).
Proof.
  induction nbrs as [|[y w] rest IH]; intros st Hkeys.
  - exists st. cbn [relax]. split; [reflexivity|].
    repeat split; auto. intros x dx H. exists dx. split; [assumption|lia].
    intros y w [].
  - cbn [relax].
    destruct (dict_get (sp_dist st) y) as [dy|] eqn:Ey;
      [|exfalso; apply (Hkeys y w); [now left|assumption]].
    unfold dict_lookup. rewrite Ey. cbn [bind].
    destruct (int_lt (d + w) dy) eqn:Elt.
    + set (st1 := mkSp (dict_set (sp_dist st) y (Fin (d + w)))
                       (dict_set (sp_prev st) y (Some u))
                       (heappush (sp_pq st) (d + w, y))).
      destruct (IH st1) as (st' & E & R1 & R2 & R3 & R4 & R5 & R6).
      { intros y' w' H. cbn [st1 sp_dist]. rewrite dict_get_set.
        destruct (String.eqb y y'); [discriminate|].
        apply (Hkeys y' w'). now right. }
      assert (Hy1 : In (d + w, y) (sp_pq st')) by (apply R2; now left).
      exists st'. split; [exact E|]. split; [|split; [|split; [|split; [|split]]]].
      * intros x. destruct (R1 x) as [H|H]; [|now right].
        cbn [st1 sp_dist] in H. rewrite dict_get_set in H.
        destruct (String.eqb_spec y x) as [Heq|_]; [|now left].
        subst x. right. exists (d + w). auto.
      * intros e He. apply R2. now right.
      * intros x dx Hx. destruct (String.eqb_spec y x) as [Heq|Hne].
        -- subst x. destruct (R3 y (d + w)) as (dx' & Hx' & Hle).
           { cbn [st1 sp_dist]. apply dict_get_set_eq. }
           exists dx'. split; [assumption|].
           rewrite Ey in Hx. injection Hx as ->. simpl in Elt.
           apply Z.ltb_lt in Elt. lia.
        -- apply R3. cbn [st1 sp_dist]. now rewrite dict_get_set_neq.
      * intros y' w' [H|H]; [|now apply R4].
        injection H as <- <-.
        destruct (R3 y (d + w)) as (dx' & Hx' & Hle).
        { cbn [st1 sp_dist]. apply dict_get_set_eq. }
        exists dx'. auto.
      * intros x Hx. apply R5. cbn [st1 sp_dist]. rewrite dict_get_set.
        destruct (String.eqb y x); [discriminate|assumption].
      * intros d' x Hin. destruct (R6 d' x Hin) as [[H|H]|H]; auto.
        injection H as <- <-. right. apply R5. cbn [st1 sp_dist].
        rewrite dict_get_set_eq. discriminate.
    + destruct dy as [dy|]; [|discriminate]. simpl in Elt.
      apply Z.ltb_ge in Elt.
      destruct (IH st) as (st' & E & R1 & R2 & R3 & R4 & R5 & R6).
      { intros y' w' H. apply (Hkeys y' w'). now right. }
      exists st'. split; [exact E|]. repeat split; auto.
      intros y' w' [H|H]; [|now apply R4].
      injection H as <- <-.
      destruct (R3 y dy Ey) as (dx' & Hx' & Hle).
      exists dx'. split; [assumption|lia].
Qed.

Section ArbitraryWeights.
Variable g : Graph.
Hypothesis Hwf : well_formed g.

Lemma neighbors_have_keys st u :
  sp_keys g st ->
  forall y w, In (y, w) (neighbors g u) -> dict_get (sp_dist st) y <> None.
Proof.
  intros [Kn _] y w H. apply Kn.
  eapply adj_node_r; [exact Hwf|]. eapply neighbors_adj; eauto.
Qed.

Lemma sp_keys_pop dist prev pq m pq' :
  sp_keys g (mkSp dist prev pq) -> heappop pq = Some (m, pq') ->
  sp_keys g (mkSp dist prev pq').
Proof.
  intros [Kn Kp] H. apply heappop_bag in H as (_ & Hsub & _).
  split; cbn [sp_dist sp_pq] in *; auto.
  intros d x Hin. eapply Kp. apply Hsub. exact Hin.
Qed.

Lemma sp_keys_relax u d st st' :
  sp_keys g st -> relax u d (neighbors g u) st = Ok st' -> sp_keys g st'.
Proof.
  intros K E.
  destruct (relax_effect u d (neighbors g u) st (neighbors_have_keys st u K))
    as (st1 & E1 & _ & _ & _ & _ & R5 & R6).
  rewrite E in E1. injection E1 as <-. destruct K as [Kn Kp]. split.
  - intros y Hy. apply R5. auto.
  - intros d' x Hin. destruct (R6 d' x Hin) as [H|H]; [|assumption].
    apply R5. eapply Kp; eauto.
Qed.

Lemma sp_loop_never_raises : forall fuel st e,
  sp_keys g st -> sp_loop fuel g st <> Raise e.
Proof.
  induction fuel as [|fuel IH]; intros [dist prev pq] e K; [discriminate|].
  cbn [sp_loop sp_dist sp_prev sp_pq].
  destruct (heappop pq) as [[[d u] pq']|] eqn:Epop; [|discriminate].
  pose proof (sp_keys_pop _ _ _ _ _ K Epop) as K'.
  destruct (heappop_bag _ _ _ Epop) as (Hin & _).
  destruct (dict_get dist u) as [du|] eqn:Eu;
    [|exfalso; eapply (keys_pq _ _ K); eauto].
  unfold dict_lookup. rewrite Eu. cbn [bind].
  destruct (int_gt d du); [now apply IH|].
  destruct (relax_effect u d (neighbors g u) (mkSp dist prev pq')
              (neighbors_have_keys _ u K')) as (st' & E & _).
  rewrite E. cbn [bind]. apply IH. eapply sp_keys_relax; eauto.
Qed.

Lemma init_keys src :
  sp_keys g (mkSp (init_dist g src) (init_prev g) [(0, src)]).
Proof.
  split; cbn [sp_dist sp_pq]; unfold init_dist.
  - intros y Hy. rewrite dict_get_set.
    destruct (String.eqb src y); [discriminate|].
    rewrite dict_get_const. apply mem_node_In in Hy. rewrite Hy. discriminate.
  - intros d x [[= <- <-]|[]]. rewrite dict_get_set_eq. discriminate.
Qed.

Section NegativeLink.
Variables s v : node.
Variable w : Z.
Hypothesis Hsv : adj_get g s v = Some w.
Hypothesis Hneg : w < 0.

Lemma neg_inv_nonempty st : neg_inv s v st -> sp_pq st <> [].
Proof.
  intros [[ds Hs] Ls Lv] Hnil.
  destruct (dict_get (sp_dist st) v) as [[dv|]|] eqn:Ev.
  - destruct (Z.le_gt_cases ds dv) as [Hle|Hgt].
    + assert (Hin : In (ds, s) (sp_pq st)).
      { apply Ls; auto. intros d' H. rewrite Ev in H. injection H as <-. lia. }
      rewrite Hnil in Hin. destruct Hin.
    + assert (Hin : In (dv, v) (sp_pq st)).
      { apply Lv; auto. intros d' H. rewrite Hs in H. injection H as <-. lia. }
      rewrite Hnil in Hin. destruct Hin.
  - assert (Hin : In (ds, s) (sp_pq st)).
    { apply Ls; auto. intros d' H. rewrite Ev in H. discriminate. }
    rewrite Hnil in Hin. destruct Hin.
  - assert (Hin : In (ds, s) (sp_pq st)).
    { apply Ls; auto. intros d' H. rewrite Ev in H. discriminate. }
    rewrite Hnil in Hin. destruct Hin.
Qed.

Lemma live_after_relax dist prev pq pq' d u st' x o :
  adj_get g x o = Some w ->
  live (mkSp dist prev pq) x o ->
  heappop pq = Some ((d, u), pq') ->
  sp_keys g (mkSp dist prev pq') ->
  relax u d (neighbors g u) (mkSp dist prev pq') = Ok st' ->
  live st' x o.
Proof.
  intros Hxo Hlive Epop K E.
  destruct (relax_effect u d (neighbors g u) (mkSp dist prev pq')
              (neighbors_have_keys _ u K))
    as (st1 & E1 & R1 & R2 & R3 & R4 & _).
  rewrite E in E1. injection E1 as <-.
  cbn [sp_dist sp_pq] in *.
  destruct (heappop_bag _ _ _ Epop) as (_ & _ & Hkeep).
  intros dx Hdx Hlow.
  destruct (R1 x) as [Hsame|(nd & Hnd & Hin)].
  2:{ rewrite Hdx in Hnd. injection Hnd as <-. exact Hin. }
  rewrite Hdx in Hsame. symmetry in Hsame.
  assert (Hold : In (dx, x) pq).
  { apply Hlive; cbn [sp_dist]; [assumption|].
    intros d' Ho. destruct (R3 o d' Ho) as (d'' & Ho' & Hle).
    specialize (Hlow d'' Ho'). lia. }
  destruct (Hkeep _ Hold) as [Heq|Hin]; [|now apply R2].
  injection Heq as <- <-.
  destruct (R4 o w (adj_neighbors _ _ _ _ Hxo)) as (dy & Hy & Hle).
  specialize (Hlow dy Hy). lia.
Qed.

Lemma neg_loop_runs_forever : forall fuel st,
  sp_keys g st -> neg_inv s v st -> sp_loop fuel g st = OutOfFuel.
Proof.
  induction fuel as [|fuel IH]; intros [dist prev pq] K N; [reflexivity|].
  cbn [sp_loop sp_dist sp_prev sp_pq].
  destruct (heappop pq) as [[[d u] pq']|] eqn:Epop.
  2:{ apply heappop_None in Epop. exfalso.
      now apply (neg_inv_nonempty _ N). }
  pose proof (sp_keys_pop _ _ _ _ _ K Epop) as K'.
  destruct (heappop_bag _ _ _ Epop) as (Hin & Hsub & Hkeep).
  destruct (dict_get dist u) as [du|] eqn:Eu;
    [|exfalso; eapply (keys_pq _ _ K); eauto].
  unfold dict_lookup. rewrite Eu. cbn [bind].
  destruct N as [[ds Hs] Ls Lv]. cbn [sp_dist sp_pq] in *.
  destruct (int_gt d du) eqn:Egt.
  - apply IH; [exact K'|].
    assert (Hstale : forall x o, live (mkSp dist prev pq) x o ->
                                 live (mkSp dist prev pq') x o).
    { intros x o L dx Hdx Hlow. cbn [sp_dist sp_pq] in *.
      destruct (Hkeep _ (L dx Hdx Hlow)) as [Heq|H]; [|exact H].
      injection Heq as <- <-. rewrite Eu in Hdx. injection Hdx as ->.
      simpl in Egt. apply Z.ltb_lt in Egt. lia. }
    split; cbn [sp_dist]; eauto.
  - destruct (relax_effect u d (neighbors g u) (mkSp dist prev pq')
                (neighbors_have_keys _ u K'))
      as (st' & E & _ & _ & R3 & _).
    rewrite E. cbn [bind]. apply IH; [eapply sp_keys_relax; eauto|].
    split.
    + destruct (R3 s ds Hs) as (ds' & Hs' & _). eauto.
    + eapply live_after_relax; eauto.
    + eapply live_after_relax; eauto. now apply Hwf.
Qed.

Lemma negative_link_diverges fuel :
  compute_shortest_paths fuel g s = OutOfFuel.
Proof.
  unfold compute_shortest_paths. apply neg_loop_runs_forever.
  - apply init_keys.
  - assert (Hget : forall x dx,
               dict_get (init_dist g s) x = Some (Fin dx) -> x = s /\ dx = 0).
    { intros x dx. unfold init_dist. rewrite dict_get_set.
      destruct (String.eqb_spec s x) as [->|_]; [intros [= <-]; auto|].
      rewrite dict_get_const. destruct (mem_node x (nodes g)); discriminate. }
    split; cbn [sp_dist sp_pq].
    + exists 0. unfold init_dist. apply dict_get_set_eq.
    + intros dx H _. apply Hget in H as [_ ->]. now left.
    + intros dx H _. apply Hget in H as [-> ->]. now left.
Qed.
End NegativeLink.
End ArbitraryWeights.

(** X10: on a graph built by the mutators, [compute_shortest_paths] never
    raises, whatever the source (a node or not) and whatever the weights:
    every key it reads is there.  It returns or it is still running. *)
Theorem shortest_paths_never_raise :
  forall (g : Graph) (src : node) (fuel : nat),
    well_formed g ->
    compute_shortest_paths fuel g src = OutOfFuel \/
    exists dist prev, compute_shortest_paths fuel g src = Ok (dist, prev).
Proof.
  intros g src fuel Hwf.
  destruct (compute_shortest_paths fuel g src) as [[dist prev]|e|] eqn:E.
  - right. eauto.
  - exfalso. unfold compute_shortest_paths in E.
    eapply (sp_loop_never_raises g Hwf); [|exact E]. apply init_keys.
  - now left.
Qed.

Lemma shortest_paths_never_raise_witness :
  compute_shortest_paths 1 negative_topo "A" = OutOfFuel \/
  exists dist prev, compute_shortest_paths 1 negative_topo "A" = Ok (dist, prev).
Proof.
  apply (shortest_paths_never_raise negative_topo "A" 1).
  apply well_formedb_sound. vm_compute. reflexivity.
Defined.

(** X11: when a link of negative weight leaves the source, the loop of
    [compute_shortest_paths] never ends: whatever the fuel the run is still
    going, and so is [compute_path] from that source. *)
Theorem negative_link_runs_forever :
  forall (g : Graph) (s v dst : node) (w : Z) (fuel : nat),
    well_formed g -> adj_get g s v = Some w -> w < 0 ->
    compute_shortest_paths fuel g s = OutOfFuel /\
    compute_path fuel g s dst = OutOfFuel.
Proof.
  intros g s v dst w fuel Hwf Hsv Hneg.
  assert (E : compute_shortest_paths fuel g s = OutOfFuel)
    by (eapply negative_link_diverges; eauto).
  split; [exact E|]. unfold compute_path. now rewrite E.
Qed.

Lemma negative_link_runs_forever_witness :
  compute_shortest_paths 1000 negative_topo "A" = OutOfFuel /\
  compute_path 1000 negative_topo "A" "B" = OutOfFuel.
Proof.
  apply (negative_link_runs_forever negative_topo "A" "B" "B" (-1) 1000).
  - apply well_formedb_sound. vm_compute. reflexivity.
  - reflexivity.
  - lia.
Defined.

Lemma all_dists_diverges g s fuel :
  well_formed g ->
  compute_shortest_paths fuel g s = OutOfFuel ->
  forall sws acc, In s sws -> all_dists fuel g sws acc = OutOfFuel.
Proof.
  intros Hwf Hs. induction sws as [|sw rest IH]; intros acc Hin; [destruct Hin|].
  cbn [all_dists].
  destruct (string_dec sw s) as [->|Hne]; [now rewrite Hs|].
  destruct Hin as [?|Hin]; [contradiction|].
  destruct (compute_shortest_paths fuel g sw) as [[dist prev]|e|] eqn:E;
    cbn [bind]; [now apply IH| |reflexivity].
  exfalso. unfold compute_shortest_paths in E.
  eapply (sp_loop_never_raises g Hwf); [|exact E]. apply init_keys.
Qed.

(** X12: a link of negative weight anywhere in the topology makes
    [install_flows] run forever, since it computes shortest paths from every
    node: whatever the fuel, the rebuild is still going.  The command
    [add_link u v w] accepts such a weight. *)
Theorem negative_link_blocks_install_flows :
  forall (rng : Type) (shuffle : rng -> list node -> list node * rng)
         (fuel : nat) (c : controller) (r : rng) (s v : node) (w : Z),
    well_formed (topo c) -> adj_get (topo c) s v = Some w -> w < 0 ->
    install_flows shuffle fuel c r = OutOfFuel.
Proof.
  intros rng shuffle fuel c r s v w Hwf Hsv Hneg. unfold install_flows.
  rewrite (all_dists_diverges (topo c) s fuel Hwf).
  - reflexivity.
  - eapply negative_link_diverges; eauto.
  - eapply adj_node_l; eauto.
Qed.

Lemma negative_link_blocks_install_flows_witness :
  install_flows keep_order 1000
    (mkController negative_topo [] [] [("H2", "S4")]) tt = OutOfFuel.
Proof.
  apply (negative_link_blocks_install_flows unit keep_order 1000
           (mkController negative_topo [] [] [("H2", "S4")]) tt "A" "B" (-1)).
  - apply well_formedb_sound. vm_compute. reflexivity.
  - reflexivity.
  - lia.
Defined.

(** ** Distances, predecessors and paths on non-negative weights *)

Lemma relax_prev_none u d : forall nbrs st st',
  relax u d nbrs st = Ok st' -> prev_none_at_inf st -> prev_none_at_inf st'.
Proof.
  induction nbrs as [|[y w] rest IH]; intros st st' E P; cbn [relax] in E.
  - now injection E as <-.
  - destruct (dict_lookup (sp_dist st) y) as [dy| |]; cbn [bind] in E;
      try discriminate.
    destruct (int_lt (d + w) dy); [|eapply IH; eauto].
    eapply IH; [exact E|]. intros x. cbn [sp_dist sp_prev].
    rewrite !dict_get_set. destruct (String.eqb y x); [discriminate|apply P].
Qed.

Lemma sp_loop_prev_none g : forall fuel st dist prev,
  sp_loop fuel g st = Ok (dist, prev) -> prev_none_at_inf st ->
  forall v, dict_get dist v = Some Inf -> dict_get prev v = Some None.
Proof.
  induction fuel as [|fuel IH]; intros st dist prev E P; [discriminate|].
  cbn [sp_loop] in E.
  destruct (heappop (sp_pq st)) as [[[d u] pq']|].
  - destruct (dict_lookup (sp_dist st) u) as [du| |]; cbn [bind] in E;
      try discriminate.
    destruct (int_gt d du); [eapply IH; eauto|].
    destruct (relax u d (neighbors g u) _) as [st'| |] eqn:Er; cbn [bind] in E;
      try discriminate.
    eapply IH; [exact E|]. eapply relax_prev_none; [exact Er|exact P].
  - injection E as <- <-. exact P.
Qed.

Lemma chain_functional g prev v l1 c1 :
  chain g prev v l1 c1 ->
  forall l2 c2, chain g prev v l2 c2 -> l1 = l2 /\ c1 = c2.
Proof.
  induction 1 as [s Hs|v u w l c Hv Hw Hc IH]; intros l2 c2 H2;
    inversion H2 as [s' Hs'|v' u' w' l' c' Hv' Hw' Hc']; subst;
    try congruence.
  - auto.
  - assert (u' = u) by congruence. subst u'.
    assert (w' = w) by congruence. subst w'.
    destruct (IH _ _ Hc') as [-> ->]. auto.
Qed.

Lemma chain_last_in g prev v l c :
  chain g prev v l c -> In (last l v) l.
Proof.
  induction 1 as [s Hs|v u w l c Hv Hw Hc IH]; [now left|].
  destruct (chain_head _ _ _ _ _ Hc) as [t ->].
  change (last (v :: u :: t) v) with (last (u :: t) v).
  rewrite (last_default (u :: t) v u) by discriminate. now right.
Qed.

Lemma chain_of_source g prev src l c :
  chain g prev src l c -> NoDup l -> last l src = src -> l = [src] /\ c = 0.
Proof.
  intros Hc Hnd Hlast. inversion Hc as [s Hs|v u w l' c' Hv Hw Hc']; subst;
    [auto|].
  exfalso. inversion Hnd as [|? ? Hni _]; subst. apply Hni.
  destruct (chain_head _ _ _ _ _ Hc') as [t ->].
  change (last (src :: u :: t) src) with (last (u :: t) src) in Hlast.
  rewrite (last_default (u :: t) src u) in Hlast by discriminate.
  rewrite <- Hlast. eapply chain_last_in; eauto.
Qed.

Section NonNegative.
Variable g : Graph.
Variable src : node.
Variable fuel : nat.
Hypothesis Hwf : well_formed g.
Hypothesis Hnn : nonneg_weights g.
Hypothesis Hsrc : In src (nodes g).
Hypothesis Hfuel : (fuel_bound g <= fuel)%nat.

Lemma compute_shortest_paths_final :
  exists dist prev done cur,
    compute_shortest_paths fuel g src = Ok (dist, prev) /\
    sp_inv g src (mkSp dist prev []) done cur [] /\
    sp_result g src dist prev /\
    (forall v, dict_get dist v = Some Inf -> dict_get prev v = Some None).
Proof.
  destruct (compute_shortest_paths_ok g src Hwf Hnn Hsrc fuel Hfuel)
    as (dist & prev & E & R).
  destruct (sp_loop_inv g src Hwf Hnn fuel _ [] src (init_inv g src Hsrc))
    as (dist' & prev' & done & cur & E' & I).
  { cbn [sp_pq]. unfold fuel_bound in Hfuel.
    change (remaining g []) with (degree_sum g). simpl. lia. }
  unfold compute_shortest_paths in E. rewrite E in E'.
  injection E' as <- <-.
  exists dist, prev, done, cur. repeat split; auto; try apply I; try apply R.
  eapply sp_loop_prev_none; [exact E|].
  intros v. cbn [sp_dist sp_prev]. unfold init_dist, init_prev.
  rewrite dict_get_set, !dict_get_const.
  destruct (String.eqb src v); [discriminate|].
  now destruct (mem_node v (nodes g)).
Qed.

Lemma compute_path_eval dist prev dst dd :
  compute_shortest_paths fuel g src = Ok (dist, prev) ->
  sp_result g src dist prev ->
  dict_get dist dst = Some dd ->
  match dd with
  | Inf => compute_path fuel g src dst = Ok None
  | Fin d =>
      exists l, chain g prev dst l d /\ NoDup l /\ incl l (nodes g) /\
                last l dst = src /\
                compute_path fuel g src dst = Ok (Some (rev l))
  end.
Proof.
  intros E [K S0 RX CH] Hdd. unfold compute_path. rewrite E. cbn [bind].
  unfold dict_lookup. rewrite Hdd. cbn [bind].
  destruct dd as [d|]; [|reflexivity]. cbn [is_inf].
  destruct (CH dst d Hdd) as (l & Hc & Hnd & Hincl & Hlast).
  exists l. repeat split; auto.
  assert (Hlen : (List.length l <= fuel)%nat).
  { pose proof (NoDup_incl_length Hnd Hincl). unfold fuel_bound in Hfuel. lia. }
  now rewrite (walk_prev_chain _ _ _ _ _ Hc fuel [] Hlen).
Qed.
End NonNegative.

Lemma path_weight_rev g :
  symmetric g ->
  forall p c, path_weight g p = Some c -> path_weight g (rev p) = Some c.
Proof.
  intros Hsym. induction p as [|a [|b p'] IH]; intros c Hp.
  - exact Hp.
  - exact Hp.
  - change (path_weight g (a :: b :: p'))
      with (match adj_get g a b, path_weight g (b :: p') with
            | Some w0, Some c0 => Some (w0 + c0)
            | _, _ => None
            end) in Hp.
    destruct (adj_get g a b) as [w|] eqn:Hab; [|discriminate].
    destruct (path_weight g (b :: p')) as [c'|] eqn:Hp'; [|discriminate].
    injection Hp as <-.
    change (rev (a :: b :: p')) with (rev (b :: p') ++ [a]).
    rewrite (path_weight_snoc g (rev (b :: p')) b a w c').
    + f_equal. lia.
    + simpl. now rewrite last_last.
    + simpl. intros H. now destruct (rev p').
    + now apply IH.
    + now apply Hsym.
Qed.

(** X13: in an undirected topology distances are symmetric: on a graph
    built by the mutators with non-negative weights, the distance of [t] in
    the map computed from [s] equals the distance of [s] in the map computed
    from [t], infinite distances included. *)
Theorem distances_are_symmetric :
  forall (g : Graph) (s t : node) (fuel : nat),
    well_formed g -> nonneg_weights g ->
    In s (nodes g) -> In t (nodes g) ->
    (fuel_bound g <= fuel)%nat ->
    exists ds ps dt pt d,
      compute_shortest_paths fuel g s = Ok (ds, ps) /\
      compute_shortest_paths fuel g t = Ok (dt, pt) /\
      dict_get ds t = Some d /\ dict_get dt s = Some d.
Proof.
  intros g s t fuel Hwf Hnn Hs Ht Hfuel.
  destruct (compute_shortest_paths_ok g s Hwf Hnn Hs fuel Hfuel)
    as (ds & ps & Es & Rs).
  destruct (compute_shortest_paths_ok g t Hwf Hnn Ht fuel Hfuel)
    as (dt & pt & Et & Rt).
  assert (Hhalf : forall a b da pa db pb x,
             sp_result g a da pa -> sp_result g b db pb ->
             dict_get da b = Some (Fin x) ->
             exists y, dict_get db a = Some (Fin y) /\ y <= x).
  { intros a b da pa db pb x Ra Rb Hx.
    destruct (res_chain _ _ _ _ Ra b x Hx) as (l & Hc & _ & _ & Hlast).
    destruct (chain_path _ _ _ _ _ Hc) as (Hp & _ & _).
    apply (path_weight_rev g (proj2 Hwf)) in Hp. rewrite rev_involutive in Hp.
    destruct (chain_head _ _ _ _ _ Hc) as [tl' ->].
    destruct (relaxed_path_bound g db (res_relaxed _ _ _ _ Rb)
                (b :: tl') b 0 x eq_refl (res_src _ _ _ _ Rb) Hp)
      as (dz & Hz & Hle).
    rewrite Hlast in Hz. exists dz. split; [assumption|lia]. }
  destruct (dict_key_get ds t) as [x Hx]; [now rewrite (res_keys _ _ _ _ Rs)|].
  destruct (dict_key_get dt s) as [y Hy]; [now rewrite (res_keys _ _ _ _ Rt)|].
  exists ds, ps, dt, pt, x. split; [exact Es|]. split; [exact Et|].
  split; [exact Hx|]. rewrite Hy. f_equal.
  destruct x as [x|], y as [y|]; auto.
  - destruct (Hhalf _ _ _ _ _ _ _ Rs Rt Hx) as (y' & Hy' & H1).
    destruct (Hhalf _ _ _ _ _ _ _ Rt Rs Hy) as (x' & Hx' & H2).
    rewrite Hy in Hy'. rewrite Hx in Hx'.
    injection Hy' as <-. injection Hx' as <-. f_equal. lia.
  - destruct (Hhalf _ _ _ _ _ _ _ Rs Rt Hx) as (y' & Hy' & _). congruence.
  - destruct (Hhalf _ _ _ _ _ _ _ Rt Rs Hy) as (x' & Hx' & _). congruence.
Qed.

Lemma distances_are_symmetric_witness :
  exists ds ps dt pt,
    compute_shortest_paths 22 main_topo "H1" = Ok (ds, ps) /\
    compute_shortest_paths 22 main_topo "S4" = Ok (dt, pt) /\
    dict_get ds "S4" = Some (Fin 3) /\ dict_get dt "H1" = Some (Fin 3).
Proof.
  destruct (distances_are_symmetric main_topo "H1" "S4" 22)
    as (ds & ps & dt & pt & d & Es & Et & Hs & Ht).
  - apply well_formedb_sound. vm_compute. reflexivity.
  - apply nonneg_weightsb_sound. vm_compute. reflexivity.
  - vm_compute. tauto.
  - vm_compute. tauto.
  - vm_compute. lia.
  - exists ds, ps, dt, pt. split; [exact Es|]. split; [exact Et|].
    assert (Hd : d = Fin 3).
    { vm_compute in Es. injection Es as <- <-. vm_compute in Hs. congruence. }
    subst d. auto.
Defined.

(** X14: the predecessor map returned by [compute_shortest_paths] on
    non-negative weights: [prev] has the nodes as keys; a node at infinite
    distance has predecessor [None]; among the nodes at finite distance only
    the source has predecessor [None]; and any other predecessor [u] of [v]
    is linked to [v] with [dist[v] = dist[u] + weight(u, v)]. *)
Theorem predecessors_are_tight :
  forall (g : Graph) (src : node) (fuel : nat),
    well_formed g -> nonneg_weights g -> In src (nodes g) ->
    (fuel_bound g <= fuel)%nat ->
    exists dist prev,
      compute_shortest_paths fuel g src = Ok (dist, prev) /\
      dict_keys prev = nodes g /\
      forall v, In v (nodes g) ->
        exists dv pv,
          dict_get dist v = Some dv /\ dict_get prev v = Some pv /\
          match dv, pv with
          | Inf, None => True
          | Inf, Some _ => False
          | Fin d, None => v = src /\ d = 0
          | Fin d, Some u =>
              v <> src /\
              exists w du, adj_get g u v = Some w /\
                           dict_get dist u = Some (Fin du) /\ d = du + w
          end.
Proof.
  intros g src fuel Hwf Hnn Hs Hfuel.
  destruct (compute_shortest_paths_final g src fuel Hwf Hnn Hs Hfuel)
    as (dist & prev & done & cur & E & I & R & Pinf).
  destruct I as [K1 K2 S0 NN ND PQ DN RX PD CH]. cbn [sp_dist sp_prev sp_pq] in *.
  exists dist, prev. split; [exact E|]. split; [exact K2|].
  intros v Hv.
  destruct (dict_key_get dist v) as [dv Hdv]; [now rewrite K1|].
  destruct (dict_key_get prev v) as [pv Hpv]; [now rewrite K2|].
  exists dv, pv. split; [exact Hdv|]. split; [exact Hpv|].
  destruct dv as [d|].
  - destruct (CH v d Hdv) as (l & Hc & Hnd & Hincl & Hlast).
    pose proof Hc as Hc0. revert Hc0 Hnd Hincl Hlast.
    inversion Hc as [s' Hs' E1 E2 E3|v' u w l' c' Hv' Hw' Hc' E1 E2 E3];
      clear Hc; intros Hc Hnd Hincl Hlast.
    + rewrite Hs' in Hpv. injection Hpv as <-. simpl in Hlast. auto.
    + rewrite Hv' in Hpv. injection Hpv as <-.
      destruct (chain_head _ _ _ _ _ Hc') as [t ->]. split.
      * intros ->.
        destruct (chain_of_source _ _ _ _ _ Hc Hnd Hlast) as [Hl _].
        discriminate.
      * assert (Hu : In u done) by (apply Hincl; now left).
        destruct (DN u Hu) as (du & Hdu & _).
        destruct (CH u du Hdu) as (l2 & Hc2 & _).
        destruct (chain_functional _ _ _ _ _ Hc' _ _ Hc2) as [_ ->].
        exists w, du. auto.
  - rewrite (Pinf v Hdv) in Hpv. injection Hpv as <-. exact I.
Qed.

Lemma predecessors_are_tight_witness :
  exists dist prev,
    compute_shortest_paths 16 switch_topo "S1" = Ok (dist, prev) /\
    dict_keys prev = nodes switch_topo /\
    dict_get prev "S4" = Some (Some "S2").
Proof.
  destruct (predecessors_are_tight switch_topo "S1" 16)
    as (dist & prev & E & K & _).
  - apply well_formedb_sound. vm_compute. reflexivity.
  - apply nonneg_weightsb_sound. vm_compute. reflexivity.
  - vm_compute. tauto.
  - vm_compute. lia.
  - exists dist, prev. split; [exact E|]. split; [exact K|].
    vm_compute in E. injection E as <- <-. reflexivity.
Defined.

(** X15: on non-negative weights a path returned by [compute_path] visits
    no node twice and only nodes of the topology, so it has at most as many
    nodes as the topology; and [compute_path(s, s)] for a node [s] returns
    the one-node path. *)
Theorem compute_path_is_simple :
  forall (g : Graph) (src dst : node) (fuel : nat),
    well_formed g -> nonneg_weights g ->
    In src (nodes g) -> In dst (nodes g) ->
    (fuel_bound g <= fuel)%nat ->
    (forall p, compute_path fuel g src dst = Ok (Some p) ->
       NoDup p /\ incl p (nodes g) /\
       (List.length p <= List.length (nodes g))%nat) /\
    compute_path fuel g src src = Ok (Some [src]).
Proof.
  intros g src dst fuel Hwf Hnn Hs Hd Hfuel.
  destruct (compute_shortest_paths_ok g src Hwf Hnn Hs fuel Hfuel)
    as (dist & prev & E & R).
  split.
  - intros p Hp.
    destruct (dict_key_get dist dst) as [dd Hdd];
      [now rewrite (res_keys _ _ _ _ R)|].
    pose proof (compute_path_eval g src fuel Hfuel dist prev dst dd E R Hdd)
      as Hev.
    destruct dd as [d|]; [|congruence].
    destruct Hev as (l & _ & Hnd & Hincl & _ & Ep).
    rewrite Ep in Hp. injection Hp as <-.
    assert (Hnd' : NoDup (rev l)) by now apply NoDup_rev.
    assert (Hincl' : incl (rev l) (nodes g)).
    { intros x Hx. apply Hincl. now apply in_rev. }
    split; [exact Hnd'|]. split; [exact Hincl'|].
    now apply NoDup_incl_length.
  - pose proof (compute_path_eval g src fuel Hfuel dist prev src (Fin 0) E R
                  (res_src _ _ _ _ R)) as (l & Hc & Hnd & _ & Hlast & Ep).
    destruct (chain_of_source _ _ _ _ _ Hc Hnd Hlast) as [-> _].
    exact Ep.
Qed.

Lemma compute_path_is_simple_witness :
  compute_path 22 main_topo "H1" "H1" = Ok (Some ["H1"]).
Proof.
  apply (compute_path_is_simple main_topo "H1" "H1" 22).
  - apply well_formedb_sound. vm_compute. reflexivity.
  - apply nonneg_weightsb_sound. vm_compute. reflexivity.
  - vm_compute. tauto.
  - vm_compute. tauto.
  - vm_compute. lia.
Defined.

(** X16: on non-negative weights [compute_path(s, t)] returns the
    unreachable result exactly when [compute_path(t, s)] does. *)
Theorem unreachable_both_ways :
  forall (g : Graph) (s t : node) (fuel : nat),
    well_formed g -> nonneg_weights g ->
    In s (nodes g) -> In t (nodes g) ->
    (fuel_bound g <= fuel)%nat ->
    (compute_path fuel g s t = Ok None <-> compute_path fuel g t s = Ok None).
Proof.
  intros g s t fuel Hwf Hnn Hs Ht Hfuel.
  assert (Hhalf : forall a b, In a (nodes g) -> In b (nodes g) ->
             compute_path fuel g a b = Ok None ->
             compute_path fuel g b a = Ok None).
  { intros a b Ha Hb Hab.
    destruct (compute_shortest_paths_ok g a Hwf Hnn Ha fuel Hfuel)
      as (da & pa & Ea & Ra).
    destruct (compute_shortest_paths_ok g b Hwf Hnn Hb fuel Hfuel)
      as (db & pb & Eb & Rb).
    destruct (dict_key_get db a) as [y Hy];
      [now rewrite (res_keys _ _ _ _ Rb)|].
    pose proof (compute_path_eval g b fuel Hfuel db pb a y Eb Rb Hy) as Hev.
    destruct y as [y|]; [|exact Hev]. exfalso.
    destruct (res_chain _ _ _ _ Rb a y Hy) as (l & Hc & _ & _ & Hlast).
    destruct (chain_path _ _ _ _ _ Hc) as (Hp & _ & _).
    apply (path_weight_rev g (proj2 Hwf)) in Hp. rewrite rev_involutive in Hp.
    destruct (chain_head _ _ _ _ _ Hc) as [tl' ->].
    destruct (relaxed_path_bound g da (res_relaxed _ _ _ _ Ra)
                (a :: tl') a 0 y eq_refl (res_src _ _ _ _ Ra) Hp)
      as (dz & Hz & _).
    rewrite Hlast in Hz.
    pose proof (compute_path_eval g a fuel Hfuel da pa b (Fin dz) Ea Ra Hz)
      as (l' & _ & _ & _ & _ & Ep).
    congruence. }
  split; apply Hhalf; assumption.
Qed.

Lemma unreachable_both_ways_witness :
  compute_path 10 split_topo "A" "C" = Ok None <->
  compute_path 10 split_topo "C" "A" = Ok None.
Proof.
  apply (unreachable_both_ways split_topo "A" "C" 10).
  - apply well_formedb_sound. vm_compute. reflexivity.
  - apply nonneg_weightsb_sound. vm_compute. reflexivity.
  - vm_compute. tauto.
  - vm_compute. tauto.
  - vm_compute. lia.
Defined.

(** * Further properties of the next-hop filter and of the flow tables *)

Lemma ecmp_loop_cases dst dist : forall nbrs acc,
  ecmp_loop nbrs dst dist acc
  = if existsb (overflows dist) nbrs then Raise OverflowError
    else Ok (acc ++ map fst (filter (hop_ok dist dst) nbrs)).
Proof.
  induction nbrs as [|[v w] rest IH]; intros acc.
  - simpl. now rewrite app_nil_r.
  - cbn [ecmp_loop existsb filter]. unfold overflows at 1, hop_ok at 1.
    cbn [fst snd].
    destruct (dict_get_default dist v Inf) as [z|] eqn:Ev; cbn [dv_add is_inf andb orb].
    + cbn [bind dv_plus]. destruct (dv_eqb _ _); rewrite IH;
        destruct (existsb _ rest); try reflexivity.
      cbn [map fst app]. now rewrite <- app_assoc.
    + destruct (float_of_int_ok w); cbn [negb bind dv_plus orb]; [|reflexivity].
      destruct (dv_eqb _ _); rewrite IH;
        destruct (existsb _ rest); try reflexivity.
      cbn [map fst app]. now rewrite <- app_assoc.
Qed.

Lemma NoDup_map_fst_filter {B} (f : node * B -> bool) (l : list (node * B)) :
  NoDup (map fst l) -> NoDup (map fst (filter f l)).
Proof.
  induction l as [|[k b] l IH]; simpl; [auto|].
  intros H. inversion H as [|? ? Hni Hnd]; subst.
  destruct (f (k, b)); simpl; auto.
  constructor; auto. intros Hin. apply Hni.
  apply in_map_iff in Hin as ([k' b'] & <- & Hf).
  apply filter_In in Hf as [Hf _]. now apply (in_map fst) in Hf.
Qed.

Lemma neighbors_keys_NoDup g sw :
  well_formed g -> NoDup (dict_keys (neighbors g sw)).
Proof.
  intros [[_ H] _]. unfold neighbors, dict_get_default.
  destruct (dict_get (adj g) sw) eqn:E; [eauto|constructor].
Qed.

(** X17: [compute_equal_cost_next_hops] raises no KeyError, whatever the
    switch, the destination and the distance map.  It raises OverflowError
    exactly when some neighbor at infinite distance has a link weight that
    does not convert to float; otherwise it returns names of neighbors of
    [sw] only, in neighbor order, and the empty list for a switch that is
    not a node. *)
Theorem next_hops_total_up_to_overflow :
  forall (g : Graph) (sw dst : node) (dist : dict dist_val),
    (existsb (overflows dist) (neighbors g sw) = true ->
     compute_equal_cost_next_hops g sw dst dist = Raise OverflowError) /\
    (existsb (overflows dist) (neighbors g sw) = false ->
     exists nxt,
       compute_equal_cost_next_hops g sw dst dist = Ok nxt /\
       nxt = map fst (filter (hop_ok dist dst) (neighbors g sw)) /\
       incl nxt (dict_keys (neighbors g sw)) /\
       (~ In sw (nodes g) -> nxt = [])).
Proof.
  intros g sw dst dist. unfold compute_equal_cost_next_hops.
  rewrite ecmp_loop_cases. split; intros H; rewrite H; [reflexivity|].
  eexists. split; [reflexivity|]. split; [reflexivity|]. split.
  - intros x Hx. cbn [app] in Hx. apply in_map_iff in Hx as (vw & <- & Hf).
    apply filter_In in Hf as [Hf _]. now apply (in_map fst) in Hf.
  - intros Hs. apply dict_get_None in Hs.
    unfold neighbors, dict_get_default. now rewrite Hs.
Qed.

Lemma next_hops_total_up_to_overflow_witness :
  compute_equal_cost_next_hops huge_topo "A" "B" [] = Raise OverflowError /\
  compute_equal_cost_next_hops huge_topo "A" "B" [("A", Fin 0); ("B", Fin 0)]
  = Ok [].
Proof.
  split.
  - apply (next_hops_total_up_to_overflow huge_topo "A" "B" []).
    vm_compute. reflexivity.
  - destruct (next_hops_total_up_to_overflow huge_topo "A" "B"
                [("A", Fin 0); ("B", Fin 0)]) as [_ H].
    destruct H as (nxt & E & -> & _); [vm_compute; reflexivity|].
    exact E.
Defined.

(** ** Next hops for a destination at infinite distance *)

Lemma filter_none {A} (f : A -> bool) (l : list A) :
  (forall x, In x l -> f x = false) -> filter f l = [].
Proof.
  induction l as [|x l IH]; intros H; simpl; [reflexivity|].
  rewrite (H x (or_introl eq_refl)). apply IH. intros y Hy. apply H. now right.
Qed.

(** C10 as stated fails: the destination B is at infinite distance in the
    map and the switch A has a neighbor at infinite distance, yet the call
    returns no list: the link weight 2^1024 does not convert to float and
    [inf + w] raises OverflowError. *)
Lemma ecmp_unreachable_claim_counterexample :
  dict_get_default [("A", Inf); ("B", Inf)] "B" Inf = Inf /\
  In ("B", 2 ^ 1024) (neighbors huge_topo "A") /\
  compute_equal_cost_next_hops huge_topo "A" "B" [("A", Inf); ("B", Inf)]
  = Raise OverflowError /\
  compute_equal_cost_next_hops huge_topo "A" "B" [] = Raise OverflowError.
Proof.
  split; [reflexivity|]. split; [left; vm_compute; reflexivity|].
  split; vm_compute; reflexivity.
Qed.

(** C10, amended: when [dist.get(dst)] is infinite and the weights of the
    links to the neighbors at infinite distance convert to float, as
    [inf + w] requires, [compute_equal_cost_next_hops] returns exactly the
    neighbors of [sw] whose distance in [dist] is infinite, in neighbor
    order, so a non-empty list as soon as one neighbor is at infinite
    distance; when one of those weights does not convert, the call raises
    OverflowError.  When [dist] is the map that [compute_shortest_paths(sw)]
    returns, which is what [install_flows] passes, no neighbor of [sw] is at
    infinite distance and the result is the empty list. *)
Theorem ecmp_unreachable_destination :
  forall (g : Graph) (sw dst : node) (dist : dict dist_val),
    dict_get_default dist dst Inf = Inf ->
    ((forall v w, In (v, w) (neighbors g sw) ->
                  dict_get_default dist v Inf = Inf ->
                  float_of_int_ok w = true) ->
     exists nxt,
       compute_equal_cost_next_hops g sw dst dist = Ok nxt /\
       nxt = map fst (filter (fun vw => is_inf (dict_get_default dist (fst vw) Inf))
                             (neighbors g sw)) /\
       (forall v, In v nxt <->
                  exists w, In (v, w) (neighbors g sw) /\
                            dict_get_default dist v Inf = Inf) /\
       ((exists v w, In (v, w) (neighbors g sw) /\
                     dict_get_default dist v Inf = Inf) -> nxt <> [])) /\
    ((exists v w, In (v, w) (neighbors g sw) /\
                  dict_get_default dist v Inf = Inf /\
                  float_of_int_ok w = false) ->
     compute_equal_cost_next_hops g sw dst dist = Raise OverflowError) /\
    (forall (fuel : nat) (prev : dict (option node)),
       well_formed g -> nonneg_weights g -> (fuel_bound g <= fuel)%nat ->
       compute_shortest_paths fuel g sw = Ok (dist, prev) ->
       compute_equal_cost_next_hops g sw dst dist = Ok []).
Proof.
  intros g sw dst dist Hdst. split; [|split].
  - intros Hok.
    assert (Hflt : forall l : list (node * Z),
               filter (hop_ok dist dst) l
               = filter (fun vw => is_inf (dict_get_default dist (fst vw) Inf)) l).
    { intros l. apply filter_ext. intros [v w]. unfold hop_ok. simpl.
      rewrite Hdst. now destruct (dict_get_default dist v Inf). }
    assert (Hin : forall v,
               In v (map fst (filter (fun vw => is_inf (dict_get_default dist (fst vw) Inf))
                                     (neighbors g sw))) <->
               exists w, In (v, w) (neighbors g sw) /\
                         dict_get_default dist v Inf = Inf).
    { intros v. rewrite in_map_iff. split.
      - intros ([v' w] & <- & H). apply filter_In in H as [H1 H2]. simpl in *.
        exists w. split; auto. now destruct (dict_get_default dist v' Inf).
      - intros (w & H1 & H2). exists (v, w). split; auto.
        apply filter_In. split; auto. simpl. now rewrite H2. }
    eexists. split; [apply ecmp_spec; exact Hok|].
    unfold ecmp_set. rewrite Hflt. split; [reflexivity|]. split; [exact Hin|].
    intros (v & w & H1 & H2) E.
    assert (Hv : In v []) by (rewrite <- E; apply Hin; eauto).
    destruct Hv.
  - intros (v & w & Hvw & Hv & Hw).
    unfold compute_equal_cost_next_hops. rewrite ecmp_loop_cases.
    assert (Hex : existsb (overflows dist) (neighbors g sw) = true).
    { apply existsb_exists. exists (v, w). split; [exact Hvw|].
      unfold overflows. cbn [fst snd]. now rewrite Hv, Hw. }
    now rewrite Hex.
  - intros fuel prev Hwf Hnn Hfuel Esp.
    destruct (in_dec string_dec sw (nodes g)) as [Hs|Hs].
    + destruct (compute_shortest_paths_ok g sw Hwf Hnn Hs fuel Hfuel)
        as (dist' & prev' & E' & R).
      rewrite Esp in E'. injection E' as <- <-.
      rewrite ecmp_spec by exact (neighbors_finite g Hwf sw dist prev R).
      unfold ecmp_set. rewrite filter_none; [reflexivity|].
      intros [v w] Hvw. unfold hop_ok. cbn [fst snd]. rewrite Hdst.
      destruct (dict_get_default dist v Inf) as [z|] eqn:Ez; [reflexivity|].
      pose proof (neighbors_finite g Hwf sw dist prev R v w Hvw Ez) as Hf.
      destruct (res_relaxed _ _ _ _ R sw v w 0
                  (neighbors_adj g Hwf _ _ _ Hvw) (res_src _ _ _ _ R))
        as (db & Hdb & _).
      unfold dict_get_default in Ez. rewrite Hdb in Ez. discriminate.
    + apply dict_get_None in Hs.
      unfold compute_equal_cost_next_hops, neighbors, dict_get_default.
      now rewrite Hs.
Qed.

(** On the two-island topology: with the map that
    [compute_shortest_paths(C)] returns, the destination A is at infinite
    distance from the switch C and the result is empty; a non-empty result
    needs a map that was not measured from the switch, here the one measured
    from A, in which the neighbor D of C is at infinite distance. *)
Lemma ecmp_unreachable_destination_witness :
  exists dist prev,
    compute_shortest_paths 10 split_topo "C" = Ok (dist, prev) /\
    dict_get_default dist "A" Inf = Inf /\
    compute_equal_cost_next_hops split_topo "C" "A" dist = Ok [] /\
    compute_shortest_paths 10 split_topo "A"
    = Ok ([("A", Fin 0); ("B", Fin 1); ("C", Inf); ("D", Inf)],
          [("A", None); ("B", Some "A"); ("C", None); ("D", None)]) /\
    compute_equal_cost_next_hops split_topo "C" "D"
      [("A", Fin 0); ("B", Fin 1); ("C", Inf); ("D", Inf)] = Ok ["D"].
Proof.
  eassert (Esp : compute_shortest_paths 10 split_topo "C" = Ok (_, _))
    by (vm_compute; reflexivity).
  match type of Esp with
  | _ = Ok (?dist, ?prev) =>
      exists dist, prev;
      destruct (ecmp_unreachable_destination split_topo "C" "A" dist
                  eq_refl) as (_ & _ & Hown);
      destruct (ecmp_unreachable_destination split_topo "C" "D"
                  [("A", Fin 0); ("B", Fin 1); ("C", Inf); ("D", Inf)]
                  eq_refl) as (Hany & _ & _)
  end.
  split; [exact Esp|]. split; [reflexivity|]. split.
  - eapply (Hown 10%nat).
    + apply well_formedb_sound. vm_compute. reflexivity.
    + apply nonneg_weightsb_sound. vm_compute. reflexivity.
    + vm_compute. lia.
    + exact Esp.
  - split; [vm_compute; reflexivity|].
    destruct Hany as (nxt & E & -> & _).
    + intros v w [H|[]] _. injection H as <- <-. reflexivity.
    + exact E.
Defined.

(** Every table of the rebuilt controller, read by any key. *)
Lemma install_flows_tables {rng} (shuffle : rng -> list node -> list node * rng)
  (fuel : nat) (c : controller) (r : rng) :
  is_shuffle shuffle ->
  well_formed (topo c) -> nonneg_weights (topo c) ->
  (fuel_bound (topo c) <= fuel)%nat ->
  exists c' r',
    install_flows shuffle fuel c r = Ok (c', r') /\
    topo c' = topo c /\
    active_flows c' = active_flows c /\
    critical_flows c' = critical_flows c /\
    dict_keys (flow_tables c') = nodes (topo c) /\
    forall sw tbl, dict_get (flow_tables c') sw = Some tbl ->
      In sw (nodes (topo c)) /\
      exists dist prev,
        compute_shortest_paths fuel (topo c) sw = Ok (dist, prev) /\
        sp_result (topo c) sw dist prev /\
        table_for (topo c) (active_flows c) (critical_flows c) sw dist
          (nodes (topo c)) tbl.
Proof.
  intros Hsh Hwf Hnn Hfuel. unfold install_flows.
  destruct (all_dists_spec (topo c) fuel Hwf Hnn Hfuel (nodes (topo c)) [])
    as (ad & E & A & _); [auto|].
  rewrite E. cbn [bind].
  destruct (install_sws_spec shuffle Hsh (topo c) (active_flows c)
              (critical_flows c) fuel Hwf ad (nodes (topo c))
              (map (fun n => (n, [])) (nodes (topo c))) r)
    as (ft & r' & E' & K & T & _).
  { apply Hwf. }
  { exact A. }
  { intros sw Hsw. rewrite dict_get_const.
    apply mem_node_In in Hsw. now rewrite Hsw. }
  rewrite E'. cbn [bind].
  rewrite dict_keys_const in K.
  eexists _, r'. split; [reflexivity|]. cbn [topo active_flows critical_flows flow_tables].
  repeat split; auto.
  - apply dict_get_Some_key in H. now rewrite K in H.
  - apply dict_get_Some_key in H as Hsw. rewrite K in Hsw.
    destruct (T sw Hsw) as (dist & prev & tbl' & Esp & R & Ht & Htf).
    rewrite H in Ht. injection Ht as <-. eauto.
Qed.

Lemma table_for_dsts g active critical sw dist dsts tbl :
  table_for g active critical sw dist dsts tbl ->
  map match_dst tbl = filter (wanted sw dist) dsts.
Proof.
  unfold table_for. generalize (filter (wanted sw dist) dsts) as l.
  intros l H. induction H as [|d e l tbl Hde H IH]; [reflexivity|].
  simpl. rewrite IH. f_equal. apply Hde.
Qed.

Lemma NoDup_filter_node (f : node -> bool) (l : list node) :
  NoDup l -> NoDup (filter f l).
Proof.
  induction l as [|a l IH]; simpl; [auto|]. intros H.
  inversion H as [|? ? Hni Hnd]; subst.
  destruct (f a); auto. constructor; auto.
  intros Hin. apply filter_In in Hin. tauto.
Qed.

(** X18: [install_flows] gives every node, and nothing else, a table, in
    node order, and the table of a switch has exactly one entry for each
    other node at finite distance from it, in node order: none for the
    switch itself, none for a node at infinite distance, none twice. *)
Theorem one_entry_per_reachable_destination :
  forall (rng : Type) (shuffle : rng -> list node -> list node * rng)
         (fuel : nat) (c : controller) (r : rng),
    is_shuffle shuffle ->
    well_formed (topo c) -> nonneg_weights (topo c) ->
    (fuel_bound (topo c) <= fuel)%nat ->
    exists c' r',
      install_flows shuffle fuel c r = Ok (c', r') /\
      dict_keys (flow_tables c') = nodes (topo c) /\
      forall sw tbl dist prev,
        dict_get (flow_tables c') sw = Some tbl ->
        compute_shortest_paths fuel (topo c) sw = Ok (dist, prev) ->
        NoDup (map match_dst tbl) /\
        map match_dst tbl
        = filter (fun dst => negb (String.eqb dst sw)
                             && negb (is_inf (dict_get_default dist dst Inf)))
                 (nodes (topo c)).
Proof.
  intros rng shuffle fuel c r Hsh Hwf Hnn Hfuel.
  destruct (install_flows_tables shuffle fuel c r Hsh Hwf Hnn Hfuel)
    as (c' & r' & E & _ & _ & _ & K & T).
  exists c', r'. split; [exact E|]. split; [exact K|].
  intros sw tbl dist prev Ht Hsp.
  destruct (T sw tbl Ht) as (_ & dist' & prev' & Hsp' & _ & Htf).
  rewrite Hsp in Hsp'. injection Hsp' as <- <-.
  pose proof (table_for_dsts _ _ _ _ _ _ _ Htf) as Hm.
  split; [|exact Hm].
  rewrite Hm. apply NoDup_filter_node. apply Hwf.
Qed.

Lemma one_entry_per_reachable_destination_witness :
  exists c' tbl,
    install_flows keep_order 10
      (mkController split_topo [] [] [("H2", "S4")]) tt = Ok (c', tt) /\
    dict_keys (flow_tables c') = ["A"; "B"; "C"; "D"] /\
    dict_get (flow_tables c') "A" = Some tbl /\
    map match_dst tbl = ["B"].
Proof.
  destruct (one_entry_per_reachable_destination unit keep_order 10
              (mkController split_topo [] [] [("H2", "S4")]) tt)
    as (c' & r' & E & K & T).
  - exact keep_order_is_shuffle.
  - apply well_formedb_sound. vm_compute. reflexivity.
  - apply nonneg_weightsb_sound. vm_compute. reflexivity.
  - vm_compute. lia.
  - destruct r'.
    destruct (dict_key_get (flow_tables c') "A") as [tbl Ht].
    { rewrite K. vm_compute. tauto. }
    eassert (Esp : compute_shortest_paths 10 split_topo "A" = Ok (_, _))
      by (vm_compute; reflexivity).
    destruct (T "A" tbl _ _ Ht Esp) as [_ Hm].
    exists c', tbl. split; [exact E|]. split; [exact K|].
    split; [exact Ht|exact Hm].
Defined.

(** X19: after [install_flows], the table of a switch has an entry for a
    node [dst] exactly when [dst] is another node that some sequence of
    links connects to the switch: destinations cut off from a switch get no
    entry there. *)
Theorem entry_iff_connected :
  forall (rng : Type) (shuffle : rng -> list node -> list node * rng)
         (fuel : nat) (c : controller) (r : rng),
    is_shuffle shuffle ->
    well_formed (topo c) -> nonneg_weights (topo c) ->
    (fuel_bound (topo c) <= fuel)%nat ->
    exists c' r',
      install_flows shuffle fuel c r = Ok (c', r') /\
      forall sw dst tbl,
        In dst (nodes (topo c)) ->
        dict_get (flow_tables c') sw = Some tbl ->
        ((exists e, In e tbl /\ match_dst e = dst) <->
         dst <> sw /\
         exists p w, connects sw dst p /\ path_weight (topo c) p = Some w).
Proof.
  intros rng shuffle fuel c r Hsh Hwf Hnn Hfuel.
  destruct (install_flows_tables shuffle fuel c r Hsh Hwf Hnn Hfuel)
    as (c' & r' & E & _ & _ & _ & K & T).
  exists c', r'. split; [exact E|].
  intros sw dst tbl Hdst Ht.
  destruct (T sw tbl Ht) as (Hsw & dist & prev & Hsp & R & Htf).
  destruct (table_for_entries _ _ _ _ _ _ _ Htf) as [Hex Hall].
  pose proof (wanted_true (topo c) sw dist dst (res_keys _ _ _ _ R) Hdst)
    as Hw.
  split.
  - intros (e & He & Hm). destruct (Hall e He) as (_ & Hwe & _).
    rewrite Hm in Hwe. apply Hw in Hwe as [Hne [d Hd]].
    split; [exact Hne|].
    destruct (res_chain _ _ _ _ R dst d Hd) as (l & Hc & _ & _ & Hlast).
    destruct (chain_path _ _ _ _ _ Hc) as (Hp & Hl & Hh).
    exists (rev l), d. split; [split|exact Hp].
    + now rewrite Hh, Hlast.
    + rewrite (last_default (rev l) sw dst); auto.
      destruct (chain_head _ _ _ _ _ Hc) as [t ->]. simpl.
      intros H. now destruct (rev t).
  - intros [Hne (p & w & [Hh Hl] & Hp)].
    destruct (relaxed_path_bound (topo c) dist (res_relaxed _ _ _ _ R)
                p sw 0 w Hh (res_src _ _ _ _ R) Hp) as (dz & Hz & _).
    rewrite Hl in Hz.
    destruct (Hex dst Hdst) as (e & He & Hent).
    { apply Hw. eauto. }
    exists e. split; [exact He|apply Hent].
Qed.

Lemma entry_iff_connected_witness :
  exists c' tbl e,
    install_flows keep_order 10
      (mkController split_topo [] [] [("H2", "S4")]) tt = Ok (c', tt) /\
    dict_get (flow_tables c') "A" = Some tbl /\
    In e tbl /\ match_dst e = "B".
Proof.
  destruct (entry_iff_connected unit keep_order 10
              (mkController split_topo [] [] [("H2", "S4")]) tt)
    as (c' & r' & E & T).
  - exact keep_order_is_shuffle.
  - apply well_formedb_sound. vm_compute. reflexivity.
  - apply nonneg_weightsb_sound. vm_compute. reflexivity.
  - vm_compute. lia.
  - destruct r'.
    assert (Ht : exists tbl, dict_get (flow_tables c') "A" = Some tbl).
    { pose proof E as E0. vm_compute in E0. injection E0 as <-.
      eexists. reflexivity. }
    destruct Ht as [tbl Ht].
    destruct (proj2 (T "A" "B" tbl ltac:(vm_compute; tauto) Ht))
      as (e & He & Hm).
    { split; [discriminate|]. exists ["A"; "B"], 1.
      split; [split|]; reflexivity. }
    exists c', tbl, e. auto.
Defined.

(** X20: in every entry that [install_flows] builds, the next hops are
    neighbors of the switch and none is listed twice; a backup, when there
    is one, is not empty, is the action list without its first hop, and does
    not contain that first hop. *)
Theorem next_hops_and_backup_shape :
  forall (rng : Type) (shuffle : rng -> list node -> list node * rng)
         (fuel : nat) (c : controller) (r : rng),
    is_shuffle shuffle ->
    well_formed (topo c) -> nonneg_weights (topo c) ->
    (fuel_bound (topo c) <= fuel)%nat ->
    exists c' r',
      install_flows shuffle fuel c r = Ok (c', r') /\
      forall sw tbl e,
        dict_get (flow_tables c') sw = Some tbl -> In e tbl ->
        NoDup (action e) /\
        incl (action e) (dict_keys (neighbors (topo c) sw)) /\
        forall b, backup e = Some b ->
          exists first, action e = first :: b /\ b <> [] /\ ~ In first b.
Proof.
  intros rng shuffle fuel c r Hsh Hwf Hnn Hfuel.
  destruct (install_flows_tables shuffle fuel c r Hsh Hwf Hnn Hfuel)
    as (c' & r' & E & _ & _ & _ & K & T).
  exists c', r'. split; [exact E|].
  intros sw tbl e Ht He.
  destruct (T sw tbl Ht) as (Hsw & dist & prev & Hsp & R & Htf).
  destruct (table_for_entries _ _ _ _ _ _ _ Htf) as [_ Hall].
  destruct (Hall e He) as (_ & _ & Hent).
  pose proof Hent as (_ & Hperm & _ & Hb).
  assert (Hnd : NoDup (action e)).
  { eapply Permutation_NoDup; [exact Hperm|].
    apply NoDup_map_fst_filter. now apply neighbors_keys_NoDup. }
  split; [exact Hnd|]. split.
  - intros x Hx. apply (Permutation_in _ (Permutation_sym Hperm)) in Hx.
    apply in_map_iff in Hx as (vw & <- & Hf).
    apply filter_In in Hf as [Hf _]. now apply (in_map fst) in Hf.
  - intros b Hbe. rewrite Hb in Hbe.
    destruct (any_critical _ _); cbn [andb] in Hbe; [|discriminate].
    destruct (action e) as [|x [|y t]]; cbn [List.length Nat.ltb Nat.leb tl] in Hbe;
      try discriminate.
    injection Hbe as <-. exists x. split; [reflexivity|].
    split; [discriminate|]. now inversion Hnd.
Qed.

Lemma next_hops_and_backup_shape_witness :
  exists c' tbl e,
    install_flows keep_order 22
      (mkController main_topo [] [("H2", "S4")] [("H2", "S4")]) tt
    = Ok (c', tt) /\
    dict_get (flow_tables c') "S1" = Some tbl /\ In e tbl /\
    match_dst e = "S4" /\ NoDup (action e) /\
    backup e = Some ["S3"; "H1"].
Proof.
  destruct (next_hops_and_backup_shape unit keep_order 22
              (mkController main_topo [] [("H2", "S4")] [("H2", "S4")]) tt)
    as (c' & r' & E & T).
  - exact keep_order_is_shuffle.
  - apply well_formedb_sound. vm_compute. reflexivity.
  - apply nonneg_weightsb_sound. vm_compute. reflexivity.
  - vm_compute. lia.
  - destruct r'. pose proof E as E0. vm_compute in E0. injection E0 as <-.
    do 3 eexists. split; [exact E|]. split; [reflexivity|].
    split; [right; right; left; reflexivity|]. split; [reflexivity|].
    split; [|reflexivity].
    eapply (T "S1"); [reflexivity|]. right; right; left; reflexivity.
Defined.

(** X21: the next-hop test adds the link weight to the distance of the
    neighbor measured from the switch itself, so the entry for a destination
    never lists the destination as a next hop when the link from the switch
    to it has a non-zero weight, not even when that link is the only
    route. *)
Theorem destination_is_never_its_own_next_hop :
  forall (rng : Type) (shuffle : rng -> list node -> list node * rng)
         (fuel : nat) (c : controller) (r : rng),
    is_shuffle shuffle ->
    well_formed (topo c) -> nonneg_weights (topo c) ->
    (fuel_bound (topo c) <= fuel)%nat ->
    exists c' r',
      install_flows shuffle fuel c r = Ok (c', r') /\
      forall sw tbl e w,
        dict_get (flow_tables c') sw = Some tbl -> In e tbl ->
        adj_get (topo c) sw (match_dst e) = Some w -> w <> 0 ->
        ~ In (match_dst e) (action e).
Proof.
  intros rng shuffle fuel c r Hsh Hwf Hnn Hfuel.
  destruct (install_flows_tables shuffle fuel c r Hsh Hwf Hnn Hfuel)
    as (c' & r' & E & _ & _ & _ & K & T).
  exists c', r'. split; [exact E|].
  intros sw tbl e w Ht He Hadj Hw Hin.
  destruct (T sw tbl Ht) as (Hsw & dist & prev & Hsp & R & Htf).
  destruct (table_for_entries _ _ _ _ _ _ _ Htf) as [_ Hall].
  destruct (Hall e He) as (_ & _ & _ & Hperm & _).
  apply (Permutation_in _ (Permutation_sym Hperm)) in Hin.
  apply ecmp_set_In in Hin as (w' & Hvw & Heq).
  apply (neighbors_adj _ Hwf) in Hvw. rewrite Hadj in Hvw.
  injection Hvw as <-.
  destruct (dict_get_default dist (match_dst e) Inf) as [z|] eqn:Ez;
    simpl in Heq.
  - injection Heq as Heq. lia.
  - destruct (res_relaxed _ _ _ _ R sw (match_dst e) w 0 Hadj
                (res_src _ _ _ _ R)) as (db & Hdb & _).
    unfold dict_get_default in Ez. rewrite Hdb in Ez. discriminate.
Qed.

Lemma destination_is_never_its_own_next_hop_witness :
  exists c' tbl e,
    install_flows keep_order 10
      (mkController split_topo [] [] [("H2", "S4")]) tt = Ok (c', tt) /\
    dict_get (flow_tables c') "A" = Some tbl /\ In e tbl /\
    match_dst e = "B" /\ ~ In "B" (action e).
Proof.
  destruct (destination_is_never_its_own_next_hop unit keep_order 10
              (mkController split_topo [] [] [("H2", "S4")]) tt)
    as (c' & r' & E & T).
  - exact keep_order_is_shuffle.
  - apply well_formedb_sound. vm_compute. reflexivity.
  - apply nonneg_weightsb_sound. vm_compute. reflexivity.
  - vm_compute. lia.
  - destruct r'. pose proof E as E0. vm_compute in E0. injection E0 as <-.
    do 3 eexists. split; [exact E|]. split; [reflexivity|].
    split; [left; reflexivity|]. split; [reflexivity|].
    apply (T "A" [mkEntry "B" [] normal None] (mkEntry "B" [] normal None) 1);
      [reflexivity|left; reflexivity|vm_compute; reflexivity|lia].
Defined.

(** X22: [SDNController(topology)] on a graph built by the mutators with
    non-negative weights returns a controller that holds the topology, no
    active flow and the one critical flow (H2, S4); every entry of its
    tables has priority [normal] and no backup. *)
Theorem new_controller_is_plain :
  forall (rng : Type) (shuffle : rng -> list node -> list node * rng)
         (fuel : nat) (g : Graph) (r : rng),
    is_shuffle shuffle -> well_formed g -> nonneg_weights g ->
    (fuel_bound g <= fuel)%nat ->
    exists c r',
      new_controller shuffle fuel g r = Ok (c, r') /\
      topo c = g /\ active_flows c = [] /\
      critical_flows c = [("H2", "S4")] /\
      dict_keys (flow_tables c) = nodes g /\
      forall sw tbl e,
        dict_get (flow_tables c) sw = Some tbl -> In e tbl ->
        prio e = normal /\ backup e = None.
Proof.
  intros rng shuffle fuel g r Hsh Hwf Hnn Hfuel. unfold new_controller.
  destruct (install_flows_tables shuffle fuel
              (mkController g [] [] [("H2", "S4")]) r Hsh Hwf Hnn Hfuel)
    as (c' & r' & E & Ht & Ha & Hc & K & T).
  cbn [topo active_flows critical_flows] in *.
  exists c', r'. repeat split; auto.
  - destruct (T sw tbl H) as (_ & dist & prev & _ & _ & Htf).
    destruct (table_for_entries _ _ _ _ _ _ _ Htf) as [_ Hall].
    destruct (Hall e H0) as (_ & _ & _ & _ & Hp & _). exact Hp.
  - destruct (T sw tbl H) as (_ & dist & prev & _ & _ & Htf).
    destruct (table_for_entries _ _ _ _ _ _ _ Htf) as [_ Hall].
    destruct (Hall e H0) as (_ & _ & _ & _ & _ & Hb). exact Hb.
Qed.

Lemma new_controller_is_plain_witness :
  exists c,
    new_controller keep_order 22 main_topo tt = Ok (c, tt) /\
    topo c = main_topo /\ active_flows c = [] /\
    dict_keys (flow_tables c) = ["S1"; "S2"; "S3"; "S4"; "H1"; "H2"].
Proof.
  destruct (new_controller_is_plain unit keep_order 22 main_topo tt)
    as (c & r' & E & Ht & Ha & _ & K & _).
  - exact keep_order_is_shuffle.
  - apply well_formedb_sound. vm_compute. reflexivity.
  - apply nonneg_weightsb_sound. vm_compute. reflexivity.
  - vm_compute. lia.
  - destruct r'. exists c. auto.
Defined.

Lemma has_dst_app active f dst :
  has_dst (active ++ [f]) dst
  = has_dst active dst || String.eqb (snd f) dst.
Proof.
  unfold has_dst. rewrite existsb_app. simpl. now rewrite orb_false_r.
Qed.

(** X23: [inject_flow(src, dst)] appends the flow to the active flows,
    without checking the names and also when it is there already, and
    rebuilds the tables: afterwards every entry for [dst] has priority
    [high], and so has every entry whose destination had an active flow
    before. *)
Theorem inject_flow_raises_priority :
  forall (rng : Type) (shuffle : rng -> list node -> list node * rng)
         (fuel : nat) (c : controller) (src dst : node) (r : rng),
    is_shuffle shuffle ->
    well_formed (topo c) -> nonneg_weights (topo c) ->
    (fuel_bound (topo c) <= fuel)%nat ->
    exists c' r',
      inject_flow shuffle fuel c src dst r = Ok (c', r') /\
      topo c' = topo c /\
      active_flows c' = active_flows c ++ [(src, dst)] /\
      critical_flows c' = critical_flows c /\
      forall sw tbl e,
        dict_get (flow_tables c') sw = Some tbl -> In e tbl ->
        (match_dst e = dst -> prio e = high) /\
        ((exists s, In (s, match_dst e) (active_flows c)) -> prio e = high) /\
        (prio e = high ->
         match_dst e = dst \/ exists s, In (s, match_dst e) (active_flows c)).
Proof.
  intros rng shuffle fuel c src dst r Hsh Hwf Hnn Hfuel. unfold inject_flow.
  destruct (install_flows_tables shuffle fuel
              (mkController (topo c) (flow_tables c)
                 (active_flows c ++ [(src, dst)]) (critical_flows c))
              r Hsh Hwf Hnn Hfuel)
    as (c' & r' & E & Ht & Ha & Hc & K & T).
  cbn [topo active_flows critical_flows] in *.
  exists c', r'. split; [exact E|]. split; [exact Ht|]. split; [exact Ha|].
  split; [exact Hc|].
  intros sw tbl e Htbl He.
  destruct (T sw tbl Htbl) as (_ & dist & prev & _ & _ & Htf).
  destruct (table_for_entries _ _ _ _ _ _ _ Htf) as [_ Hall].
  destruct (Hall e He) as (_ & _ & _ & _ & Hp & _).
  rewrite has_dst_app in Hp. cbn [snd] in Hp.
  split; [|split].
  - intros Hm. rewrite Hp, Hm, String.eqb_refl, orb_true_r. reflexivity.
  - intros Hs. apply has_dst_true in Hs. now rewrite Hp, Hs.
  - intros Hh. rewrite Hp in Hh.
    destruct (has_dst (active_flows c) (match_dst e)) eqn:Eh.
    + right. now apply has_dst_true.
    + left. destruct (String.eqb_spec dst (match_dst e)); [auto|discriminate].
Qed.

Lemma inject_flow_raises_priority_witness :
  exists c0 c',
    new_controller keep_order 22 main_topo tt = Ok (c0, tt) /\
    inject_flow keep_order 22 c0 "H1" "H2" tt = Ok (c', tt) /\
    active_flows c' = [("H1", "H2")].
Proof.
  eassert (E0 : new_controller keep_order 22 main_topo tt = Ok (_, tt))
    by (vm_compute; reflexivity).
  match type of E0 with
  | _ = Ok (?c0, _) =>
      destruct (inject_flow_raises_priority unit keep_order 22 c0 "H1" "H2" tt)
        as (c' & r' & E & _ & Ha & _);
      [exact keep_order_is_shuffle
      |apply well_formedb_sound; vm_compute; reflexivity
      |apply nonneg_weightsb_sound; vm_compute; reflexivity
      |vm_compute; lia
      |destruct r'; exists c0, c']
  end.
  split; [exact E0|]. split; [exact E|exact Ha].
Defined.

(** ** Reconfiguration on any topology *)

Lemma dict_pop_length {V} (d : dict V) k :
  (List.length (dict_pop d k) <= List.length d)%nat.
Proof.
  induction d as [|[k' v'] d IH]; simpl; [lia|].
  destruct (String.eqb k' k); simpl; lia.
Qed.

Lemma pop_weight_degree a u v n :
  (List.length (neighbors (mkGraph (pop_weight a u v)) n)
   <= List.length (neighbors (mkGraph a) n))%nat.
Proof.
  unfold neighbors, dict_get_default, pop_weight. cbn [adj].
  destruct (dict_get a u) as [nb|] eqn:Eu; [|lia].
  rewrite dict_get_set.
  destruct (String.eqb_spec u n) as [E|E].
  - subst n. rewrite Eu. apply dict_pop_length.
  - lia.
Qed.

Lemma list_sum_map_le {A} (f h : A -> nat) l :
  (forall x, f x <= h x)%nat ->
  (list_sum (map f l) <= list_sum (map h l))%nat.
Proof.
  intros H. induction l as [|x l IH]; simpl; [lia|].
  specialize (H x). lia.
Qed.

Lemma remove_link_fuel_bound g u v :
  (fuel_bound (remove_link g u v) <= fuel_bound g)%nat.
Proof.
  unfold fuel_bound, degree_sum. rewrite remove_link_nodes.
  assert (list_sum (map (fun n => List.length (neighbors (remove_link g u v) n))
                        (nodes g))
          <= list_sum (map (fun n => List.length (neighbors g n)) (nodes g)))%nat.
  { apply list_sum_map_le. intros n. unfold remove_link.
    etransitivity; [apply pop_weight_degree|].
    etransitivity; [apply pop_weight_degree|]. destruct g; simpl. lia. }
  lia.
Qed.

Lemma remove_link_nonneg g u v :
  nonneg_weights g -> nonneg_weights (remove_link g u v).
Proof.
  intros H x y w. rewrite remove_link_spec.
  destruct (String.eqb v x && String.eqb u y); [discriminate|].
  destruct (String.eqb u x && String.eqb v y); [discriminate|].
  apply H.
Qed.

(** X24: on any topology built by the mutators with non-negative weights,
    [remove_link_and_reconfigure(u, v)] returns, keeps the nodes and the
    active and critical flows, and leaves the removed link unused in both
    directions: no entry of [u] lists [v], and no entry of [v] lists [u],
    as a next hop or in a backup.  It also returns when there was no such
    link. *)
Theorem reconfigure_drops_link_from_tables :
  forall (rng : Type) (shuffle : rng -> list node -> list node * rng)
         (fuel : nat) (c : controller) (u v : node) (r : rng),
    is_shuffle shuffle ->
    well_formed (topo c) -> nonneg_weights (topo c) ->
    (fuel_bound (topo c) <= fuel)%nat ->
    exists c' r',
      remove_link_and_reconfigure shuffle fuel c u v r = Ok (c', r') /\
      topo c' = remove_link (topo c) u v /\
      nodes (topo c') = nodes (topo c) /\
      active_flows c' = active_flows c /\
      critical_flows c' = critical_flows c /\
      forall sw other tbl e,
        (sw = u /\ other = v) \/ (sw = v /\ other = u) ->
        dict_get (flow_tables c') sw = Some tbl -> In e tbl ->
        ~ In other (action e) /\
        forall b, backup e = Some b -> ~ In other b.
Proof.
  intros rng shuffle fuel c u v r Hsh Hwf Hnn Hfuel.
  unfold remove_link_and_reconfigure.
  set (g' := remove_link (topo c) u v).
  assert (Hwf' : well_formed g') by now apply remove_link_well_formed.
  destruct (install_flows_tables shuffle fuel
              (mkController g' (flow_tables c) (active_flows c)
                 (critical_flows c)) r Hsh Hwf')
    as (c' & r' & E & Ht & Ha & Hc & K & T).
  - now apply remove_link_nonneg.
  - cbn [topo]. pose proof (remove_link_fuel_bound (topo c) u v). unfold g'. lia.
  - cbn [topo active_flows critical_flows] in *.
    exists c', r'. split; [exact E|]. split; [exact Ht|].
    split; [rewrite Ht; apply remove_link_nodes|].
    split; [exact Ha|]. split; [exact Hc|].
    intros sw other tbl e Hcase Htbl He.
    destruct (T sw tbl Htbl) as (_ & dist & prev & _ & _ & Htf).
    destruct (table_for_entries _ _ _ _ _ _ _ Htf) as [_ Hall].
    destruct (Hall e He) as (_ & _ & Hent).
    assert (Hno : ~ In other (action e)).
    { intros Hin.
      destruct (entry_next_hop_is_neighbor _ _ _ _ _ _ _ _ Hent Hin)
        as (w & Hw).
      apply (neighbors_adj _ Hwf') in Hw. unfold g' in Hw.
      rewrite remove_link_spec in Hw.
      destruct Hcase as [[-> ->]|[-> ->]];
        rewrite !String.eqb_refl in Hw; simpl in Hw;
        [destruct (String.eqb v u && String.eqb u v)|]; discriminate. }
    split; [exact Hno|].
    intros b Hb Hin. apply Hno.
    exact (entry_backup_in_action _ _ _ _ _ _ _ _ _ Hent Hb Hin).
Qed.

Lemma reconfigure_drops_link_from_tables_witness :
  exists c0 c',
    new_controller keep_order 22 main_topo tt = Ok (c0, tt) /\
    remove_link_and_reconfigure keep_order 22 c0 "S1" "S4" tt = Ok (c', tt) /\
    nodes (topo c') = ["S1"; "S2"; "S3"; "S4"; "H1"; "H2"] /\
    adj_get (topo c') "S1" "S4" = None.
Proof.
  eassert (E0 : new_controller keep_order 22 main_topo tt = Ok (_, tt))
    by (vm_compute; reflexivity).
  match type of E0 with
  | _ = Ok (?c0, _) =>
      destruct (reconfigure_drops_link_from_tables unit keep_order 22 c0
                  "S1" "S4" tt)
        as (c' & r' & E & Ht & Hn & _);
      [exact keep_order_is_shuffle
      |apply well_formedb_sound; vm_compute; reflexivity
      |apply nonneg_weightsb_sound; vm_compute; reflexivity
      |vm_compute; lia
      |destruct r'; exists c0, c']
  end.
  split; [exact E0|]. split; [exact E|].
  split; [rewrite Hn; vm_compute; reflexivity|].
  rewrite Ht. vm_compute. reflexivity.
Defined.

(** ** The utilisation count *)

Lemma path_weight_edges g p c :
  path_weight g p = Some c ->
  forall e, In e (path_edges p) ->
    exists w, adj_get g (fst e) (snd e) = Some w.
Proof.
  revert c. induction p as [|a [|b rest] IH]; intros c H e He;
    try (destruct He; fail).
  change (path_weight g (a :: b :: rest))
    with (match adj_get g a b, path_weight g (b :: rest) with
          | Some w, Some c => Some (w + c)
          | _, _ => None
          end) in H.
  destruct (adj_get g a b) as [w|] eqn:Ew; [|discriminate].
  destruct (path_weight g (b :: rest)) as [c'|] eqn:Ec; [|discriminate].
  cbn [path_edges] in He. destruct He as [<-|He]; [simpl; eauto|].
  exact (IH c' eq_refl e He).
Qed.

Lemma fuel_bound_ge_2 g : (2 <= fuel_bound g)%nat.
Proof. unfold fuel_bound. lia. Qed.

Lemma unknown_source_path g src dst fuel :
  ~ In src (nodes g) -> (2 <= fuel)%nat ->
  compute_path fuel g src dst
  = if mem_node dst (nodes g) then Ok None else Raise KeyError.
Proof.
  intros Hs Hfuel. unfold compute_path, compute_shortest_paths.
  rewrite (unknown_source_loop g src fuel Hs Hfuel). cbn [bind].
  destruct (unknown_source_dist g src Hs) as (_ & Hsrc & Hoth).
  unfold dict_lookup. destruct (string_dec dst src) as [->|Hne].
  - rewrite Hsrc. cbn [bind is_inf]. rewrite (mem_node_false _ _ Hs).
    destruct fuel as [|fuel]; [lia|]. cbn [walk_prev].
    unfold dict_lookup, init_prev. rewrite dict_get_const.
    now rewrite mem_node_false.
  - rewrite Hoth by assumption. now destruct (mem_node dst (nodes g)).
Qed.

(** What [compute_path] can do on a topology with non-negative weights. *)
Lemma compute_path_outcome g src dst fuel :
  well_formed g -> nonneg_weights g -> (fuel_bound g <= fuel)%nat ->
  (~ In dst (nodes g) -> compute_path fuel g src dst = Raise KeyError) /\
  (In dst (nodes g) ->
   compute_path fuel g src dst = Ok None \/
   exists a p, compute_path fuel g src dst = Ok (Some (a :: p)) /\
     forall e, In e (path_edges (a :: p)) ->
       exists w, adj_get g (fst e) (snd e) = Some w).
Proof.
  intros Hwf Hnn Hfuel.
  destruct (in_dec string_dec src (nodes g)) as [Hs|Hs].
  - destruct (compute_shortest_paths_ok g src Hwf Hnn Hs fuel Hfuel)
      as (dist & prev & E & R).
    split; intros Hd.
    + unfold compute_path. rewrite E. cbn [bind]. unfold dict_lookup.
      assert (Hnone : dict_get dist dst = None).
      { apply dict_get_None. now rewrite (res_keys _ _ _ _ R). }
      now rewrite Hnone.
    + rewrite <- (res_keys _ _ _ _ R) in Hd.
      destruct (dict_key_get _ _ Hd) as (dd & Hdd).
      pose proof (compute_path_eval g src fuel Hfuel dist prev dst dd E R Hdd)
        as Hev.
      destruct dd as [d|]; [|now left].
      destruct Hev as (l & Hc & _ & _ & _ & Ep). right.
      destruct (chain_path _ _ _ _ _ Hc) as (Hpw & _ & Hhd).
      destruct (rev l) as [|a p] eqn:El; [discriminate|].
      exists a, p. split; [exact Ep|].
      exact (path_weight_edges _ _ _ Hpw).
  - pose proof (Nat.le_trans _ _ _ (fuel_bound_ge_2 g) Hfuel) as H2.
    rewrite (unknown_source_path g src dst fuel Hs H2).
    split; intros Hd.
    + now rewrite (mem_node_false _ _ Hd).
    + apply mem_node_In in Hd. rewrite Hd. now left.
Qed.

Lemma pair_eqb_eq a b : pair_eqb a b = true <-> a = b.
Proof.
  destruct a as [a1 a2], b as [b1 b2]. unfold pair_eqb. cbn [fst snd].
  rewrite andb_true_iff, !String.eqb_eq. split.
  - intros [-> ->]. reflexivity.
  - intros E. injection E as -> ->. auto.
Qed.

Lemma pair_eqb_refl a : pair_eqb a a = true.
Proof. now apply pair_eqb_eq. Qed.

Lemma util_get_incr util k k' :
  util_get (util_incr util k) k'
  = util_get util k' + (if pair_eqb k k' then 1 else 0).
Proof.
  induction util as [|[k0 n] rest IH]; cbn [util_incr util_get].
  - destruct (pair_eqb k k'); lia.
  - destruct (pair_eqb k0 k) eqn:E0; cbn [util_get].
    + apply pair_eqb_eq in E0. subst k0.
      destruct (pair_eqb k k'); lia.
    + destruct (pair_eqb k0 k') eqn:E1; [|exact IH].
      apply pair_eqb_eq in E1. subst k0.
      destruct (pair_eqb k k') eqn:E2; [|lia].
      apply pair_eqb_eq in E2. subst k'.
      rewrite pair_eqb_refl in E0. discriminate.
Qed.

Lemma util_incr_keys util k :
  map fst (util_incr util k)
  = if existsb (fun x => pair_eqb x k) (map fst util) then map fst util
    else map fst util ++ [k].
Proof.
  induction util as [|[k0 n] rest IH]; cbn [util_incr map existsb fst];
    [reflexivity|].
  destruct (pair_eqb k0 k); cbn [map fst orb]; [reflexivity|].
  rewrite IH. now destruct (existsb _ (map fst rest)).
Qed.

Lemma util_incr_keys_NoDup util k :
  NoDup (map fst util) -> NoDup (map fst (util_incr util k)).
Proof.
  intros H. rewrite util_incr_keys.
  destruct (existsb (fun x => pair_eqb x k) (map fst util)) eqn:E; [exact H|].
  apply NoDup_app; [exact H|repeat constructor; intros []|].
  intros x Hx [Hk|[]]. subst x.
  apply Bool.not_true_iff_false in E. apply E.
  apply existsb_exists. exists k. split; [exact Hx|apply pair_eqb_refl].
Qed.

Lemma util_incr_keys_In util k x :
  In x (map fst (util_incr util k)) -> In x (map fst util) \/ x = k.
Proof.
  rewrite util_incr_keys.
  destruct (existsb _ (map fst util)); [auto|].
  rewrite in_app_iff. simpl. intuition.
Qed.

Lemma hop_count_app es es' k :
  hop_count (es ++ es') k = hop_count es k + hop_count es' k.
Proof.
  unfold hop_count. rewrite filter_app, length_app. lia.
Qed.

Lemma util_inv_empty g : util_inv g [] [].
Proof.
  split; [intros e []|reflexivity|constructor|intros k []].
Qed.

Lemma record_edges_inv g es : forall fe util,
  util_inv g fe util ->
  (forall e, In e es -> exists w, adj_get g (fst e) (snd e) = Some w) ->
  exists util',
    record_edges es fe util = (fe ++ es, util') /\
    util_inv g (fe ++ es) util'.
Proof.
  induction es as [|e rest IH]; intros fe util I Hes; cbn [record_edges].
  - rewrite app_nil_r. eauto.
  - destruct (IH (fe ++ [e]) (util_incr util (sorted_pair e)))
      as (util' & E & I').
    + destruct I as [L C N K]. split.
      * intros x Hx. apply in_app_iff in Hx as [Hx|[Hx|[]]]; [auto|].
        subst x. apply Hes. now left.
      * intros k. rewrite util_get_incr, hop_count_app, C. f_equal.
        unfold hop_count. cbn [filter].
        destruct (pair_eqb (sorted_pair e) k); reflexivity.
      * now apply util_incr_keys_NoDup.
      * intros k Hk. apply util_incr_keys_In in Hk as [Hk|Hk].
        -- destruct (K k Hk) as (x & Hx & Ex).
           exists x. split; [apply in_app_iff; auto|exact Ex].
        -- exists e. split; [apply in_app_iff; right; now left|now subst k].
    + intros x Hx. apply Hes. now right.
    + rewrite <- app_assoc in E, I'. cbn [app] in E, I'. eauto.
Qed.

Section Utilisation.
Variable g : Graph.
Variable fuel : nat.
Hypothesis Hwf : well_formed g.
Hypothesis Hnn : nonneg_weights g.
Hypothesis Hfuel : (fuel_bound g <= fuel)%nat.

Lemma utilisation_loop_inv : forall flows fe util,
  util_inv g fe util ->
  (forall s d, In (s, d) flows -> In d (nodes g)) ->
  exists fe' util',
    utilisation_loop fuel g flows fe util = Ok (fe', util') /\
    util_inv g fe' util'.
Proof.
  induction flows as [|[s d] rest IH]; intros fe util I Hd;
    cbn [utilisation_loop].
  - eauto.
  - destruct (compute_path_outcome g s d fuel Hwf Hnn Hfuel) as [_ Hin].
    assert (Hrest : forall s0 d0, In (s0, d0) rest -> In d0 (nodes g))
      by (intros s0 d0 H; apply (Hd s0 d0); now right).
    destruct (Hin (Hd s d (or_introl eq_refl))) as [E|(a & p & E & Hl)];
      rewrite E; cbn [bind].
    + now apply IH.
    + destruct (record_edges_inv g _ fe util I Hl) as (util' & Er & I').
      rewrite Er. now apply IH.
Qed.

Lemma utilisation_loop_dangling : forall flows fe util s d,
  In (s, d) flows -> ~ In d (nodes g) ->
  utilisation_loop fuel g flows fe util = Raise KeyError.
Proof.
  induction flows as [|[s0 d0] rest IH]; intros fe util s d Hin Hd;
    [destruct Hin|].
  cbn [utilisation_loop].
  destruct (compute_path_outcome g s0 d0 fuel Hwf Hnn Hfuel) as [Hout Hinn].
  destruct (in_dec string_dec d0 (nodes g)) as [H0|H0].
  - assert (Hr : In (s, d) rest).
    { destruct Hin as [E|H]; [|exact H].
      injection E as Es Ed. subst d0. contradiction. }
    destruct (Hinn H0) as [E|(a & p & E & _)]; rewrite E; cbn [bind].
    + eapply IH; eauto.
    + destruct (record_edges (path_edges (a :: p)) fe util) as [fe' ut'].
      eapply IH; eauto.
  - rewrite (Hout H0). reflexivity.
Qed.
End Utilisation.

(** X25: when every active flow names a destination that is a node, the
    utilisation count of [visualize] returns on a topology with non-negative
    weights; every recorded flow edge is a link of the topology, [util]
    holds for each sorted pair the number of recorded hops over that link in
    either direction, and its keys are exactly such pairs, each once. *)
Theorem utilisation_counts_hops :
  forall (fuel : nat) (c : controller),
    well_formed (topo c) -> nonneg_weights (topo c) ->
    (fuel_bound (topo c) <= fuel)%nat ->
    (forall s d, In (s, d) (active_flows c) -> In d (nodes (topo c))) ->
    exists flow_edges util,
      utilisation fuel c = Ok (flow_edges, util) /\
      (forall u v, In (u, v) flow_edges ->
         exists w, adj_get (topo c) u v = Some w) /\
      (forall k, util_get util k = hop_count flow_edges k) /\
      NoDup (map fst util) /\
      (forall k, In k (map fst util) ->
         exists e, In e flow_edges /\ sorted_pair e = k).
Proof.
  intros fuel c Hwf Hnn Hfuel Hd. unfold utilisation.
  destruct (utilisation_loop_inv (topo c) fuel Hwf Hnn Hfuel
              (active_flows c) [] [] (util_inv_empty _) Hd)
    as (fe & util & E & [L C N K]).
  exists fe, util. split; [exact E|]. split; [|auto].
  intros u v H. exact (L (u, v) H).
Qed.

Lemma utilisation_counts_hops_witness :
  exists flow_edges util,
    utilisation 22
      (mkController main_topo [] [("H1", "H2"); ("H2", "H1")] []) =
      Ok (flow_edges, util) /\
    util_get util ("S1", "S2") = hop_count flow_edges ("S1", "S2") /\
    hop_count flow_edges ("S1", "S2") = 2.
Proof.
  destruct (utilisation_counts_hops 22
              (mkController main_topo [] [("H1", "H2"); ("H2", "H1")] []))
    as (fe & util & E & _ & C & _).
  - apply well_formedb_sound. vm_compute. reflexivity.
  - apply nonneg_weightsb_sound. vm_compute. reflexivity.
  - vm_compute. lia.
  - cbn [active_flows topo]. intros s d [H|[H|[]]]; injection H as <- <-;
      vm_compute; tauto.
  - exists fe, util. split; [exact E|]. split; [apply C|].
    vm_compute in E. injection E as <- _. vm_compute. reflexivity.
Defined.

(** X26: an active flow whose destination is not a node makes the
    utilisation count of [visualize] raise KeyError, wherever the flow
    stands in the list and whatever its source; [inject_flow] accepts such
    a flow. *)
Theorem utilisation_dangling_flow :
  forall (fuel : nat) (c : controller) (s d : node),
    well_formed (topo c) -> nonneg_weights (topo c) ->
    (fuel_bound (topo c) <= fuel)%nat ->
    In (s, d) (active_flows c) -> ~ In d (nodes (topo c)) ->
    utilisation fuel c = Raise KeyError.
Proof.
  intros fuel c s d Hwf Hnn Hfuel Hin Hd. unfold utilisation.
  exact (utilisation_loop_dangling (topo c) fuel Hwf Hnn Hfuel
           (active_flows c) [] [] s d Hin Hd).
Qed.

Lemma utilisation_dangling_flow_witness :
  utilisation 22
    (mkController main_topo [] [("H1", "H2"); ("H1", "H9")] []) =
  Raise KeyError.
Proof.
  apply (utilisation_dangling_flow 22
           (mkController main_topo [] [("H1", "H2"); ("H1", "H9")] [])
           "H1" "H9").
  - apply well_formedb_sound. vm_compute. reflexivity.
  - apply nonneg_weightsb_sound. vm_compute. reflexivity.
  - vm_compute. lia.
  - right. left. reflexivity.
  - vm_compute. intuition discriminate.
Defined.

(** ** Removing a node through the CLI *)

Lemma list_sum_incl (f : node -> nat) l' : forall l,
  NoDup l' -> incl l' l ->
  (list_sum (map f l') <= list_sum (map f l))%nat.
Proof.
  induction l' as [|x t IH]; intros l Hnd Hincl; simpl; [lia|].
  inversion Hnd as [|? ? Hx Ht]; subst.
  destruct (in_split x l (Hincl x (or_introl eq_refl))) as (l1 & l2 & ->).
  assert (H : incl t (l1 ++ l2)).
  { intros y Hy. specialize (Hincl y (or_intror Hy)).
    apply in_app_iff in Hincl. apply in_app_iff.
    destruct Hincl as [H|[H|H]]; auto. subst y. contradiction. }
  specialize (IH _ Ht H). rewrite !map_app, !list_sum_app in *.
  simpl. lia.
Qed.

Lemma subgraph_fuel_bound g g' :
  well_formed g -> well_formed g' ->
  incl (nodes g') (nodes g) ->
  (forall x y w, adj_get g' x y = Some w ->
     exists w', adj_get g x y = Some w') ->
  (fuel_bound g' <= fuel_bound g)%nat.
Proof.
  intros Hwf Hwf' Hn Ha. unfold fuel_bound, degree_sum.
  assert (L1 : (List.length (nodes g') <= List.length (nodes g))%nat).
  { apply NoDup_incl_length; [|exact Hn]. destruct Hwf' as [[N _] _]. exact N. }
  assert (L2 : forall n, (List.length (neighbors g' n)
                          <= List.length (neighbors g n))%nat).
  { intros n.
    rewrite <- (length_map fst (neighbors g' n)).
    rewrite <- (length_map fst (neighbors g n)).
    apply NoDup_incl_length; [apply (neighbors_keys_NoDup g' n Hwf')|].
    intros y Hy. apply in_map_iff in Hy as ([y' w] & Ey & Hy).
    cbn [fst] in Ey. subst y'.
    apply (neighbors_adj _ Hwf') in Hy. destruct (Ha _ _ _ Hy) as (w' & Hw').
    apply adj_neighbors in Hw'. apply in_map_iff.
    exists (y, w'). auto. }
  pose proof (list_sum_map_le _ _ (nodes g') L2) as S1.
  assert (S2 := list_sum_incl (fun n => List.length (neighbors g n))
                  (nodes g') (nodes g)
                  (proj1 (proj1 Hwf')) Hn).
  lia.
Qed.

Lemma remove_node_keeps_model g n :
  well_formed g -> nonneg_weights g ->
  exists g', remove_node g n = Ok g' /\
    well_formed g' /\ nonneg_weights g' /\
    (fuel_bound g' <= fuel_bound g)%nat /\
    ~ In n (nodes g') /\
    (forall x, In x (nodes g') <-> In x (nodes g) /\ x <> n) /\
    (forall x y, x = n \/ y = n -> adj_get g' x y = None).
Proof.
  intros Hwf Hnn.
  destruct (remove_node_spec g n Hwf) as (g' & E & Hwf' & Hn & Hk & Hz & Ho).
  assert (Hsub : forall x y w, adj_get g' x y = Some w ->
                               adj_get g x y = Some w).
  { intros x y w H.
    destruct (string_dec x n) as [Ex|Ex];
      [rewrite (Hz x y (or_introl Ex)) in H; discriminate|].
    destruct (string_dec y n) as [Ey|Ey];
      [rewrite (Hz x y (or_intror Ey)) in H; discriminate|].
    now rewrite <- (Ho x y Ex Ey). }
  exists g'. split; [exact E|]. split; [exact Hwf'|].
  split; [intros x y w H; exact (Hnn x y w (Hsub x y w H))|].
  split; [|auto].
  apply subgraph_fuel_bound; auto.
  - intros x Hx. now apply Hk in Hx.
  - intros x y w H. eauto.
Qed.

(** X27: the CLI command [remove_node n] (the removal followed by
    [install_flows]) returns on a topology with non-negative weights; the
    node set loses exactly [n], the active flows are kept as they are, also
    those that name [n], no table is kept for [n], and no entry has [n] as
    its destination, as a next hop or in a backup. *)
Theorem cli_remove_node_forgets_node :
  forall (rng : Type) (shuffle : rng -> list node -> list node * rng)
         (fuel : nat) (c : controller) (n : node) (r : rng),
    is_shuffle shuffle ->
    well_formed (topo c) -> nonneg_weights (topo c) ->
    (fuel_bound (topo c) <= fuel)%nat ->
    exists c' r',
      cli_remove_node shuffle fuel c n r = Ok (c', r') /\
      (forall x, In x (nodes (topo c')) <-> In x (nodes (topo c)) /\ x <> n) /\
      active_flows c' = active_flows c /\
      dict_get (flow_tables c') n = None /\
      forall sw tbl e,
        dict_get (flow_tables c') sw = Some tbl -> In e tbl ->
        match_dst e <> n /\ ~ In n (action e) /\
        forall b, backup e = Some b -> ~ In n b.
Proof.
  intros rng shuffle fuel c n r Hsh Hwf Hnn Hfuel. unfold cli_remove_node.
  destruct (remove_node_keeps_model (topo c) n Hwf Hnn)
    as (g' & E & Hwf' & Hnn' & Hfb & Hn & Hk & Hz).
  rewrite E. cbn [bind].
  destruct (install_flows_tables shuffle fuel
              (mkController g' (flow_tables c) (active_flows c)
                 (critical_flows c)) r Hsh Hwf' Hnn')
    as (c' & r' & Ei & Ht & Ha & _ & K & T); [cbn [topo]; lia|].
  cbn [topo active_flows critical_flows] in *.
  exists c', r'. split; [exact Ei|]. split; [now rewrite Ht|].
  split; [exact Ha|].
  split; [apply dict_get_None; now rewrite K|].
  intros sw tbl e Htbl He.
  destruct (T sw tbl Htbl) as (_ & dist & prev & _ & _ & Htf).
  destruct (table_for_entries _ _ _ _ _ _ _ Htf) as [_ Hall].
  destruct (Hall e He) as (Hdst & _ & Hent).
  assert (Hno : ~ In n (action e)).
  { intros Hin.
    destruct (entry_next_hop_is_neighbor _ _ _ _ _ _ _ _ Hent Hin)
      as (w & Hw).
    apply (neighbors_adj _ Hwf') in Hw.
    rewrite (Hz sw n (or_intror eq_refl)) in Hw. discriminate. }
  split; [intros Em; rewrite Em in Hdst; contradiction|].
  split; [exact Hno|].
  intros b Hb Hin. apply Hno.
  exact (entry_backup_in_action _ _ _ _ _ _ _ _ _ Hent Hb Hin).
Qed.

Lemma cli_remove_node_forgets_node_witness :
  exists c0 c',
    new_controller keep_order 22 main_topo tt = Ok (c0, tt) /\
    cli_remove_node keep_order 22 c0 "S2" tt = Ok (c', tt) /\
    dict_get (flow_tables c') "S2" = None.
Proof.
  eassert (E0 : new_controller keep_order 22 main_topo tt = Ok (_, tt))
    by (vm_compute; reflexivity).
  match type of E0 with
  | _ = Ok (?c0, _) =>
      destruct (cli_remove_node_forgets_node unit keep_order 22 c0 "S2" tt)
        as (c' & r' & E & _ & _ & Hn & _);
      [exact keep_order_is_shuffle
      |apply well_formedb_sound; vm_compute; reflexivity
      |apply nonneg_weightsb_sound; vm_compute; reflexivity
      |vm_compute; lia
      |destruct r'; exists c0, c']
  end.
  split; [exact E0|]. split; [exact E|exact Hn].
Defined.

(** X28: removing, through the CLI, a node that is the destination of an
    active flow leaves that flow dangling: the command itself returns, and
    the utilisation count of a later [visualize] raises KeyError. *)
Theorem remove_node_breaks_utilisation :
  forall (rng : Type) (shuffle : rng -> list node -> list node * rng)
         (fuel : nat) (c : controller) (s n : node) (r : rng),
    is_shuffle shuffle ->
    well_formed (topo c) -> nonneg_weights (topo c) ->
    (fuel_bound (topo c) <= fuel)%nat ->
    In (s, n) (active_flows c) ->
    exists c' r',
      cli_remove_node shuffle fuel c n r = Ok (c', r') /\
      utilisation fuel c' = Raise KeyError.
Proof.
  intros rng shuffle fuel c s n r Hsh Hwf Hnn Hfuel Hin.
  unfold cli_remove_node.
  destruct (remove_node_keeps_model (topo c) n Hwf Hnn)
    as (g' & E & Hwf' & Hnn' & Hfb & Hn & _).
  rewrite E. cbn [bind].
  destruct (install_flows_tables shuffle fuel
              (mkController g' (flow_tables c) (active_flows c)
                 (critical_flows c)) r Hsh Hwf' Hnn')
    as (c' & r' & Ei & Ht & Ha & _); [cbn [topo]; lia|].
  cbn [topo active_flows] in *.
  exists c', r'. split; [exact Ei|]. unfold utilisation. rewrite Ht, Ha.
  apply (utilisation_loop_dangling g' fuel Hwf' Hnn') with (s := s) (d := n);
    [lia|exact Hin|exact Hn].
Qed.

Lemma remove_node_breaks_utilisation_witness :
  exists c',
    cli_remove_node keep_order 22
      (mkController main_topo [] [("H1", "H2")] [("H2", "S4")]) "H2" tt
    = Ok (c', tt) /\
    utilisation 22 c' = Raise KeyError.
Proof.
  destruct (remove_node_breaks_utilisation unit keep_order 22
              (mkController main_topo [] [("H1", "H2")] [("H2", "S4")])
              "H1" "H2" tt)
    as (c' & r' & E & U).
  - exact keep_order_is_shuffle.
  - apply well_formedb_sound. vm_compute. reflexivity.
  - apply nonneg_weightsb_sound. vm_compute. reflexivity.
  - vm_compute. lia.
  - left. reflexivity.
  - destruct r'. exists c'. split; [exact E|exact U].
Defined.
